(** * Recipe endpoints, scene items and dashboard rendering

    A shallow embedding of the handlers of [pkg/api] that drive plugin
    recipes ([GetRecipeList], [GetRecipeByID], [InstallRecipe],
    [UninstallRecipe], [ApplyRecipeStep], [RevertRecipeStep]), of
    [renderDashboard], and of [SceneItemBase.setState], together with the
    properties the specification states about them. *)

From Stdlib Require Import ZArith Ascii String.
From stdpp Require Import gmap strings list fin_maps.

Local Open Scope string_scope.
Local Open Scope list_scope.
Local Open Scope Z_scope.

(** ** Go's [strconv.Atoi]

    The handlers parse the step number with [strconv.Atoi] of the Go
    standard library.  The functions below follow the library's code for
    base 10 and a 64-bit [int]: the fast path of [Atoi] for short strings
    and the [ParseInt]/[ParseUint] slow path, with their early returns. *)
Module strconv.

Inductive NumError : Type :=
| ErrSyntax
| ErrRange.

Definition IntSize : Z := 64.
Definition maxUint64 : Z := 2 ^ 64 - 1.

Definition byte_val (c : ascii) : Z := Z.of_N (N_of_ascii c).

(** [uintN] and [intN] give the wrap-around of Go's fixed-width types. *)
Definition uint8 (z : Z) : Z := z mod 2 ^ 8.
Definition uint64 (z : Z) : Z := z mod 2 ^ 64.
Definition int64 (z : Z) : Z := (z + 2 ^ 63) mod 2 ^ 64 - 2 ^ 63.

(** [lower(c)] is [c | ('x' - 'X')]. *)
Definition lower (c : Z) : Z := Z.lor c 32.

(** The digit loop of [ParseUint(s, 10, 64)], [n] being the value read so
    far. *)
Fixpoint ParseUint_digits (s : string) (n : Z) : Z * option NumError :=
  match s with
  | EmptyString => (n, None)
  | String ch rest =>
      let c := byte_val ch in
      let cutoff := maxUint64 / 10 + 1 in
      let maxVal := maxUint64 in
      let digit :=
        if (48 <=? c) && (c <=? 57) then Some (uint8 (c - 48))
        else if (97 <=? lower c) && (lower c <=? 122)
             then Some (uint8 (lower c - 97 + 10))
             else None in
      match digit with
      | None => (0, Some ErrSyntax)
      | Some d =>
          if 10 <=? d then (0, Some ErrSyntax)
          else if cutoff <=? n then (maxVal, Some ErrRange)
          else
            let n' := uint64 (n * 10) in
            let n1 := uint64 (n' + d) in
            if (n1 <? n') || (maxVal <? n1) then (maxVal, Some ErrRange)
            else ParseUint_digits rest n1
      end
  end.

Definition ParseUint (s : string) : Z * option NumError :=
  match s with
  | EmptyString => (0, Some ErrSyntax)
  | _ => ParseUint_digits s 0
  end.

Definition ParseInt (s : string) : Z * option NumError :=
  match s with
  | EmptyString => (0, Some ErrSyntax)
  | String ch rest =>
      let '(neg, s1) :=
        if Ascii.eqb ch "+"%char then (false, rest)
        else if Ascii.eqb ch "-"%char then (true, rest)
        else (false, s) in
      let '(un, err) := ParseUint s1 in
      match err with
      | Some ErrSyntax => (0, Some ErrSyntax)
      | _ =>
          let cutoff := 2 ^ (IntSize - 1) in
          if negb neg && (cutoff <=? un) then (cutoff - 1, Some ErrRange)
          else if neg && (cutoff <? un) then (- cutoff, Some ErrRange)
          else
            let n := int64 un in
            (if neg then int64 (- n) else n, None)
      end
  end.

(** The digit loop of the fast path of [Atoi]. *)
Fixpoint Atoi_digits (s : string) (n : Z) : option Z :=
  match s with
  | EmptyString => Some n
  | String ch rest =>
      let d := uint8 (byte_val ch - 48) in
      if 9 <? d then None else Atoi_digits rest (n * 10 + d)
  end.

Definition Atoi (s : string) : Z * option NumError :=
  let sLen := Z.of_nat (String.length s) in
  match s with
  | String ch rest =>
      if sLen <? 19 then
        let s1 :=
          if Ascii.eqb ch "-"%char || Ascii.eqb ch "+"%char then rest else s in
        match s1 with
        | EmptyString => (0, Some ErrSyntax)
        | _ =>
            match Atoi_digits s1 0 with
            | None => (0, Some ErrSyntax)
            | Some n => (if Ascii.eqb ch "-"%char then - n else n, None)
            end
        end
      else ParseInt s
  | EmptyString => ParseInt s
  end.

End strconv.

(** ** A small model of the Go runtime the handlers rely on

    A computation runs on a process state [Σ]; it either returns or panics,
    and it may start goroutines with [go_].  A started goroutine is only
    recorded: it runs detached from the computation that started it. *)
Module gort.

Inductive Panic : Type :=
| IndexOutOfRange (index len : Z)
| SliceBoundsOutOfRange (low len : Z).

Inductive Result (A : Type) : Type :=
| Returned (a : A)
| Panicked (p : Panic).
Arguments Returned {A} a.
Arguments Panicked {A} p.

Section Monad.
Context {Σ : Type}.

(** [G] is the type of the goroutines the computation may start. *)
Definition GoM (G A : Type) : Type := Σ → Result A * Σ * list G.

Definition ret {G A} (a : A) : GoM G A := λ σ, (Returned a, σ, []).

Definition bind {G A B} (m : GoM G A) (k : A → GoM G B) : GoM G B :=
  λ σ,
    match m σ with
    | (Returned a, σ1, gs) =>
        let '(r, σ2, gs') := k a σ1 in (r, σ2, gs ++ gs')
    | (Panicked p, σ1, gs) => (Panicked p, σ1, gs)
    end.

Definition panic {G A} (p : Panic) : GoM G A := λ σ, (Panicked p, σ, []).

(** The statement [go f(args)], as the thread that executes it sees it:
    the goroutine is handed to the scheduler and the thread goes on.  A
    computation of this monad is a thread run without interruption; what
    the goroutine does to the state while the thread goes on is for the
    scheduler of [concurrent] to say. *)
Definition go_ {G} (g : G) : GoM G unit := λ σ, (Returned tt, σ, [g]).

Definition get {G} : GoM G Σ := λ σ, (Returned σ, σ, []).
Definition modify {G} (f : Σ → Σ) : GoM G unit := λ σ, (Returned tt, f σ, []).

(** [s[i]] panics outside [0 <= i < len(s)]. *)
Definition slice_index {G A} (s : list A) (i : Z) : GoM G A :=
  if (0 <=? i) && (i <? Z.of_nat (length s)) then
    match s !! Z.to_nat i with
    | Some a => ret a
    | None => panic (IndexOutOfRange i (Z.of_nat (length s)))
    end
  else panic (IndexOutOfRange i (Z.of_nat (length s))).

(** [s[i] = a], with the same bounds check. *)
Definition slice_set {G A} (s : list A) (i : Z) (a : A) : GoM G (list A) :=
  if (0 <=? i) && (i <? Z.of_nat (length s)) then ret (<[Z.to_nat i := a]> s)
  else panic (IndexOutOfRange i (Z.of_nat (length s))).

(** The bytes of [s] from position [n] on. *)
Fixpoint drop_bytes (n : nat) (s : string) : string :=
  match n, s with
  | O, _ => s
  | S n', String _ rest => drop_bytes n' rest
  | S _, EmptyString => EmptyString
  end.

(** [s[low:]] on a string panics outside [0 <= low <= len(s)]. *)
Definition slice_from {G} (s : string) (low : Z) : GoM G string :=
  if (0 <=? low) && (low <=? Z.of_nat (String.length s))
  then ret (drop_bytes (Z.to_nat low) s)
  else panic (SliceBoundsOutOfRange low (Z.of_nat (String.length s))).

(** [for i, x := range xs { acc = body(i, x, acc) }], from index [i]. *)
Fixpoint for_range_from {G A S} (i : Z) (xs : list A)
    (body : Z → A → S → GoM G S) (acc : S) : GoM G S :=
  match xs with
  | [] => ret acc
  | x :: xs' =>
      bind (body i x acc) (λ acc', for_range_from (i + 1) xs' body acc')
  end.

Definition for_range {G A S} (xs : list A)
    (body : Z → A → S → GoM G S) (acc : S) : GoM G S :=
  for_range_from 0 xs body acc.

(** [for _, x := range xs { body(x) }]. *)
Definition for_each {G A} (xs : list A) (body : A → GoM G unit) : GoM G unit :=
  for_range xs (λ _ x _, body x) tt.

Definition result {G A} (out : Result A * Σ * list G) : Result A := out.1.1.
Definition final {G A} (out : Result A * Σ * list G) : Σ := out.1.2.
Definition started {G A} (out : Result A * Σ * list G) : list G := out.2.
End Monad.

Arguments GoM Σ G A : clear implicits.

(** A goroutine that starts no goroutine of its own. *)
Definition Goroutine (Σ : Type) : Type := GoM Σ Empty_set unit.

(** A handler may start such goroutines. *)
Definition Handler (Σ A : Type) : Type := GoM Σ (Goroutine Σ) A.

End gort.

Declare Scope go_scope.
Delimit Scope go_scope with go.
Notation "'let*' x ':=' m 'in' k" := (gort.bind m (λ x, k))
  (at level 10, x name, m at level 100, k at level 200) : go_scope.
Notation "m ';;' k" := (gort.bind m (λ _, k))
  (at level 100, k at level 200, right associativity) : go_scope.

(** ** The recipe handlers of [pkg/api]

    Package [recipes] (the [Recipe] and [RecipeStep] types, their DTOs and
    the provider) and [models.ReqContext] are used by the handlers through
    the operations gathered in [Signature] and [StepActions]; the handlers
    are written against these interfaces, as in the source. *)
Module recipes.
Import gort.

Definition StatusOK : Z := 200.
Definition StatusBadRequest : Z := 400.
Definition StatusNotFound : Z := 404.

(** What [Apply] or [Revert] reports; the handlers drop it. *)
Inductive StepOutcome : Type :=
| StepDone
| StepFailed (reason : string).

Class Signature : Type := {
  ReqContext : Type;
  (** the state steps act on and DTOs are read from *)
  World : Type;
  RecipeStep : Type;
  Recipe : Type;
  RecipeDTO : Type;
  RecipeStepDTO : Type;
  (** [web.Params(c.Req)] *)
  Params : ReqContext → gmap string string;
  (** the field [recipe.Steps] *)
  Steps : Recipe → list RecipeStep;
  (** [recipe.ToDto(c)] and [step.ToDto(c)] *)
  Recipe_ToDto : Recipe → ReqContext → World → RecipeDTO;
  Step_ToDto : RecipeStep → ReqContext → World → RecipeStepDTO;
}.

(** [step.Apply(c)] and [step.Revert(c)] *)
Class StepActions `{Signature} : Type := {
  Apply : RecipeStep → ReqContext → World → World * StepOutcome;
  Revert : RecipeStep → ReqContext → World → World * StepOutcome;
}.

Section Handlers.
Context `{sig : Signature}.

(** [hs.recipeProvider] *)
Record RecipeProvider : Type := {
  GetAll : list Recipe;
  GetById : string → option Recipe;
}.

Record HTTPServer : Type := {
  recipeProvider : RecipeProvider;
}.

Inductive CallKind : Type := KApply | KRevert.

(** One call of [Apply] or [Revert], as the process performed it. *)
Record Call : Type := MkCall {
  call_kind : CallKind;
  call_step : RecipeStep;
  call_ctx : ReqContext;
  call_outcome : StepOutcome;
}.

Record Proc : Type := MkProc {
  world : World;
  calls : list Call;
}.

Inductive Body : Type :=
| BodyRecipes (dtos : list (option RecipeDTO))
| BodyRecipe (dto : RecipeDTO)
| BodyStep (dto : RecipeStepDTO).

(** [response.JSON(status, body)] and [response.Error(status, message, err)] *)
Inductive Response : Type :=
| JSON (status : Z) (body : Body)
| Error (status : Z) (message : string) (err : option string).

Definition status_of (r : Response) : Z :=
  match r with
  | JSON st _ => st
  | Error st _ _ => st
  end.

(** Indexing a Go map of strings: the zero value for a missing key. *)
Definition map_index (m : gmap string string) (k : string) : string :=
  default "" (m !! k).

Definition read {G A} (f : World → A) : GoM Proc G A :=
  λ σ, (Returned (f (world σ)), σ, []).

(** What a call was made on: the action, the step and the context. *)
Definition call_target (cl : Call) : CallKind * RecipeStep * ReqContext :=
  (call_kind cl, call_step cl, call_ctx cl).

(** The recipe the request names, if the provider has it. *)
Definition requested_recipe (hs : HTTPServer) (c : ReqContext) : option Recipe :=
  GetById (recipeProvider hs) (map_index (Params c) ":recipeId").

(** The requested step number and the error of its conversion. *)
Definition requested_step (c : ReqContext) : Z * option strconv.NumError :=
  strconv.Atoi (map_index (Params c) ":stepNumber").

Section Actions.
Context `{acts : !StepActions}.

Definition invoke {G} (kind : CallKind) (step : RecipeStep) (c : ReqContext)
    : GoM Proc G unit :=
  λ σ,
    let '(w, o) :=
      match kind with
      | KApply => Apply step c (world σ)
      | KRevert => Revert step c (world σ)
      end in
    (Returned tt,
     {| world := w; calls := calls σ ++ [MkCall kind step c o] |}, []).

Definition GetRecipeList (hs : HTTPServer) (c : ReqContext)
    : Handler Proc Response :=
  (let rs := GetAll (recipeProvider hs) in
   let dtos : list (option RecipeDTO) := replicate (length rs) None in
   let* dtos :=
     for_range rs
       (λ i r dtos,
          let* dto := read (Recipe_ToDto r c) in
          slice_set dtos i (Some dto))
       dtos in
   ret (JSON StatusOK (BodyRecipes dtos)))%go.

Definition GetRecipeByID (hs : HTTPServer) (c : ReqContext)
    : Handler Proc Response :=
  (let recipeID := map_index (Params c) ":recipeId" in
   match GetById (recipeProvider hs) recipeID with
   | None =>
       ret (Error StatusNotFound "Plugin recipe not found with the same id" None)
   | Some recipe =>
       let* dto := read (Recipe_ToDto recipe c) in
       ret (JSON StatusOK (BodyRecipe dto))
   end)%go.

Definition InstallRecipe (hs : HTTPServer) (c : ReqContext)
    : Handler Proc Response :=
  (let recipeID := map_index (Params c) ":recipeId" in
   match GetById (recipeProvider hs) recipeID with
   | None =>
       ret (Error StatusNotFound "Plugin recipe not found with the same id" None)
   | Some recipe =>
       go_ ((λ (steps : list RecipeStep) (c : ReqContext),
               for_each steps (λ step, invoke KApply step c))
              (Steps recipe) c) ;;
       let* dto := read (Recipe_ToDto recipe c) in
       ret (JSON StatusOK (BodyRecipe dto))
   end)%go.

Definition UninstallRecipe (hs : HTTPServer) (c : ReqContext)
    : Handler Proc Response :=
  (let recipeID := map_index (Params c) ":recipeId" in
   match GetById (recipeProvider hs) recipeID with
   | None =>
       ret (Error StatusNotFound "Plugin recipe not found with the same id" None)
   | Some recipe =>
       go_ ((λ (steps : list RecipeStep) (c : ReqContext),
               for_each (Steps recipe) (λ step, invoke KRevert step c))
              (Steps recipe) c) ;;
       let* dto := read (Recipe_ToDto recipe c) in
       ret (JSON StatusOK (BodyRecipe dto))
   end)%go.

Definition ApplyRecipeStep (hs : HTTPServer) (c : ReqContext)
    : Handler Proc Response :=
  (let recipeID := map_index (Params c) ":recipeId" in
   let '(stepNumber, err) := strconv.Atoi (map_index (Params c) ":stepNumber") in
   match err with
   | None =>
       ret (Error StatusBadRequest "The step number needs to be an number" None)
   | Some _ =>
       match GetById (recipeProvider hs) recipeID with
       | None =>
           ret (Error StatusNotFound "Plugin recipe not found with the same id" None)
       | Some recipe =>
           let* step := slice_index (Steps recipe) stepNumber in
           invoke KApply step c ;;
           let* dto := read (Step_ToDto step c) in
           ret (JSON StatusOK (BodyStep dto))
       end
   end)%go.

Definition RevertRecipeStep (hs : HTTPServer) (c : ReqContext)
    : Handler Proc Response :=
  (let recipeID := map_index (Params c) ":recipeId" in
   let '(stepNumber, err) := strconv.Atoi (map_index (Params c) ":stepNumber") in
   match err with
   | None =>
       ret (Error StatusBadRequest "The step number needs to be an number" None)
   | Some _ =>
       match GetById (recipeProvider hs) recipeID with
       | None =>
           ret (Error StatusNotFound "Plugin recipe not found with the same id" None)
       | Some recipe =>
           let* step := slice_index (Steps recipe) stepNumber in
           invoke KRevert step c ;;
           let* dto := read (Step_ToDto step c) in
           ret (JSON StatusOK (BodyStep dto))
       end
   end)%go.

(** Running a started goroutine to its end, from process state [σ]. *)
Definition run_goroutine (g : Goroutine Proc) (σ : Proc) : Proc := final (g σ).

(** The calls a goroutine adds when it runs from [σ]. *)
Definition calls_added (g : Goroutine Proc) (σ : Proc) : list Call :=
  drop (length (calls σ)) (calls (run_goroutine g σ)).

(** [step.Apply(c)] or [step.Revert(c)], by the kind of the call. *)
Definition action (kind : CallKind)
    : RecipeStep → ReqContext → World → World * StepOutcome :=
  match kind with
  | KApply => Apply
  | KRevert => Revert
  end.

(** The world that the actions of [kind] on [steps] leave, each one
    acting on the world the one before it left, whatever that one
    reported. *)
Fixpoint world_after (kind : CallKind) (c : ReqContext) (steps : list RecipeStep)
    (w : World) : World :=
  match steps with
  | [] => w
  | step :: rest => world_after kind c rest (action kind step c w).1
  end.

(** The calls these actions are, with what each of them reports. *)
Fixpoint trace (kind : CallKind) (c : ReqContext) (steps : list RecipeStep)
    (w : World) : list Call :=
  match steps with
  | [] => []
  | step :: rest =>
      MkCall kind step c (action kind step c w).2
      :: trace kind c rest (action kind step c w).1
  end.

(** The process once the actions of [kind] on [steps] are performed, one
    after the other. *)
Definition performed (kind : CallKind) (c : ReqContext) (steps : list RecipeStep)
    (σ : Proc) : Proc :=
  {| world := world_after kind c steps (world σ);
     calls := calls σ ++ trace kind c steps (world σ) |}.

(** The goroutine that [UninstallRecipe] starts reverts the steps of
    [recipe] last to first. *)
Definition reverts_in_descending_order (hs : HTTPServer) (c : ReqContext)
    (σ : Proc) (recipe : Recipe) : Prop :=
  ∃ g, started (UninstallRecipe hs c σ) = [g]
     ∧ map call_target (calls_added g σ)
       = map (λ step, (KRevert, step, c)) (rev (Steps recipe)).
End Actions.
End Handlers.

Arguments RecipeProvider sig : clear implicits.
Arguments HTTPServer sig : clear implicits.
Arguments Proc sig : clear implicits.
Arguments Call sig : clear implicits.
Arguments Response sig : clear implicits.
Arguments Body sig : clear implicits.

End recipes.

(** * The handler and its goroutine, interleaved

    After [go] the goroutine runs concurrently with the rest of the
    handler.  A thread is given here action by action, so that a scheduler
    can switch between threads after each of them.  An atomic action is a
    computation of [gort] that starts no goroutine: the calls
    [step.Apply(c)], [step.Revert(c)] and [recipe.ToDto(c)], whose code
    is behind the interfaces, are one action each. *)
Module concurrent.
Import gort.

Section Threads.
Context {Σ : Type}.

(** What a thread does next: it has ended, with a value or in a panic, or
    it makes an atomic action on the process state, or it executes [go]. *)
Inductive Thread (G A : Type) : Type :=
| Exit (r : Result A)
| Atomic {B : Type} (m : GoM Σ Empty_set B) (k : B → Thread G A)
| Go (g : G) (k : Thread G A).
Arguments Exit {G A} r.
Arguments Atomic {G A B} m k.
Arguments Go {G A} g k.

Definition ret {G A} (a : A) : Thread G A := Exit (Returned a).

Definition atomic {G B} (m : GoM Σ Empty_set B) : Thread G B :=
  Atomic m (λ b, Exit (Returned b)).

(** The statement [go f(args)]. *)
Definition go_ {G} (g : G) : Thread G unit := Go g (Exit (Returned tt)).

Fixpoint bind {G A B} (t : Thread G A) (k : A → Thread G B) : Thread G B :=
  match t with
  | Exit (Returned a) => k a
  | Exit (Panicked p) => Exit (Panicked p)
  | Atomic m k' => Atomic m (λ b, bind (k' b) k)
  | Go g t' => Go g (bind t' k)
  end.

(** [for _, x := range xs { body(x) }]. *)
Fixpoint for_each {G A} (xs : list A) (body : A → Thread G unit) : Thread G unit :=
  match xs with
  | [] => ret tt
  | x :: xs' => bind (body x) (λ _, for_each xs' body)
  end.

(** One turn of a thread: the state and the thread after its next action,
    and the goroutine it has started, if the action was [go]. *)
Definition turn {G A} (t : Thread G A) (σ : Σ) : Σ * Thread G A * option G :=
  match t with
  | Exit r => (σ, Exit r, None)
  | Atomic m k =>
      match m σ with
      | (Returned b, σ', _) => (σ', k b, None)
      | (Panicked p, σ', _) => (σ', Exit (Panicked p), None)
      end
  | Go g k => (σ, k, Some g)
  end.

(** The thread run to its end without interruption: the computation of
    [gort] it is when no other thread acts meanwhile. *)
Fixpoint alone {G A} (t : Thread G A) : GoM Σ G A :=
  match t with
  | Exit r => λ σ, (r, σ, [])
  | Atomic m k =>
      λ σ,
        match m σ with
        | (Returned b, σ', _) => alone (k b) σ'
        | (Panicked p, σ', _) => (Panicked p, σ', [])
        end
  | Go g k => gort.bind (gort.go_ g) (λ _, alone k)
  end.

(** A goroutine that starts no goroutine of its own, and a handler, which
    may start such goroutines. *)
Definition Goroutine : Type := Thread Empty_set unit.
Definition Handler (A : Type) : Type := Thread Goroutine A.

(** A request being served: the process state, the thread of the handler
    and the goroutines started so far. *)
Record Config (A : Type) : Type := MkConfig {
  shared : Σ;
  handler : Handler A;
  goroutines : list Goroutine;
}.
Arguments MkConfig {A} shared handler goroutines.
Arguments shared {A} c.
Arguments handler {A} c.
Arguments goroutines {A} c.

(** The thread the scheduler gives the next turn to. *)
Inductive Choice : Type :=
| OfHandler
| OfGoroutine (i : nat).

Definition step {A} (cfg : Config A) (choice : Choice) : Config A :=
  match choice with
  | OfHandler =>
      let '(σ, t, g) := turn (handler cfg) (shared cfg) in
      {| shared := σ; handler := t;
         goroutines := goroutines cfg ++ option_list g |}
  | OfGoroutine i =>
      match goroutines cfg !! i with
      | Some t =>
          let '(σ, t', _) := turn t (shared cfg) in
          {| shared := σ; handler := handler cfg;
             goroutines := <[i := t']> (goroutines cfg) |}
      | None => cfg
      end
  end.

(** The request under a schedule, the list of the scheduler's choices. *)
Definition run {A} (schedule : list Choice) (cfg : Config A) : Config A :=
  foldl step cfg schedule.

Definition start {A} (t : Handler A) (σ : Σ) : Config A :=
  {| shared := σ; handler := t; goroutines := [] |}.

(** What the handler has returned, once it has. *)
Definition response {A} (cfg : Config A) : option (Result A) :=
  match handler cfg with
  | Exit r => Some r
  | _ => None
  end.

(** Every goroutine has run to its end. *)
Definition quiet {A} (cfg : Config A) : Prop :=
  Forall (λ t, t = Exit (Returned tt)) (goroutines cfg).

(** The number of turns the handler is given. *)
Fixpoint handler_turns (schedule : list Choice) : nat :=
  match schedule with
  | [] => 0
  | OfHandler :: rest => S (handler_turns rest)
  | OfGoroutine _ :: rest => handler_turns rest
  end.
End Threads.

Arguments Thread Σ G A : clear implicits.
Arguments Exit {Σ G A} r.
Arguments Atomic {Σ G A B} m k.
Arguments Go {Σ G A} g k.
Arguments Goroutine Σ : clear implicits.
Arguments Handler Σ A : clear implicits.
Arguments Config Σ A : clear implicits.
Arguments MkConfig {Σ A} shared handler goroutines.
Arguments shared {Σ A} c.
Arguments handler {Σ A} c.
Arguments goroutines {Σ A} c.

End concurrent.

Declare Scope thread_scope.
Delimit Scope thread_scope with thread.
Notation "'let*' x ':=' m 'in' k" := (concurrent.bind m (λ x, k))
  (at level 10, x name, m at level 100, k at level 200) : thread_scope.
Notation "m ';;' k" := (concurrent.bind m (λ _, k))
  (at level 100, k at level 200, right associativity) : thread_scope.

(** ** The whole-recipe handlers as threads *)
Module racing.
Import gort recipes.

Section Handlers.
Context `{sig : Signature} `{acts : !StepActions}.

Definition InstallRecipe (hs : HTTPServer sig) (c : ReqContext)
    : concurrent.Handler (Proc sig) (Response sig) :=
  (let recipeID := map_index (Params c) ":recipeId" in
   match GetById (recipeProvider hs) recipeID with
   | None =>
       concurrent.ret
         (Error StatusNotFound "Plugin recipe not found with the same id" None)
   | Some recipe =>
       concurrent.go_
         ((λ (steps : list RecipeStep) (c : ReqContext),
             concurrent.for_each steps
               (λ step, concurrent.atomic (invoke KApply step c)))
            (Steps recipe) c) ;;
       let* dto := concurrent.atomic (read (Recipe_ToDto recipe c)) in
       concurrent.ret (JSON StatusOK (BodyRecipe dto))
   end)%thread.

Definition UninstallRecipe (hs : HTTPServer sig) (c : ReqContext)
    : concurrent.Handler (Proc sig) (Response sig) :=
  (let recipeID := map_index (Params c) ":recipeId" in
   match GetById (recipeProvider hs) recipeID with
   | None =>
       concurrent.ret
         (Error StatusNotFound "Plugin recipe not found with the same id" None)
   | Some recipe =>
       concurrent.go_
         ((λ (steps : list RecipeStep) (c : ReqContext),
             concurrent.for_each (Steps recipe)
               (λ step, concurrent.atomic (invoke KRevert step c)))
            (Steps recipe) c) ;;
       let* dto := concurrent.atomic (read (Recipe_ToDto recipe c)) in
       concurrent.ret (JSON StatusOK (BodyRecipe dto))
   end)%thread.

(** The loop of the goroutine over the steps it has still to do. *)
Definition loop (kind : CallKind) (c : ReqContext) (steps : list RecipeStep)
    : concurrent.Goroutine (Proc sig) :=
  concurrent.for_each steps (λ step, concurrent.atomic (invoke kind step c)).

(** The handler after [go]: [recipe.ToDto(c)] and the return. *)
Definition respond (recipe : Recipe) (c : ReqContext)
    : concurrent.Handler (Proc sig) (Response sig) :=
  concurrent.Atomic (read (Recipe_ToDto recipe c))
    (λ dto, concurrent.Exit (Returned (JSON StatusOK (BodyRecipe dto)))).

(** The response 200 with the DTO that [ToDto] reads in [σ]. *)
Definition ok_in (recipe : Recipe) (c : ReqContext) (σ : Proc sig)
    : Result (Response sig) :=
  Returned (JSON StatusOK (BodyRecipe (Recipe_ToDto recipe c (world σ)))).

(** The request for a registered recipe, called in [σ]: as it starts,
    when the goroutine has made [j] calls and the handler has not read
    yet, and when the handler has returned what it read after [i] calls. *)
Definition called (kind : CallKind) (recipe : Recipe) (c : ReqContext)
    (σ : Proc sig) : concurrent.Config (Proc sig) (Response sig) :=
  concurrent.start (concurrent.Go (loop kind c (Steps recipe)) (respond recipe c)) σ.

Definition reading (kind : CallKind) (recipe : Recipe) (c : ReqContext)
    (σ : Proc sig) (j : nat) : concurrent.Config (Proc sig) (Response sig) :=
  {| concurrent.shared := performed kind c (take j (Steps recipe)) σ;
     concurrent.handler := respond recipe c;
     concurrent.goroutines := [loop kind c (drop j (Steps recipe))] |}.

Definition replied (kind : CallKind) (recipe : Recipe) (c : ReqContext)
    (σ : Proc sig) (i j : nat) : concurrent.Config (Proc sig) (Response sig) :=
  {| concurrent.shared := performed kind c (take j (Steps recipe)) σ;
     concurrent.handler :=
       concurrent.Exit (ok_in recipe c (performed kind c (take i (Steps recipe)) σ));
     concurrent.goroutines := [loop kind c (drop j (Steps recipe))] |}.

(** Where the request is after [h] turns of the handler. *)
Inductive Phase (kind : CallKind) (recipe : Recipe) (c : ReqContext) (σ : Proc sig)
    : nat → concurrent.Config (Proc sig) (Response sig) → Prop :=
| before_go : Phase kind recipe c σ 0 (called kind recipe c σ)
| before_read (j : nat) :
    (j ≤ length (Steps recipe))%nat →
    Phase kind recipe c σ 1 (reading kind recipe c σ j)
| after_read (h i j : nat) :
    (2 ≤ h)%nat → (i ≤ j)%nat → (j ≤ length (Steps recipe))%nat →
    Phase kind recipe c σ h (replied kind recipe c σ i j).
End Handlers.

(** The response does not depend on what the steps do: under one and the
    same schedule, a request gets the same response with any two
    implementations of the steps' actions. *)
Definition response_ignores_steps `{sig : Signature}
    (program : StepActions → HTTPServer sig → ReqContext
               → concurrent.Handler (Proc sig) (Response sig))
    (hs : HTTPServer sig) (c : ReqContext) (σ : Proc sig) : Prop :=
  ∀ (acts1 acts2 : StepActions) (schedule : list concurrent.Choice),
    concurrent.response
      (concurrent.run schedule (concurrent.start (program acts1 hs c) σ))
    = concurrent.response
        (concurrent.run schedule (concurrent.start (program acts2 hs c) σ)).

End racing.

(** ** A concrete recipe registry

    Steps are named; the world is the list of the steps in force, and the
    step ["broken"] can never be applied.  The registry holds the recipe
    ["enable-foo"] of the specification's scenario, a recipe whose first
    step fails, and a recipe without steps. *)
Module demo.
Import gort recipes.

Definition apply_named (step : string) (w : list string) : list string * StepOutcome :=
  if String.eqb step "broken" then (w, StepFailed "cannot be applied")
  else (w ++ [step], StepDone).

Definition revert_named (step : string) (w : list string) : list string * StepOutcome :=
  if bool_decide (step ∈ w) then (filter (λ x, x ≠ step) w, StepDone)
  else (w, StepFailed "was not applied").

#[export] Instance sig : Signature := {|
  ReqContext := list (string * string);
  World := list string;
  RecipeStep := string;
  Recipe := string * list string;
  RecipeDTO := string * list (string * bool);
  RecipeStepDTO := string * bool;
  Params := list_to_map;
  Steps := snd;
  Recipe_ToDto := λ r _ w, (r.1, map (λ s, (s, bool_decide (s ∈ w))) r.2);
  Step_ToDto := λ s _ w, (s, bool_decide (s ∈ w));
|}.

#[export] Instance acts : StepActions := {|
  Apply := λ step _ w, apply_named step w;
  Revert := λ step _ w, revert_named step w;
|}.

(** Actions that fail at every step. *)
Definition failing : StepActions := {|
  Apply := λ step _ w, (w, StepFailed "refused");
  Revert := λ step _ w, (w, StepFailed "refused");
|}.

Definition enable_foo : string * list string :=
  ("enable-foo", ["install-foo"; "enable-foo-ui"]).
Definition fragile : string * list string :=
  ("fragile", ["broken"; "after-broken"]).

Definition registry : list (string * list string) :=
  [ enable_foo; fragile; ("empty", []) ].

Definition provider : RecipeProvider sig := {|
  GetAll := registry;
  GetById := λ id, List.find (λ r, String.eqb r.1 id) registry;
|}.

Definition hs : HTTPServer sig := {| recipeProvider := provider |}.

(** The request context of a route [/recipes/:recipeId]. *)
Definition req (recipeId : string) : list (string * string) :=
  [ (":recipeId", recipeId) ].

(** The request context of a route [/recipes/:recipeId/steps/:stepNumber]. *)
Definition step_req (recipeId stepNumber : string) : list (string * string) :=
  [ (":recipeId", recipeId); (":stepNumber", stepNumber) ].

Definition boot : Proc sig := {| world := []; calls := [] |}.

End demo.

(** ** [renderDashboard]

    [strings.Index] is the Go standard library's: the index of the first
    instance of [substr] in [s], or -1.  The render service and the
    server's configuration are fields of the server. *)
Module gostrings.

Definition HasPrefix (s prefix : string) : bool := String.prefix prefix s.

Fixpoint Index_from (i : Z) (s substr : string) : Z :=
  if HasPrefix s substr then i
  else match s with
       | EmptyString => -1
       | String _ rest => Index_from (i + 1) rest substr
       end.

Definition Index (s substr : string) : Z := Index_from 0 s substr.

(** [substr] occurs in [s]. *)
Definition Contains (s substr : string) : Prop :=
  ∃ before after : string, s = before +:+ substr +:+ after.

End gostrings.

Module rendering.
Import gort.

(** [time.Second], in nanoseconds. *)
Definition Second : Z := 1000000000.
Definition RoleAdmin : string := "Admin".
Definition ThemeDark : string := "dark".

Record TimeoutOpts : Type := { Timeout : Z }.

Record AuthOpts : Type := {
  OrgID : Z;
  UserID : Z;
  OrgRole : string;
}.

Record Opts : Type := {
  timeoutOpts : TimeoutOpts;
  authOpts : AuthOpts;
  Width : Z;
  Height : Z;
  Path : string;
  Timezone : string;
  Encoding : string;
  ConcurrentLimit : Z;
  DeviceScaleFactor : Z;
  Theme : string;
}.

Record RenderResult : Type := { FilePath : string }.

Section RenderDashboard.
(** the errors of the render service *)
Context {RenderError : Type}.

Inductive error : Type :=
| Errorf (message : string)
| FromRender (e : RenderError).

Record HTTPServer : Type := {
  RenderService_Render : Opts → RenderResult * option RenderError;
  Cfg_RendererConcurrentRequestLimit : Z;
}.

(** What the process did: the lines printed and the render requests. *)
Record Proc : Type := MkProc {
  stdout : list string;
  rendered : list Opts;
}.

Definition Println (line : string) : GoM Proc Empty_set unit :=
  modify (λ σ, {| stdout := stdout σ ++ [line]; rendered := rendered σ |}).

Definition Render (hs : HTTPServer) (opts : Opts)
    : GoM Proc Empty_set (RenderResult * option RenderError) :=
  (modify (λ σ, {| stdout := stdout σ; rendered := rendered σ ++ [opts] |}) ;;
   ret (RenderService_Render hs opts))%go.

Definition renderDashboard (hs : HTTPServer) (dashboardURL : string)
    : GoM Proc Empty_set (string * option error) :=
  (let index := gostrings.Index dashboardURL "/d/" in
   if negb (index =? -1) then
     let* renderPath := slice_from dashboardURL (index + 1) in
     Println renderPath ;;
     let* out :=
       Render hs
         {| timeoutOpts := {| Timeout := 60 * Second |};
            authOpts := {| OrgID := 1; UserID := 0; OrgRole := RoleAdmin |};
            Width := 1600;
            Height := 800;
            Path := renderPath;
            Timezone := "";
            Encoding := "";
            ConcurrentLimit := Cfg_RendererConcurrentRequestLimit hs;
            DeviceScaleFactor := 1;
            Theme := ThemeDark |} in
     match out.2 with
     | Some err => ret ("", Some (FromRender err))
     | None => ret (FilePath out.1, None)
     end
   else ret ("", Some (Errorf "Invalid dashboard url")))%go.
(** The options [renderDashboard] passes to the render service. *)
Definition dashboard_opts (hs : HTTPServer) (path : string) : Opts :=
  {| timeoutOpts := {| Timeout := 60 * Second |};
     authOpts := {| OrgID := 1; UserID := 0; OrgRole := RoleAdmin |};
     Width := 1600; Height := 800; Path := path;
     Timezone := ""; Encoding := "";
     ConcurrentLimit := Cfg_RendererConcurrentRequestLimit hs;
     DeviceScaleFactor := 1; Theme := ThemeDark |}.
End RenderDashboard.

Arguments error RenderError : clear implicits.
Arguments HTTPServer RenderError : clear implicits.

End rendering.

(** ** [SceneItemBase]

    Scene items, arrays and plain objects live on a heap and are referred
    to by location; the state object of an item is kept with the item, as
    the map from its own property names to their values.  A computation
    either completes or throws.  The subject of an item keeps the values
    emitted so far (a [ReplaySubject] without bounds) and, for every
    subscriber, what it has received. *)
Module scene.

Definition loc : Type := positive.
Bind Scope positive_scope with loc.

Inductive Value : Type :=
| VUndefined
| VNull
| VBool (b : bool)
| VNumber (n : Z)
| VString (s : string)
| VRef (l : loc).

Definition State : Type := gmap string Value.

Record ReplaySubject : Type := MkSubject {
  buffer : list (gmap string Value);
  inboxes : list (list (gmap string Value));
}.

Record SceneItem : Type := MkItem {
  subject : ReplaySubject;
  state : gmap string Value;
  parent : option loc;
}.

Inductive Obj : Type :=
| OItem (item : SceneItem)
(** an array ([elems] is [Some]) or a plain object, with its properties *)
| OOther (elems : option (list Value)) (props : gmap string Value).

Inductive Exn : Type :=
| TypeError (message : string).

Inductive Completion (A : Type) : Type :=
| Normal (a : A)
| Throw (e : Exn).
Arguments Normal {A} a.
Arguments Throw {A} e.

Definition JS (A : Type) : Type := gmap loc Obj → Completion A * gmap loc Obj.

Definition ret {A} (a : A) : JS A := λ h, (Normal a, h).
Definition throw {A} (e : Exn) : JS A := λ h, (Throw e, h).
Definition bind {A B} (m : JS A) (k : A → JS B) : JS B :=
  λ h, match m h with
       | (Normal a, h') => k a h'
       | (Throw e, h') => (Throw e, h')
       end.

Declare Scope js_scope.
Delimit Scope js_scope with js.
Notation "'let*' x ':=' m 'in' k" := (bind m (λ x, k))
  (at level 10, x name, m at level 100, k at level 200) : js_scope.
Notation "m ';;' k" := (bind m (λ _, k))
  (at level 100, k at level 200, right associativity) : js_scope.

(** [subject.next(value)]: the value joins the buffer and reaches every
    subscriber. *)
Definition next (s : ReplaySubject) (value : gmap string Value) : ReplaySubject :=
  {| buffer := buffer s ++ [value];
     inboxes := map (λ inbox, inbox ++ [value]) (inboxes s) |}.

(** [subject.subscribe(observer)]: the new subscriber is replayed the
    buffer. *)
Definition subject_subscribe (s : ReplaySubject) : ReplaySubject :=
  {| buffer := buffer s; inboxes := inboxes s ++ [buffer s] |}.

Definition truthy (v : Value) : bool :=
  match v with
  | VUndefined | VNull => false
  | VBool b => b
  | VNumber n => negb (n =? 0)
  | VString s => negb (String.eqb s "")
  | VRef _ => true
  end.

(** [v instanceof SceneItemBase] *)
Definition instanceof_SceneItemBase (h : gmap loc Obj) (v : Value) : bool :=
  match v with
  | VRef l => match h !! l with Some (OItem _) => true | _ => false end
  | _ => false
  end.

(** [target.parent = this], in strict mode. *)
Definition assign_parent (target : Value) (this : loc) : JS unit :=
  λ h,
    match target with
    | VRef l =>
        match h !! l with
        | Some (OItem it) =>
            (Normal tt,
             <[l := OItem {| subject := subject it; state := state it;
                             parent := Some this |}]> h)
        | Some (OOther elems props) =>
            (Normal tt, <[l := OOther elems (<["parent" := VRef this]> props)]> h)
        | None => (Normal tt, h)
        end
    | VUndefined | VNull =>
        (Throw (TypeError "Cannot set properties of undefined or null"), h)
    | VBool _ | VNumber _ | VString _ =>
        (Throw (TypeError "Cannot create property 'parent' on a primitive"), h)
    end.

(** The values a [for ... of] loop draws from [v]. *)
Definition iterate (v : Value) : JS (list Value) :=
  λ h,
    match v with
    | VRef l =>
        match h !! l with
        | Some (OOther (Some elems) _) => (Normal elems, h)
        | _ => (Throw (TypeError "children is not iterable"), h)
        end
    | VString s =>
        (Normal (map (λ ch, VString (String ch "")) (list_ascii_of_string s)), h)
    | _ => (Throw (TypeError "children is not iterable"), h)
    end.

Fixpoint for_of {A} (xs : list A) (body : A → JS unit) : JS unit :=
  match xs with
  | [] => ret tt
  | x :: xs' => bind (body x) (λ _, for_of xs' body)
  end.

Definition get_item (this : loc) : JS SceneItem :=
  λ h, match h !! this with
       | Some (OItem it) => (Normal it, h)
       | _ => (Throw (TypeError "this is not a scene item"), h)
       end.

Definition put_item (this : loc) (it : SceneItem) : JS unit :=
  λ h, (Normal tt, <[this := OItem it]> h).

Definition instanceof (v : Value) : JS bool :=
  λ h, (Normal (instanceof_SceneItemBase h v), h).

(** [Object.values(o)] *)
Definition Object_values (o : gmap string Value) : list Value :=
  (map_to_list o).*2.

Definition setParent (this : loc) : JS unit :=
  (let* it := get_item this in
   for_of (Object_values (state it))
     (λ propValue,
        let* is_item := instanceof propValue in
        if is_item then assign_parent propValue this else ret tt) ;;
   let* it := get_item this in
   let children := default VUndefined (state it !! "children") in
   if truthy children then
     let* elems := iterate children in
     for_of elems (λ child, assign_parent child this)
   else ret tt)%js.

(** [subscribe(observer)] *)
Definition subscribe (this : loc) : JS unit :=
  (let* it := get_item this in
   put_item this {| subject := subject_subscribe (subject it);
                    state := state it; parent := parent it |})%js.

(** [setState(state)]: the spread [{...this.state, ...state}] keeps the
    properties of [this.state] that [state] does not have. *)
Definition setState (this : loc) (new_state : gmap string Value) : JS unit :=
  (let* it := get_item this in
   put_item this {| subject := subject it;
                    state := new_state ∪ state it;
                    parent := parent it |} ;;
   setParent this ;;
   let* it := get_item this in
   put_item this {| subject := next (subject it) (state it);
                    state := state it; parent := parent it |})%js.

(** [new Item(state)] at the fresh location [this]. *)
Definition construct (this : loc) (initial : gmap string Value) : JS unit :=
  (put_item this {| subject := next (MkSubject [] []) initial;
                    state := initial; parent := None |} ;;
   setParent this)%js.

(** The state of the item at [l], what its subject has emitted and what
    its subscribers have received. *)
Definition item_at (h : gmap loc Obj) (l : loc) : option SceneItem :=
  match h !! l with
  | Some (OItem it) => Some it
  | _ => None
  end.

(** The [children] of a state are well formed when the property is
    falsy or an array of objects, which is what [setParent] takes it
    for. *)
Definition children_well_formed (h : gmap loc Obj) (st : gmap string Value) : bool :=
  let children := default VUndefined (st !! "children") in
  if truthy children then
    match children with
    | VRef l =>
        match h !! l with
        | Some (OOther (Some elems) _) =>
            forallb (λ child, match child with VRef _ => true | _ => false end) elems
        | _ => false
        end
    | _ => false
    end
  else true.

(** What [setParent] leaves alone in an object: the state and the subject
    of an item, the elements of an array. *)
Definition view (o : Obj) : (gmap string Value * ReplaySubject) + option (list Value) :=
  match o with
  | OItem it => inl (state it, subject it)
  | OOther elems _ => inr elems
  end.

Definition same_view (h h' : gmap loc Obj) : Prop :=
  ∀ l : loc, view <$> (h !! l) = view <$> (h' !! l).

(** Claim C9 as the specification words it, at one call of [setState]:
    the call completes, the item's state is the merge and the merge is
    the last value the subject emitted. *)
Definition setState_emits_merge (h : gmap loc Obj) (this : loc)
    (new_state : gmap string Value) : Prop :=
  ∀ it, item_at h this = Some it →
    ∃ h' it',
      setState this new_state h = (Normal tt, h')
      ∧ item_at h' this = Some it'
      ∧ state it' = new_state ∪ state it
      ∧ buffer (subject it') = buffer (subject it) ++ [new_state ∪ state it].

End scene.

(** ** A concrete scene and a concrete render service *)
Module scene_demo.
Import scene.

(** The state a panel is constructed with. *)
Definition panel_state : gmap string Value :=
  {[ "title" := VString "cpu"; "size" := VNumber 3 ]}.

(** The arrays [[undefined]] at location 2 and [[row]] at location 3,
    [row] being the item constructed at location 4. *)
Definition arrays : gmap loc Obj :=
  {[ 2%positive := OOther (Some [VUndefined]) ∅;
     3%positive := OOther (Some [VRef 4]) ∅ ]}.

(** The heap once [row] and the panel, at location 1, are constructed
    and the panel has one subscriber. *)
Definition heap : gmap loc Obj :=
  ((construct 4 ∅ ;; construct 1 panel_state ;; subscribe 1)%js arrays).2.

Definition panel : SceneItem :=
  {| subject := {| buffer := [panel_state]; inboxes := [[panel_state]] |};
     state := panel_state;
     parent := None |}.

(** [{ children: [undefined] }] *)
Definition undefined_child : gmap string Value := {[ "children" := VRef 2 ]}.

(** [{ size: 5, children: [row] }] *)
Definition resize_with_row : gmap string Value :=
  {[ "size" := VNumber 5; "children" := VRef 3 ]}.

End scene_demo.

Module render_demo.
Import rendering.

(** A render service that files every image under its path. *)
Definition hs : HTTPServer string :=
  {| RenderService_Render := λ opts, ({| FilePath := "/img/" +:+ Path opts |}, None);
     Cfg_RendererConcurrentRequestLimit := 30 |}.

Definition boot : Proc := {| stdout := []; rendered := [] |}.

(** The URL [RenderAndPostToSlack] renders. *)
Definition rawURL : string :=
  "http://localhost:3000/render/d/RvNCUVm4z/dashboard-with-expressions?orgId=1&from=1704891104021&to=1704912704021&width=1000&height=500&tz=America%2FBuenos_Aires".

End render_demo.

From Stdlib Require Import Sorting.Sorted.

(** ** More of [SceneItemBase]: the scene graph

    [getTimeRange] and [getData] walk up the parent links, one nested
    call per link.  [fuel] is the number of calls the call stack has room
    for: a walk that needs more, as every walk round a cycle of parents
    does, ends in the [RangeError] of the engine. *)
Module scene_graph.
Import scene.

(** The outcome of a walk: the value returned, the [Error] the method
    throws, or [Overflow], the [RangeError] of the engine when the calls
    the walk nests exhaust the call stack.  The walks take the number of
    calls the stack has room for; [None] is a walk that leaves the scene
    items, where there is no method to call. *)
Inductive Lookup : Type :=
| Found (v : Value)
| Raised (message : string)
| Overflow.

Fixpoint getTimeRange (fuel : nat) (h : gmap loc Obj) (this : loc) : option Lookup :=
  match fuel with
  | O => Some Overflow
  | S fuel' =>
      match item_at h this with
      | None => None
      | Some it =>
          let timeRange := default VUndefined (state it !! "$timeRange") in
          if truthy timeRange then Some (Found timeRange)
          else match parent it with
               | Some p => getTimeRange fuel' h p
               | None => Some (Raised "No time range found in scene tree")
               end
      end
  end.

Fixpoint getData (fuel : nat) (h : gmap loc Obj) (this : loc) : option Lookup :=
  match fuel with
  | O => Some Overflow
  | S fuel' =>
      match item_at h this with
      | None => None
      | Some it =>
          let data := default VUndefined (state it !! "$data") in
          if truthy data then Some (Found data)
          else match parent it with
               | Some p => getData fuel' h p
               | None => Some (Raised "No data found in scene tree")
               end
      end
  end.

(** The walk both methods make, for the property [key] and the message
    [message] of the error. *)
Fixpoint closest (key message : string) (fuel : nat) (h : gmap loc Obj) (this : loc)
    : option Lookup :=
  match fuel with
  | O => Some Overflow
  | S fuel' =>
      match item_at h this with
      | None => None
      | Some it =>
          let found := default VUndefined (state it !! key) in
          if truthy found then Some (Found found)
          else match parent it with
               | Some p => closest key message fuel' h p
               | None => Some (Raised message)
               end
      end
  end.

(** The value of property [key] in the state of the item at [l]. *)
Definition prop_at (h : gmap loc Obj) (key : string) (l : loc) : option Value :=
  it ← item_at h l; Some (default VUndefined (state it !! key)).

(** [climbs h key n l top]: [n] parent links lead from [l] up to [top],
    through items whose property [key] is falsy. *)
Inductive climbs (h : gmap loc Obj) (key : string) : nat → loc → loc → Prop :=
| climbs_here (l : loc) : climbs h key 0 l l
| climbs_up (n : nat) (l p top : loc) (it : SceneItem) :
    item_at h l = Some it →
    truthy (default VUndefined (state it !! key)) = false →
    parent it = Some p →
    climbs h key n p top →
    climbs h key (S n) l top.

(** A computation keeps every state, every subject and the elements of
    every array. *)
Definition preserves {A} (m : JS A) : Prop := ∀ h, same_view h (m h).2.

Definition is_item (h : gmap loc Obj) (l : loc) : Prop := is_Some (item_at h l).

(** The item at [l] has [this] for parent. *)
Definition adopted (h : gmap loc Obj) (this l : loc) : Prop :=
  ∃ it, item_at h l = Some it ∧ parent it = Some this.

(** The subject of an item is in step with it: the last value emitted is
    the state, and every subscriber has received the emitted values from
    some point on. *)
Definition in_step (it : SceneItem) : Prop :=
  last (buffer (subject it)) = Some (state it)
  ∧ Forall (λ inbox, inbox `suffix_of` buffer (subject it)) (inboxes (subject it)).

(** The elements of the array that the [children] of a state refer to. *)
Definition children_of (h : gmap loc Obj) (st : gmap string Value) : list Value :=
  match default VUndefined (st !! "children") with
  | VRef l =>
      match h !! l with
      | Some (OOther (Some elems) _) => elems
      | _ => []
      end
  | _ => []
  end.

(** [m] maintains the property [P] of heaps. *)
Definition maintains {A} (P : gmap loc Obj → Prop) (m : JS A) : Prop :=
  ∀ h, P h → P (m h).2.

(** [setState] in one piece: the heap [setParent] runs on, and what is
    done with its outcome. *)
Definition with_state (h : gmap loc Obj) (this : loc) (it : SceneItem)
    (st : gmap string Value) : gmap loc Obj :=
  <[this := OItem {| subject := subject it; state := st; parent := parent it |}]> h.

Definition emitted (h : gmap loc Obj) (this : loc) (it : SceneItem) : gmap loc Obj :=
  <[this := OItem {| subject := next (subject it) (state it);
                     state := state it; parent := parent it |}]> h.

End scene_graph.

Module scene_demo_more.
Import scene.

(** [{ $timeRange: 'now-6h', body: row }] *)
Definition scoped_body : gmap string Value :=
  {[ "$timeRange" := VString "now-6h"; "body" := VRef 4 ]}.

(** [{ size: 3 }], the size the panel has, and [{ size: 7 }] *)
Definition same_size : gmap string Value := {[ "size" := VNumber 3 ]}.
Definition bigger : gmap string Value := {[ "size" := VNumber 7 ]}.

(** [{ self: panel }], the panel being the item at location 1 *)
Definition self_reference : gmap string Value := {[ "self" := VRef 1 ]}.

End scene_demo_more.

(** ** The other handlers of the render API

    [RenderAndPostToSlack] renders a fixed dashboard and posts the image;
    [sendUnfurlEvent] is a method of the server defined elsewhere and is
    taken with the server. *)
Module slack.
Import gort rendering.

Definition StatusOK : Z := 200.
Definition StatusInternalServerError : Z := 500.

Section Unfurl.
Context {RenderError SlackError : Type}.

(** The zero value [EventPayload{}] is the only payload the handler sends. *)
Inductive EventPayload : Type := EventPayload_zero.

Record HTTPServer : Type := {
  server : rendering.HTTPServer RenderError;
  sendUnfurl : EventPayload → string → option SlackError;
}.

Inductive cause : Type :=
| RenderingError (err : rendering.error RenderError)
| SlackFailure (err : SlackError).

(** [response.Error(status, message, err)] and [response.Empty(status)] *)
Inductive Response : Type :=
| Error (status : Z) (message : string) (err : cause)
| Empty (status : Z).

(** The process of [renderDashboard], and the images posted to Slack. *)
Record Proc : Type := MkProc {
  rendering_proc : rendering.Proc;
  posted : list (EventPayload * string);
}.

(** A call of a method that acts on the rendering part only. *)
Definition on_rendering {A} (m : GoM rendering.Proc Empty_set A) : GoM Proc Empty_set A :=
  λ σ, let '(r, ρ, gs) := m (rendering_proc σ) in
       (r, {| rendering_proc := ρ; posted := posted σ |}, gs).

Definition sendUnfurlEvent (hs : HTTPServer) (payload : EventPayload) (imagePath : string)
    : GoM Proc Empty_set (option SlackError) :=
  (modify (λ σ, {| rendering_proc := rendering_proc σ;
                   posted := posted σ ++ [(payload, imagePath)] |}) ;;
   ret (sendUnfurl hs payload imagePath))%go.

Definition rawURL : string :=
  "http://localhost:3000/render/d/RvNCUVm4z/dashboard-with-expressions?orgId=1&from=1704891104021&to=1704912704021&width=1000&height=500&tz=America%2FBuenos_Aires".

Definition RenderAndPostToSlack (hs : HTTPServer) : GoM Proc Empty_set Response :=
  (let* out := on_rendering (renderDashboard (server hs) rawURL) in
   match out.2 with
   | Some err =>
       ret (Error StatusInternalServerError "Rendering failed" (RenderingError err))
   | None =>
       let* err := sendUnfurlEvent hs EventPayload_zero out.1 in
       match err with
       | Some err =>
           ret (Error StatusInternalServerError "Fail to send unfurl event to Slack"
                  (SlackFailure err))
       | None => ret (Empty StatusOK)
       end
   end)%go.

(** The path of [rawURL] from "d/" on. *)
Definition rawPath : string :=
  "d/RvNCUVm4z/dashboard-with-expressions?orgId=1&from=1704891104021&to=1704912704021&width=1000&height=500&tz=America%2FBuenos_Aires".
End Unfurl.

Arguments HTTPServer RenderError SlackError : clear implicits.
Arguments cause RenderError SlackError : clear implicits.
Arguments Response RenderError SlackError : clear implicits.

End slack.

(** [RenderToPng] reads its parameters from the query of the request.  The
    query reader of package [util], [strconv.ParseFloat], the user
    identifier of package [identity] and the errors of the render service
    are taken through [Platform]; the scale is a [float64], which stays
    abstract. *)
Module png.
Import gort.

Class Platform : Type := {
  Float : Type;
  (** [strconv.ParseFloat(s, 64)] *)
  ParseFloat : string → Float * option strconv.NumError;
  URL : Type;
  RawQuery : URL → string;
  QueryReader : Type;
  QueryError : Type;
  (** [util.NewURLQueryReader(url)] and [queryReader.Get(name, def)] *)
  NewURLQueryReader : URL → QueryReader * option QueryError;
  Get : QueryReader → string → string → string;
  NamespacedID : Type;
  IdError : Type;
  (** [identity.UserIdentifier(namespace, id)] *)
  UserIdentifier : NamespacedID → Z * option IdError;
  RenderError : Type;
  (** [errors.Is(err, rendering.ErrTimeout)] and [err.Error()] *)
  is_ErrTimeout : RenderError → bool;
  Error_text : RenderError → string;
}.

Section RenderToPng.
Context `{platform : Platform}.

(** What the handler reads of [c]. *)
Record ReqContext : Type := {
  Req_URL : URL;
  (** [c.Req.Header.Values("Accept-Language")] *)
  Accept_Language : list string;
  (** [web.Params(c.Req)["*"]] *)
  wildcard : string;
  SignedInUser_NamespacedID : NamespacedID;
  SignedInUser_OrgID : Z;
  SignedInUser_OrgRole : string;
}.

Record Opts : Type := {
  Timeout : Z;
  OrgID : Z;
  UserID : Z;
  OrgRole : string;
  Width : Z;
  Height : Z;
  Path : string;
  Timezone : string;
  Encoding : string;
  ConcurrentLimit : Z;
  DeviceScaleFactor : Float;
  Headers : gmap string (list string);
  Theme : string;
}.

Record HTTPServer : Type := {
  RenderService_Render : Opts → rendering.RenderResult * option RenderError;
  Cfg_RendererConcurrentRequestLimit : Z;
}.

Inductive error : Type :=
| FromQuery (err : QueryError)
| Errorf (format : string) (err : strconv.NumError)
| FromRender (err : RenderError).

(** What the handler leaves in the response: [c.Handle(cfg, status, title,
    err)], or the headers set and the file served. *)
Inductive Outcome : Type :=
| Handle (status : Z) (title : string) (err : error)
| ServeFile (header : list (string * string)) (name : string).

Record Proc : Type := MkProc {
  (** [hs.log.Error(msg, "err", err)] *)
  logged : list (string * IdError);
  rendered : list Opts;
}.

Definition log_Error (msg : string) (err : IdError) : GoM Proc Empty_set unit :=
  modify (λ σ, {| logged := logged σ ++ [(msg, err)]; rendered := rendered σ |}).

Definition Render (hs : HTTPServer) (opts : Opts)
    : GoM Proc Empty_set (rendering.RenderResult * option RenderError) :=
  (modify (λ σ, {| logged := logged σ; rendered := rendered σ ++ [opts] |}) ;;
   ret (RenderService_Render hs opts))%go.

(** [time.Duration(timeout) * time.Second]: the conversion to [int64] and
    the product in [int64]. *)
Definition seconds (timeout : Z) : Z :=
  strconv.int64 (strconv.int64 timeout * rendering.Second).

(** The options of the render request, once the parameters are read. *)
Definition png_opts (hs : HTTPServer) (c : ReqContext) (queryReader : QueryReader)
    (width height timeout : Z) (scale : Float) (userID : Z) : Opts :=
  {| Timeout := seconds timeout;
     OrgID := SignedInUser_OrgID c;
     UserID := userID;
     OrgRole := SignedInUser_OrgRole c;
     Width := width;
     Height := height;
     Path := wildcard c +:+ ("?" +:+ RawQuery (Req_URL c));
     Timezone := Get queryReader "tz" "";
     Encoding := Get queryReader "encoding" "";
     ConcurrentLimit := Cfg_RendererConcurrentRequestLimit hs;
     DeviceScaleFactor := scale;
     Headers :=
       if (0 <? Z.of_nat (length (Accept_Language c)))
       then {[ "Accept-Language" := Accept_Language c ]}
       else ∅;
     Theme := rendering.ThemeDark |}.

Definition RenderToPng (hs : HTTPServer) (c : ReqContext) : GoM Proc Empty_set Outcome :=
  (let '(queryReader, err) := NewURLQueryReader (Req_URL c) in
   match err with
   | Some err => ret (Handle 400 "Render parameters error" (FromQuery err))
   | None =>
   let queryParams := "?" +:+ RawQuery (Req_URL c) in
   let '(width, err) := strconv.Atoi (Get queryReader "width" "800") in
   match err with
   | Some err =>
       ret (Handle 400 "Render parameters error"
              (Errorf "cannot parse width as int: %s" err))
   | None =>
   let '(height, err) := strconv.Atoi (Get queryReader "height" "400") in
   match err with
   | Some err =>
       ret (Handle 400 "Render parameters error"
              (Errorf "cannot parse height as int: %s" err))
   | None =>
   let '(timeout, err) := strconv.Atoi (Get queryReader "timeout" "60") in
   match err with
   | Some err =>
       ret (Handle 400 "Render parameters error"
              (Errorf "cannot parse timeout as int: %s" err))
   | None =>
   let '(scale, err) := ParseFloat (Get queryReader "scale" "1") in
   match err with
   | Some err =>
       ret (Handle 400 "Render parameters error"
              (Errorf "cannot parse scale as float: %s" err))
   | None =>
   let headers : gmap string (list string) := ∅ in
   let acceptLanguageHeader := Accept_Language c in
   let headers :=
     if (0 <? Z.of_nat (length acceptLanguageHeader))
     then <[ "Accept-Language" := acceptLanguageHeader ]> headers
     else headers in
   let '(userID, errID) := UserIdentifier (SignedInUser_NamespacedID c) in
   match errID with
   | Some errID => log_Error "Failed to parse user id" errID
   | None => ret tt
   end ;;
   let* out :=
     Render hs
       {| Timeout := seconds timeout;
          OrgID := SignedInUser_OrgID c;
          UserID := userID;
          OrgRole := SignedInUser_OrgRole c;
          Width := width;
          Height := height;
          Path := wildcard c +:+ queryParams;
          Timezone := Get queryReader "tz" "";
          Encoding := Get queryReader "encoding" "";
          ConcurrentLimit := Cfg_RendererConcurrentRequestLimit hs;
          DeviceScaleFactor := scale;
          Headers := headers;
          Theme := rendering.ThemeDark |} in
   match out.2 with
   | Some err =>
       if is_ErrTimeout err then ret (Handle 500 (Error_text err) (FromRender err))
       else ret (Handle 500 "Rendering failed." (FromRender err))
   | None =>
       ret (ServeFile [("Content-Type", "image/png"); ("Cache-Control", "private")]
              (rendering.FilePath out.1))
   end
   end end end end end)%go.

(** The answer once the render service has returned. *)
Definition answer (out : rendering.RenderResult * option RenderError) : Outcome :=
  match out.2 with
  | Some err =>
      if is_ErrTimeout err then Handle 500 (Error_text err) (FromRender err)
      else Handle 500 "Rendering failed." (FromRender err)
  | None =>
      ServeFile [("Content-Type", "image/png"); ("Cache-Control", "private")]
        (rendering.FilePath out.1)
  end.

(** The parameters as the handler reads them, when all of them convert. *)
Definition parameters (c : ReqContext) : option (QueryReader * Z * Z * Z * Float) :=
  match NewURLQueryReader (Req_URL c) with
  | (queryReader, None) =>
      match strconv.Atoi (Get queryReader "width" "800"),
            strconv.Atoi (Get queryReader "height" "400"),
            strconv.Atoi (Get queryReader "timeout" "60"),
            ParseFloat (Get queryReader "scale" "1") with
      | (width, None), (height, None), (timeout, None), (scale, None) =>
          Some (queryReader, width, height, timeout, scale)
      | _, _, _, _ => None
      end
  | _ => None
  end.
End RenderToPng.

Arguments HTTPServer platform : clear implicits.
Arguments ReqContext platform : clear implicits.
Arguments Proc platform : clear implicits.
Arguments Opts platform : clear implicits.
Arguments Outcome platform : clear implicits.

End png.

Module png_demo.
Import png.

(** A platform for examples: the query is a list of pairs, scales are
    whole numbers, users are numbered, and the render service names its
    errors. *)
#[export] Instance platform : Platform := {|
  Float := Z;
  ParseFloat := strconv.Atoi;
  URL := string * list (string * string);
  RawQuery := fst;
  QueryReader := list (string * string);
  QueryError := Empty_set;
  NewURLQueryReader := λ url, (url.2, None);
  Get := λ q name def,
    default def (snd <$> List.find (λ kv, String.eqb kv.1 name) q);
  NamespacedID := Z;
  IdError := Empty_set;
  UserIdentifier := λ id, (id, None);
  RenderError := string;
  is_ErrTimeout := λ e, String.eqb e "timeout";
  Error_text := λ e, e;
|}.

Definition hs : HTTPServer platform :=
  {| RenderService_Render := λ opts, ({| rendering.FilePath := "/img/" +:+ Path opts |}, None);
     Cfg_RendererConcurrentRequestLimit := 30 |}.

(** A request for [/render/d/abc?timeout=<timeout>]. *)
Definition request (timeout : string) : ReqContext platform :=
  {| Req_URL := ("timeout=" +:+ timeout, [("timeout", timeout)]);
     Accept_Language := [];
     wildcard := "d/abc";
     SignedInUser_NamespacedID := 7;
     SignedInUser_OrgID := 1;
     SignedInUser_OrgRole := "Viewer" |}.

Definition boot : Proc platform := {| logged := []; rendered := [] |}.

End png_demo.

(** ** [buildBreadcrumbs]

    A navigation item knows its parent; the crumbs are collected walking
    up from the page and then from the section, newest first.  The
    browser's [URLSearchParams] is taken as the function
    [URLSearchParams_get init name], the result of
    [new URLSearchParams(init).get(name)], [None] standing for [null]. *)
Module breadcrumbs.

Record Breadcrumb : Type := { text : string; href : string }.

#[local] Unset Elimination Schemes.
Inductive NavModelItem : Type := MkNav {
  nav_text : string;
  nav_url : option string;
  hideFromBreadcrumbs : bool;
  nav_active : bool;
  nav_children : option (list NavModelItem);
  parentItem : option NavModelItem;
}.
#[local] Set Elimination Schemes.

(** The part of [s] before the first "?", and what follows it if any. *)
Fixpoint cut_at_question (s : string) : string * option string :=
  match s with
  | EmptyString => (EmptyString, None)
  | String ch rest =>
      if Ascii.eqb ch "?"%char then (EmptyString, Some rest)
      else let '(before, after) := cut_at_question rest in (String ch before, after)
  end.

(** The first two elements of [s.split('?')]; the second is [None] when
    the array has one element. *)
Definition split_question (s : string) : string * option string :=
  let '(first, rest) := cut_at_question s in
  (first, (λ r, (cut_at_question r).1) <$> rest).

Section Build.
Variable URLSearchParams_get : string → string → option string.

(** The variables the closure [addCrumbs] shares. *)
Record Walk : Type := MkWalk {
  crumbs : list Breadcrumb;
  foundHome : bool;
  lastPath : option string;
}.

(** The URL to match, as [addCrumbs] constructs it for [node]. *)
Definition urlToMatch (node : NavModelItem) : string :=
  let urlParts :=
    match nav_url node with
    | Some url => split_question url
    | None => (EmptyString, Some EmptyString)
    end in
  let urlToMatch := urlParts.1 in
  let editview :=
    match urlParts.2 with
    | Some init => URLSearchParams_get init "editview"
    | None => None
    end in
  match editview with
  | Some view => urlToMatch +:+ ("?editview=" +:+ view)
  | None => urlToMatch
  end.

(** [homeNav && urlToMatch === homeNav.url] *)
Definition is_home (homeNav : option NavModelItem) (url : string) : option NavModelItem :=
  match homeNav with
  | Some home =>
      match nav_url home with
      | Some home_url => if String.eqb url home_url then Some home else None
      | None => None
      end
  | None => None
  end.

(** The crumb of a node that is not home. *)
Definition crumb_of (node : NavModelItem) : Breadcrumb :=
  match mbind (find nav_active) (nav_children node) with
  | Some activeChild =>
      {| text := nav_text node +:+ (" (" +:+ (nav_text activeChild +:+ ")"));
         href := default EmptyString (nav_url node) |}
  | None =>
      {| text := nav_text node; href := default EmptyString (nav_url node) |}
  end.

Fixpoint addCrumbs (homeNav : option NavModelItem) (node : NavModelItem)
    (shouldDedupe : bool) (w : Walk) : Walk :=
  if foundHome w then w
  else
    let urlToMatch := urlToMatch node in
    match is_home homeNav urlToMatch with
    | Some home =>
        {| crumbs := {| text := nav_text home;
                        href := default EmptyString (nav_url node) |} :: crumbs w;
           foundHome := true;
           lastPath := lastPath w |}
    | None =>
        let isSamePathAsLastBreadcrumb :=
          negb (String.eqb urlToMatch EmptyString)
          && bool_decide (lastPath w = Some urlToMatch) in
        let shouldAddCrumb :=
          negb (hideFromBreadcrumbs node)
          && negb (shouldDedupe && isSamePathAsLastBreadcrumb) in
        let w' :=
          {| crumbs := if shouldAddCrumb then crumb_of node :: crumbs w else crumbs w;
             foundHome := false;
             lastPath := Some urlToMatch |} in
        match node with
        | MkNav _ _ _ _ _ (Some parent) => addCrumbs homeNav parent false w'
        | MkNav _ _ _ _ _ None => w'
        end
    end.

Definition buildBreadcrumbs (sectionNav : NavModelItem) (pageNav homeNav : option NavModelItem)
    : list Breadcrumb :=
  let w := {| crumbs := []; foundHome := false; lastPath := None |} in
  let w :=
    match pageNav with
    | Some pageNav => addCrumbs homeNav pageNav false w
    | None => w
    end in
  crumbs (addCrumbs homeNav sectionNav true w).

(** The nodes above [node], nearest first, and [node] with them. *)
Fixpoint ancestors (node : NavModelItem) : list NavModelItem :=
  match node with
  | MkNav _ _ _ _ _ (Some parent) => parent :: ancestors parent
  | MkNav _ _ _ _ _ None => []
  end.

Definition chain (node : NavModelItem) : list NavModelItem := node :: ancestors node.

Definition page_chain (pageNav : option NavModelItem) : list NavModelItem :=
  match pageNav with
  | Some pageNav => chain pageNav
  | None => []
  end.

Definition matches_home (homeNav : option NavModelItem) (node : NavModelItem) : bool :=
  bool_decide (is_Some (is_home homeNav (urlToMatch node))).

Definition visible (node : NavModelItem) : bool := negb (hideFromBreadcrumbs node).

(** The section repeats the path at which the walk from the page ended. *)
Definition repeats_page (pageNav : option NavModelItem) (sectionNav : NavModelItem) : bool :=
  negb (String.eqb (urlToMatch sectionNav) EmptyString)
  && bool_decide (urlToMatch <$> last (page_chain pageNav) = Some (urlToMatch sectionNav)).

(** The crumb that is put first when [node] is found to be home. *)
Definition home_crumb (home node : NavModelItem) : Breadcrumb :=
  {| text := nav_text home; href := default EmptyString (nav_url node) |}.

(** The crumbs of the visible nodes of [nodes], the last of them first. *)
Definition crumbs_of (nodes : list NavModelItem) : list Breadcrumb :=
  rev (map crumb_of (filter (λ node, visible node = true) nodes)).

(** The crumb of the section, unless it is hidden or repeats the page. *)
Definition section_crumb (pageNav : option NavModelItem) (sectionNav : NavModelItem)
    : list Breadcrumb :=
  if visible sectionNav && negb (repeats_page pageNav sectionNav)
  then [crumb_of sectionNav] else [].

(** One step of the walk and the walk along a list of nodes, the first of
    them with [shouldDedupe]. *)
Definition visit (homeNav : option NavModelItem) (node : NavModelItem)
    (shouldDedupe : bool) (w : Walk) : Walk :=
  match is_home homeNav (urlToMatch node) with
  | Some home =>
      {| crumbs := {| text := nav_text home;
                      href := default EmptyString (nav_url node) |} :: crumbs w;
         foundHome := true;
         lastPath := lastPath w |}
  | None =>
      {| crumbs :=
           if negb (hideFromBreadcrumbs node)
              && negb (shouldDedupe
                       && (negb (String.eqb (urlToMatch node) EmptyString)
                           && bool_decide (lastPath w = Some (urlToMatch node))))
           then crumb_of node :: crumbs w else crumbs w;
         foundHome := false;
         lastPath := Some (urlToMatch node) |}
  end.

Fixpoint walk (homeNav : option NavModelItem) (shouldDedupe : bool)
    (nodes : list NavModelItem) (w : Walk) : Walk :=
  match nodes with
  | [] => w
  | node :: nodes' =>
      if foundHome w then w
      else walk homeNav false nodes' (visit homeNav node shouldDedupe w)
  end.
End Build.

End breadcrumbs.

Module breadcrumbs_demo.
Import breadcrumbs.

(** A reading of the query that knows the form [name=value] only. *)
Definition get (init name : string) : option string :=
  if String.prefix (name +:+ "=") init
  then Some (gort.drop_bytes (S (String.length name)) init)
  else None.

Definition home : NavModelItem :=
  MkNav "Home" (Some "/") false false None None.
Definition dashboards : NavModelItem :=
  MkNav "Dashboards" (Some "/dashboards") false false None (Some home).
Definition folder : NavModelItem :=
  MkNav "Team" (Some "/dashboards/f/team") true false None (Some dashboards).
Definition dashboard : NavModelItem :=
  MkNav "CPU" (Some "/d/abc") false false None (Some folder).
Definition settings : NavModelItem :=
  MkNav "Settings" (Some "/d/abc?editview=settings") false false None (Some dashboard).

End breadcrumbs_demo.

(** ** [getPanelDataForRule]

    Timestamps are whole numbers (epoch milliseconds); the values of a
    record are passed along untouched and stay abstract, with [zero] for
    the literal 0.  [sort] is [Array.prototype.sort] with the comparator
    [(a, b) => a.timestamp - b.timestamp], that is the stable sort by
    timestamp, computed by insertion; [uniqBy], [min] and [max] are
    lodash's. *)
Module history.

Section History.
Context {Number Labels State : Type}.
Variable zero : Number.

Record LogLine : Type := {
  previous : State;
  current : State;
  values : option (gmap string Number);
  labels : option Labels;
  ruleUID : option string;
}.

Record LogRecord : Type := {
  timestamp : Z;
  line : LogLine;
}.

(** [a] goes before the first record whose timestamp is not smaller. *)
Fixpoint insert_sorted (a : LogRecord) (sorted : list LogRecord) : list LogRecord :=
  match sorted with
  | [] => [a]
  | b :: rest =>
      if timestamp a - timestamp b <=? 0 then a :: b :: rest
      else b :: insert_sorted a rest
  end.

Definition sort (records : list LogRecord) : list LogRecord :=
  foldr insert_sorted [] records.

(** [uniqBy(records, record => record.timestamp)]: of the records with one
    timestamp the first is kept. *)
Fixpoint uniqBy_seen (seen : list Z) (records : list LogRecord) : list LogRecord :=
  match records with
  | [] => []
  | record :: rest =>
      if bool_decide (timestamp record ∈ seen) then uniqBy_seen seen rest
      else record :: uniqBy_seen (timestamp record :: seen) rest
  end.

Definition uniqBy (records : list LogRecord) : list LogRecord := uniqBy_seen [] records.

(** [min(numbers)] and [max(numbers)]: [None] is the [undefined] that an
    empty array gives. *)
Definition min (numbers : list Z) : option Z :=
  match numbers with
  | [] => None
  | first :: rest =>
      Some (foldl (λ computed current, if current <? computed then current else computed)
              first rest)
  end.

Definition max (numbers : list Z) : option Z :=
  match numbers with
  | [] => None
  | first :: rest =>
      Some (foldl (λ computed current, if computed <? current then current else computed)
              first rest)
  end.

(** The frame of the series and the arguments of [makeTimeRange]. *)
Record PanelData : Type := {
  Time : list Z;
  values_field : list (option Number);
  series_length : nat;
  timeRange : option Z * option Z;
}.

(** [record.line.values ? record.line.values[condition] : 0] *)
Definition condition_value (condition : string) (record : LogRecord) : option Number :=
  match values (line record) with
  | Some values => values !! condition
  | None => Some zero
  end.

Definition getPanelDataForRule (rule : string) (logRecords : list LogRecord)
    (condition : string) : PanelData :=
  let ruleLogRecords :=
    sort (filter (λ record, ruleUID (line record) = Some rule) logRecords) in
  let uniqueRecords := uniqBy ruleLogRecords in
  let timestamps := map timestamp uniqueRecords in
  let values := map (condition_value condition) uniqueRecords in
  let minTimestamp := min timestamps in
  let maxTimestamp := max timestamps in
  {| Time := timestamps;
     values_field := values;
     series_length := length timestamps;
     timeRange := (minTimestamp, maxTimestamp) |}.

(** [getTransitionsCountByRuleUID] of [EventDetails], and the number it
    shows: [ruleUID ? getTransitionsCountByRuleUID(ruleUID) : 0]. *)
Definition getTransitionsCountByRuleUID (logRecords : list LogRecord) (rule : string) : nat :=
  length (filter (λ record, ruleUID (line record) = Some rule) logRecords).

Definition transitions (logRecords : list LogRecord) (record : LogRecord) : nat :=
  let rule := default EmptyString (ruleUID (line record)) in
  if String.eqb rule EmptyString then 0%nat
  else getTransitionsCountByRuleUID logRecords rule.

(** The records of [rule] at timestamp [t], in the order of the input. *)
Definition at_timestamp (rule : string) (t : Z) (logRecords : list LogRecord)
    : list LogRecord :=
  filter (λ record, timestamp record = t)
    (filter (λ record, ruleUID (line record) = Some rule) logRecords).
End History.

Arguments LogLine Number Labels State : clear implicits.
Arguments LogRecord Number Labels State : clear implicits.
Arguments PanelData Number : clear implicits.

End history.

Module history_demo.
Import history.

Definition line_of (rule : string) (v : Z) : LogLine Z unit string :=
  {| previous := "Normal"; current := "Alerting";
     values := Some {[ "A" := v ]}; labels := None; ruleUID := Some rule |}.

(** Two rules; rule ["r1"] has two records at timestamp 20. *)
Definition records : list (LogRecord Z unit string) :=
  [ {| timestamp := 30; line := line_of "r1" 3 |};
    {| timestamp := 20; line := line_of "r1" 2 |};
    {| timestamp := 25; line := line_of "r2" 9 |};
    {| timestamp := 20; line := line_of "r1" 7 |};
    {| timestamp := 10; line := line_of "r1" 1 |} ].

End history_demo.

(** * Properties *)

(** ** The recipe handlers *)
Section RecipeHandlers.
Import gort recipes.
Context `{sig : Signature}.

Lemma invoke_action `{acts : !StepActions} {G} (kind : CallKind) (step : RecipeStep)
    (c : ReqContext) (σ : Proc sig) :
  invoke (G := G) kind step c σ
  = (Returned tt,
     {| world := (action kind step c (world σ)).1;
        calls := calls σ ++ [MkCall kind step c (action kind step c (world σ)).2] |},
     []).
Proof.
  unfold invoke, action. destruct kind.
  - by destruct (Apply step c (world σ)).
  - by destruct (Revert step c (world σ)).
Qed.

Lemma performed_nil `{acts : !StepActions} (kind : CallKind) (c : ReqContext)
    (σ : Proc sig) :
  performed kind c [] σ = σ.
Proof. destruct σ. unfold performed. simpl. by rewrite app_nil_r. Qed.

Lemma performed_cons `{acts : !StepActions} (kind : CallKind) (c : ReqContext)
    (step : RecipeStep) (rest : list RecipeStep) (σ : Proc sig) :
  performed kind c (step :: rest) σ
  = performed kind c rest
      {| world := (action kind step c (world σ)).1;
         calls := calls σ ++ [MkCall kind step c (action kind step c (world σ)).2] |}.
Proof. unfold performed. simpl. by rewrite <- app_assoc. Qed.

Lemma performed_app `{acts : !StepActions} (kind : CallKind) (c : ReqContext)
    (done rest : list RecipeStep) (σ : Proc sig) :
  performed kind c (done ++ rest) σ = performed kind c rest (performed kind c done σ).
Proof.
  revert σ. induction done as [|step done IH]; intros σ; simpl.
  - by rewrite performed_nil.
  - by rewrite !performed_cons, IH.
Qed.

(** The step after the first [j] is performed in the state they left. *)
Lemma performed_next `{acts : !StepActions} {G} (kind : CallKind) (c : ReqContext)
    (steps : list RecipeStep) (j : nat) (step : RecipeStep) (σ : Proc sig) :
  steps !! j = Some step →
  invoke (G := G) kind step c (performed kind c (take j steps) σ)
  = (Returned tt, performed kind c (take (S j) steps) σ, []).
Proof.
  intros Hstep. rewrite invoke_action, (take_S_r _ _ _ Hstep), performed_app.
  by rewrite performed_cons, performed_nil.
Qed.

Lemma for_range_from_performed `{acts : !StepActions} {G} (kind : CallKind)
    (c : ReqContext) (steps : list RecipeStep) (i : Z) (σ : Proc sig) :
  for_range_from (G := G) i steps (λ _ step _, invoke kind step c) tt σ
  = (Returned tt, performed kind c steps σ, []).
Proof.
  revert i σ. induction steps as [|step steps IH]; intros i σ; simpl.
  - by rewrite performed_nil.
  - unfold bind at 1. rewrite invoke_action, IH. by rewrite performed_cons.
Qed.

Lemma world_after_foldl `{acts : !StepActions} (kind : CallKind) (c : ReqContext)
    (steps : list RecipeStep) (w : World) :
  world_after kind c steps w = foldl (λ w step, (action kind step c w).1) w steps.
Proof. revert w. induction steps as [|step steps IH]; intros w; simpl; [done|apply IH]. Qed.

Lemma trace_targets `{acts : !StepActions} (kind : CallKind) (c : ReqContext)
    (steps : list RecipeStep) (w : World) :
  map call_target (trace kind c steps w) = map (λ step, (kind, step, c)) steps.
Proof.
  revert w. induction steps as [|step steps IH]; intros w; simpl; [done|].
  by rewrite IH.
Qed.

Lemma trace_lookup `{acts : !StepActions} (kind : CallKind) (c : ReqContext)
    (steps : list RecipeStep) (w : World) (i : nat) (step : RecipeStep) :
  steps !! i = Some step →
  trace kind c steps w !! i
  = Some (MkCall kind step c
            (action kind step c (world_after kind c (take i steps) w)).2).
Proof.
  revert w i. induction steps as [|first steps IH]; intros w i Hstep; [done|].
  destruct i as [|i]; simpl in *.
  - by injection Hstep as ->.
  - by apply IH.
Qed.

(** What the goroutine of a whole-recipe handler does when it runs from
    [σ]: it returns, having performed the actions on the steps one after
    the other. *)
Lemma goroutine_run `{acts : !StepActions} (kind : CallKind) (c : ReqContext)
    (steps : list RecipeStep) (σ : Proc sig) :
  let g : Goroutine (Proc sig) := for_each steps (λ step, invoke kind step c) in
  result (g σ) = Returned tt
  ∧ map call_target (calls_added g σ) = map (λ step, (kind, step, c)) steps
  ∧ length (calls_added g σ) = length steps
  ∧ world (run_goroutine g σ)
    = foldl (λ w step, (action kind step c w).1) (world σ) steps
  ∧ calls (run_goroutine g σ) = calls σ ++ calls_added g σ
  ∧ ∀ (i : nat) step, steps !! i = Some step →
      calls_added g σ !! i
      = Some (MkCall kind step c
                (action kind step c
                   (foldl (λ w step, (action kind step c w).1) (world σ)
                      (take i steps))).2).
Proof.
  intros g.
  assert (g σ = (Returned tt, performed kind c steps σ, [])) as Hrun
    by apply for_range_from_performed.
  assert (calls_added g σ = trace kind c steps (world σ)) as Hadded.
  { unfold calls_added, run_goroutine. rewrite Hrun. unfold final, performed. simpl.
    by rewrite drop_app_length. }
  unfold run_goroutine. rewrite Hadded, Hrun. unfold result, final. simpl.
  split; [done|]. split; [apply trace_targets|]. split.
  { by rewrite <- (length_map call_target), trace_targets, length_map. }
  split; [apply world_after_foldl|]. split; [done|].
  intros i step Hstep. rewrite <- world_after_foldl. by apply trace_lookup.
Qed.

(** C6: for a registered recipe, [InstallRecipe] itself calls no step and
    starts one goroutine.  That goroutine runs to its end and calls
    [Apply] once per step, the i-th call on the i-th step, with the
    request context: each call acts on the world the calls before it
    left and is logged with what [Apply] reported there, and the world at
    the end is the one [Apply] on the last step left. *)
Theorem InstallRecipe_applies_in_order `{acts : !StepActions}
    (hs : HTTPServer sig) (c : ReqContext) (σ : Proc sig) (recipe : Recipe) :
  requested_recipe hs c = Some recipe →
  calls (final (InstallRecipe hs c σ)) = calls σ
  ∧ ∃ g, started (InstallRecipe hs c σ) = [g]
       ∧ ∀ σ', result (g σ') = Returned tt
             ∧ map call_target (calls_added g σ')
               = map (λ step, (KApply, step, c)) (Steps recipe)
             ∧ world (run_goroutine g σ')
               = foldl (λ w step, (Apply step c w).1) (world σ') (Steps recipe)
             ∧ calls (run_goroutine g σ') = calls σ' ++ calls_added g σ'
             ∧ ∀ (i : nat) step, Steps recipe !! i = Some step →
                 calls_added g σ' !! i
                 = Some (MkCall KApply step c
                           (Apply step c
                              (foldl (λ w step, (Apply step c w).1) (world σ')
                                 (take i (Steps recipe)))).2).
Proof.
  unfold requested_recipe, InstallRecipe. intros ->.
  split; [done|]. eexists. split; [reflexivity|]. intros σ'.
  destruct (goroutine_run KApply c (Steps recipe) σ')
    as (Hret & Htargets & _ & Hworld & Hcalls & Heach).
  done.
Qed.

(** C3 (amended): for a registered recipe, the goroutine started by
    [UninstallRecipe] calls [Revert] once per step in ascending index
    order, first step first: each call acts on the world the calls before
    it left and is logged with what [Revert] reported there, and the
    world at the end is the one [Revert] on the last step left. *)
Theorem UninstallRecipe_reverts_in_ascending_order `{acts : !StepActions}
    (hs : HTTPServer sig) (c : ReqContext) (σ : Proc sig) (recipe : Recipe) :
  requested_recipe hs c = Some recipe →
  calls (final (UninstallRecipe hs c σ)) = calls σ
  ∧ ∃ g, started (UninstallRecipe hs c σ) = [g]
       ∧ ∀ σ', result (g σ') = Returned tt
             ∧ map call_target (calls_added g σ')
               = map (λ step, (KRevert, step, c)) (Steps recipe)
             ∧ world (run_goroutine g σ')
               = foldl (λ w step, (Revert step c w).1) (world σ') (Steps recipe)
             ∧ calls (run_goroutine g σ') = calls σ' ++ calls_added g σ'
             ∧ ∀ (i : nat) step, Steps recipe !! i = Some step →
                 calls_added g σ' !! i
                 = Some (MkCall KRevert step c
                           (Revert step c
                              (foldl (λ w step, (Revert step c w).1) (world σ')
                                 (take i (Steps recipe)))).2).
Proof.
  unfold requested_recipe, UninstallRecipe. intros ->.
  split; [done|]. eexists. split; [reflexivity|]. intros σ'.
  destruct (goroutine_run KRevert c (Steps recipe) σ')
    as (Hret & Htargets & _ & Hworld & Hcalls & Heach).
  done.
Qed.

(** C4: whatever [Apply] and [Revert] report, on install and on
    uninstall every step of a registered recipe gets its call.  There are
    as many calls as steps; the call at position [i] is [Apply]
    (respectively [Revert]) on step [i], made in the world that the
    calls on the steps before it left, whether or not they failed, and
    logged with what it reported; and the world at the end is the one
    left by the calls on all the steps. *)
Theorem whole_recipe_calls_every_step `{acts : !StepActions}
    (hs : HTTPServer sig) (c : ReqContext) (σ : Proc sig) (recipe : Recipe) :
  requested_recipe hs c = Some recipe →
  (∃ g, started (InstallRecipe hs c σ) = [g]
      ∧ ∀ σ', length (calls_added g σ') = length (Steps recipe)
            ∧ (∀ (i : nat) step, Steps recipe !! i = Some step →
                 calls_added g σ' !! i
                 = Some (MkCall KApply step c
                           (Apply step c
                              (foldl (λ w step, (Apply step c w).1) (world σ')
                                 (take i (Steps recipe)))).2))
            ∧ world (run_goroutine g σ')
              = foldl (λ w step, (Apply step c w).1) (world σ') (Steps recipe))
  ∧ (∃ g, started (UninstallRecipe hs c σ) = [g]
      ∧ ∀ σ', length (calls_added g σ') = length (Steps recipe)
            ∧ (∀ (i : nat) step, Steps recipe !! i = Some step →
                 calls_added g σ' !! i
                 = Some (MkCall KRevert step c
                           (Revert step c
                              (foldl (λ w step, (Revert step c w).1) (world σ')
                                 (take i (Steps recipe)))).2))
            ∧ world (run_goroutine g σ')
              = foldl (λ w step, (Revert step c w).1) (world σ') (Steps recipe)).
Proof.
  unfold requested_recipe, InstallRecipe, UninstallRecipe. intros ->.
  split; (eexists; split; [reflexivity|]); intros σ'.
  - destruct (goroutine_run KApply c (Steps recipe) σ')
      as (_ & _ & Hlength & Hworld & _ & Heach).
    done.
  - destruct (goroutine_run KRevert c (Steps recipe) σ')
      as (_ & _ & Hlength & Hworld & _ & Heach).
    done.
Qed.

(** C5: each of [GetRecipeByID], [InstallRecipe] and [UninstallRecipe]
    returns a response whose status is 404 exactly when the provider has
    no recipe under the requested id, and which is 200 with the DTO of
    the recipe when it has one. *)
Theorem recipe_lookup_status `{acts : !StepActions}
    (hs : HTTPServer sig) (c : ReqContext) (σ : Proc sig) :
  Forall
    (λ handler : HTTPServer sig → ReqContext → Handler (Proc sig) (Response sig),
       ∃ r, result (handler hs c σ) = Returned r
          ∧ (status_of r = StatusNotFound ↔ requested_recipe hs c = None)
          ∧ ∀ recipe, requested_recipe hs c = Some recipe →
              r = JSON StatusOK (BodyRecipe (Recipe_ToDto recipe c (world σ))))
    [GetRecipeByID; InstallRecipe; UninstallRecipe].
Proof.
  repeat apply List.Forall_cons; [| | |apply List.Forall_nil];
    unfold requested_recipe, GetRecipeByID, InstallRecipe, UninstallRecipe;
    (destruct (GetById _ _) as [recipe|];
     [ eexists; split; [reflexivity|]; split;
       [ split; [intros [=]|intros [=]]
       | by intros ? [= <-] ]
     | eexists; split; [reflexivity|]; split; [done|by intros ? [=]] ]).
Qed.

(** ** The handler and its goroutine, interleaved *)

Lemma loop_alone `{acts : !StepActions} (kind : CallKind) (c : ReqContext)
    (steps : list RecipeStep) (σ : Proc sig) :
  concurrent.alone (racing.loop kind c steps) σ
  = (Returned tt, performed kind c steps σ, []).
Proof.
  revert σ. induction steps as [|step steps IH]; intros σ; simpl.
  - by rewrite performed_nil.
  - rewrite invoke_action, IH. by rewrite performed_cons.
Qed.

(** Run without interruption, the threads are the handlers of [recipes]:
    the same response, the same state, and a goroutine that does the
    same. *)
Lemma threads_alone `{acts : !StepActions} (hs : HTTPServer sig) (c : ReqContext)
    (σ : Proc sig) :
  Forall
    (λ p : concurrent.Handler (Proc sig) (Response sig) * Handler (Proc sig) (Response sig),
       result (concurrent.alone p.1 σ) = result (p.2 σ)
       ∧ final (concurrent.alone p.1 σ) = final (p.2 σ)
       ∧ Forall2 (λ t g, ∀ σ', concurrent.alone t σ' = g σ')
           (started (concurrent.alone p.1 σ)) (started (p.2 σ)))
    [(racing.InstallRecipe hs c, InstallRecipe hs c);
     (racing.UninstallRecipe hs c, UninstallRecipe hs c)].
Proof.
  repeat apply List.Forall_cons; [| |apply List.Forall_nil];
    unfold racing.InstallRecipe, racing.UninstallRecipe, InstallRecipe, UninstallRecipe;
    (destruct (GetById _ _) as [recipe|]; simpl;
     [|split; [done|]; split; [done|]; constructor]);
    (split; [done|]; split; [done|]); constructor; [|constructor| |constructor];
    intros σ';
    [ fold (racing.loop KApply c (Steps recipe))
    | fold (racing.loop KRevert c (Steps recipe)) ];
    rewrite loop_alone; symmetry; apply for_range_from_performed.
Qed.

Lemma request_called `{acts : !StepActions} (hs : HTTPServer sig) (c : ReqContext)
    (σ : Proc sig) (recipe : Recipe) :
  requested_recipe hs c = Some recipe →
  concurrent.start (racing.InstallRecipe hs c) σ = racing.called KApply recipe c σ
  ∧ concurrent.start (racing.UninstallRecipe hs c) σ = racing.called KRevert recipe c σ.
Proof.
  unfold requested_recipe, racing.InstallRecipe, racing.UninstallRecipe. by intros ->.
Qed.

Section Race.
Context `{acts : !StepActions}.
Variables (kind : CallKind) (recipe : Recipe) (c : ReqContext) (σ : Proc sig).

#[local] Abbreviation called := (racing.called kind recipe c σ).
#[local] Abbreviation reading := (racing.reading kind recipe c σ).
#[local] Abbreviation replied := (racing.replied kind recipe c σ).
#[local] Abbreviation Phase := (racing.Phase kind recipe c σ).

Lemma step_go : concurrent.step called concurrent.OfHandler = reading 0.
Proof.
  unfold racing.called, racing.reading, concurrent.step, concurrent.start. simpl.
  by rewrite performed_nil, drop_0.
Qed.

Lemma step_read (j : nat) : concurrent.step (reading j) concurrent.OfHandler = replied j j.
Proof. done. Qed.

Lemma step_replied (i j : nat) :
  concurrent.step (replied i j) concurrent.OfHandler = replied i j.
Proof. done. Qed.

Lemma loop_turn (j : nat) :
  concurrent.turn (racing.loop kind c (drop j (Steps recipe)))
    (performed kind c (take j (Steps recipe)) σ)
  = if decide (j < length (Steps recipe))%nat
    then (performed kind c (take (S j) (Steps recipe)) σ,
          racing.loop kind c (drop (S j) (Steps recipe)), None)
    else (performed kind c (take j (Steps recipe)) σ,
          racing.loop kind c (drop j (Steps recipe)), None).
Proof.
  destruct (decide (j < length (Steps recipe))%nat) as [Hlt|Hge].
  - destruct (lookup_lt_is_Some_2 _ _ Hlt) as [step Hstep].
    rewrite (drop_S _ _ _ Hstep). simpl.
    by rewrite (performed_next kind c _ _ _ σ Hstep).
  - rewrite drop_ge by lia. done.
Qed.

Lemma step_loop_reading (j : nat) :
  concurrent.step (reading j) (concurrent.OfGoroutine 0)
  = reading (if decide (j < length (Steps recipe))%nat then S j else j).
Proof.
  unfold concurrent.step, racing.reading. cbn [concurrent.goroutines concurrent.shared lookup list_lookup].
  simpl. rewrite loop_turn. by destruct (decide _).
Qed.

Lemma step_loop_replied (i j : nat) :
  concurrent.step (replied i j) (concurrent.OfGoroutine 0)
  = replied i (if decide (j < length (Steps recipe))%nat then S j else j).
Proof.
  unfold concurrent.step, racing.replied. simpl. rewrite loop_turn. by destruct (decide _).
Qed.

Lemma step_idle (n : nat) (i j : nat) :
  concurrent.step called (concurrent.OfGoroutine n) = called
  ∧ concurrent.step (reading j) (concurrent.OfGoroutine (S n)) = reading j
  ∧ concurrent.step (replied i j) (concurrent.OfGoroutine (S n)) = replied i j.
Proof. done. Qed.

Lemma step_phase (h : nat) (cfg : concurrent.Config (Proc sig) (Response sig))
    (choice : concurrent.Choice) :
  Phase h cfg → Phase (h + concurrent.handler_turns [choice]) (concurrent.step cfg choice).
Proof.
  intros [|j Hj|h' i j Hh Hi Hj]; destruct choice as [|[|n]];
    cbn [concurrent.handler_turns Nat.add]; rewrite ?Nat.add_0_r.
  - rewrite step_go. constructor. lia.
  - rewrite (proj1 (step_idle 0 0 0)). constructor.
  - rewrite (proj1 (step_idle (S n) 0 0)). constructor.
  - rewrite step_read. by constructor.
  - rewrite step_loop_reading. constructor. destruct (decide _); lia.
  - rewrite (proj1 (proj2 (step_idle n 0 j))). by constructor.
  - rewrite step_replied. constructor; [lia|done..].
  - rewrite step_loop_replied. constructor; [done| |]; destruct (decide _); lia.
  - rewrite (proj2 (proj2 (step_idle n i j))). by constructor.
Qed.

Lemma run_phase (schedule : list concurrent.Choice) :
  ∀ (h : nat) (cfg : concurrent.Config (Proc sig) (Response sig)),
    Phase h cfg →
    Phase (h + concurrent.handler_turns schedule) (concurrent.run schedule cfg).
Proof.
  induction schedule as [|choice schedule IH]; intros h cfg Hphase.
  - simpl. by rewrite Nat.add_0_r.
  - replace (h + concurrent.handler_turns (choice :: schedule))%nat
      with (h + concurrent.handler_turns [choice] + concurrent.handler_turns schedule)%nat
      by (destruct choice; simpl; lia).
    apply IH. by apply step_phase.
Qed.

Lemma run_goroutine_turns (k j : nat) :
  (j + k ≤ length (Steps recipe))%nat →
  concurrent.run (replicate k (concurrent.OfGoroutine 0)) (reading j) = reading (j + k).
Proof.
  unfold concurrent.run. revert j. induction k as [|k IH]; intros j Hle;
    cbn [replicate foldl].
  - by rewrite Nat.add_0_r.
  - rewrite step_loop_reading, decide_True by lia. rewrite IH by lia. f_equal. lia.
Qed.

Lemma loop_ended (steps : list RecipeStep) :
  racing.loop kind c steps = concurrent.Exit (Returned tt) → steps = [].
Proof. by destruct steps. Qed.

Lemma race :
  let ok (k : nat) :=
    racing.ok_in recipe c (performed kind c (take k (Steps recipe)) σ) in
  (∀ schedule,
     is_Some (concurrent.response (concurrent.run schedule called))
     ↔ (2 ≤ concurrent.handler_turns schedule)%nat)
  ∧ (∀ schedule r,
       concurrent.response (concurrent.run schedule called) = Some r →
       ∃ k, (k ≤ length (Steps recipe))%nat ∧ r = ok k)
  ∧ (∀ k, (k ≤ length (Steps recipe))%nat →
       concurrent.response
         (concurrent.run
            (concurrent.OfHandler :: replicate k (concurrent.OfGoroutine 0)
             ++ [concurrent.OfHandler]) called)
       = Some (ok k))
  ∧ (∀ schedule,
       ∃ k, (k ≤ length (Steps recipe))%nat
          ∧ concurrent.shared (concurrent.run schedule called)
            = performed kind c (take k (Steps recipe)) σ)
  ∧ (∀ schedule,
       (0 < concurrent.handler_turns schedule)%nat →
       concurrent.quiet (concurrent.run schedule called) →
       concurrent.shared (concurrent.run schedule called)
       = performed kind c (Steps recipe) σ).
Proof.
  intros ok.
  assert (∀ schedule,
            Phase (concurrent.handler_turns schedule) (concurrent.run schedule called))
    as Hphase.
  { intros schedule. apply (run_phase schedule 0 called). constructor. }
  split; [|split; [|split; [|split]]].
  - intros schedule. destruct (Hphase schedule) as [|j Hj|h i j Hh Hi Hj]; simpl.
    + split; [by intros [? [=]]|lia].
    + split; [by intros [? [=]]|lia].
    + split; [done|]. intros _. by eexists.
  - intros schedule r. destruct (Hphase schedule) as [|j Hj|h i j Hh Hi Hj]; simpl; try done.
    intros [= <-]. exists i. split; [lia|done].
  - intros k Hk. unfold concurrent.run. cbn [foldl]. rewrite step_go, foldl_app.
    pose proof (run_goroutine_turns k 0 Hk) as Hturns. unfold concurrent.run in Hturns.
    by rewrite Hturns.
  - intros schedule. destruct (Hphase schedule) as [|j Hj|h i j Hh Hi Hj]; simpl.
    + exists 0%nat. split; [lia|]. by rewrite performed_nil.
    + by exists j.
    + by exists j.
  - intros schedule. destruct (Hphase schedule) as [|j Hj|h i j Hh Hi Hj]; simpl; [lia| |];
      intros _ [Hended _]%Forall_cons; apply loop_ended in Hended;
      (assert (j = length (Steps recipe)) as ->
         by (apply (f_equal length) in Hended; rewrite length_drop in Hended; simpl in Hended; lia));
      by rewrite firstn_all.
Qed.
End Race.


Lemma in_range_true (i n : Z) : 0 ≤ i < n → (0 <=? i) && (i <? n) = true.
Proof. intros [H0 Hn]. apply andb_true_iff. split; [by apply Z.leb_le|by apply Z.ltb_lt]. Qed.

Lemma in_range_false (i n : Z) : ¬ (0 ≤ i < n) → (0 <=? i) && (i <? n) = false.
Proof.
  intros Hout. apply not_true_iff_false. intros [H0 Hn]%andb_true_iff.
  apply Z.leb_le in H0. apply Z.ltb_lt in Hn. lia.
Qed.

Lemma slice_set_next {G} (done rest : list (option RecipeDTO))
    (v : option RecipeDTO) (i : Z) (σ : Proc sig) :
  i = Z.of_nat (length done) →
  slice_set (G := G) (done ++ None :: rest) i v σ
    = (Returned ((done ++ [v]) ++ rest), σ, []).
Proof.
  intros ->. unfold slice_set.
  rewrite length_app, length_cons.
  rewrite in_range_true by lia.
  rewrite Nat2Z.id.
  replace (length done) with (length done + 0)%nat at 1 by lia.
  rewrite insert_app_r. simpl. by rewrite <- app_assoc.
Qed.

Lemma fill_dtos {G} (c : ReqContext) (rs : list Recipe) :
  ∀ (done : list (option RecipeDTO)) (i : Z) (σ : Proc sig),
    i = Z.of_nat (length done) →
    for_range_from (G := G) i rs
      (λ i r dtos,
         let* dto := read (Recipe_ToDto r c) in
         slice_set dtos i (Some dto))%go
      (done ++ replicate (length rs) None) σ
    = (Returned (done ++ map (λ r, Some (Recipe_ToDto r c (world σ))) rs), σ, []).
Proof.
  induction rs as [|r rs IH]; intros done i σ Hi.
  - done.
  - simpl. unfold bind at 1. unfold bind at 1. unfold read at 1.
    rewrite (slice_set_next done _ _ i σ Hi). simpl.
    rewrite (IH (done ++ [Some (Recipe_ToDto r c (world σ))]) (i + 1) σ).
    + by rewrite <- app_assoc.
    + rewrite length_app. simpl. lia.
Qed.

(** C8: [GetRecipeList] returns 200 with the list of the DTOs of the
    recipes [GetAll] returns: one per recipe, in the same order, the i-th
    being [ToDto] of the i-th recipe; it does not panic, changes nothing
    and starts no goroutine. *)
Theorem GetRecipeList_maps_ToDto (hs : HTTPServer sig) (c : ReqContext) (σ : Proc sig) :
  GetRecipeList hs c σ
  = (Returned
       (JSON StatusOK
          (BodyRecipes
             (map (λ r, Some (Recipe_ToDto r c (world σ)))
                  (GetAll (recipeProvider hs))))),
     σ, []).
Proof.
  pose proof (fill_dtos (G := Goroutine (Proc sig)) c
                (GetAll (recipeProvider hs)) [] 0 σ eq_refl) as Hfill.
  cbn [app] in Hfill.
  unfold GetRecipeList, for_range. unfold bind at 1. by rewrite Hfill.
Qed.

Lemma slice_index_spec {G A} (s : list A) (i : Z) (σ : Proc sig) :
  slice_index (G := G) s i σ
  = match (if (0 <=? i) && (i <? Z.of_nat (length s)) then s !! Z.to_nat i else None) with
    | Some a => (Returned a, σ, [])
    | None => (Panicked (IndexOutOfRange i (Z.of_nat (length s))), σ, [])
    end.
Proof.
  unfold slice_index. destruct ((0 <=? i) && (i <? Z.of_nat (length s))); [|done].
  by destruct (s !! Z.to_nat i).
Qed.

Lemma slice_index_in_range {A} (s : list A) (i : Z) :
  0 ≤ i < Z.of_nat (length s) →
  ∃ a, (if (0 <=? i) && (i <? Z.of_nat (length s)) then s !! Z.to_nat i else None)
       = Some a.
Proof.
  intros Hi. rewrite in_range_true by done.
  destruct (lookup_lt_is_Some_2 s (Z.to_nat i)) as [a Ha]; [lia|]. eauto.
Qed.

Lemma slice_index_out_of_range {A} (s : list A) (i : Z) :
  ¬ (0 ≤ i < Z.of_nat (length s)) →
  (if (0 <=? i) && (i <? Z.of_nat (length s)) then s !! Z.to_nat i else None)
  = None.
Proof.
  intros Hi. by rewrite in_range_false.
Qed.

(** Case analysis on what the step's action returns. *)
Ltac case_action :=
  first [ destruct (Apply _ _ _) as [? ?] | destruct (Revert _ _ _) as [? ?] ].

(** The single-step handlers answer 400 exactly when the conversion of
    the step number succeeds: the guard on [err] is the wrong way round. *)
Theorem step_handlers_reject_numbers `{acts : !StepActions}
    (hs : HTTPServer sig) (c : ReqContext) (σ : Proc sig) :
  Forall
    (λ handler : HTTPServer sig → ReqContext → Handler (Proc sig) (Response sig),
       (∃ r, result (handler hs c σ) = Returned r ∧ status_of r = StatusBadRequest)
       ↔ (requested_step c).2 = None)
    [ApplyRecipeStep; RevertRecipeStep].
Proof.
  repeat apply List.Forall_cons; [| |apply List.Forall_nil];
    unfold requested_step, ApplyRecipeStep, RevertRecipeStep;
    (destruct (strconv.Atoi _) as [n [e|]]; simpl;
     [ split; [|done]; intros (r & Hr & Hst); exfalso;
       destruct (GetById _ _) as [recipe|];
       [ unfold bind in Hr; rewrite slice_index_spec in Hr;
         destruct (if _ : bool then _ else _) as [step|];
         [ unfold invoke in Hr; case_action; simpl in Hr; injection Hr as <-; discriminate Hst
         | discriminate Hr ]
       | injection Hr as <-; discriminate Hst ]
     | split; [done|]; intros _; eexists; split; [reflexivity|done] ]).
Qed.

(** The single-step handlers panic exactly when the conversion of the
    step number fails, the recipe is registered and the number left by
    the conversion is no index of its steps. *)
Theorem step_handlers_panic_iff `{acts : !StepActions}
    (hs : HTTPServer sig) (c : ReqContext) (σ : Proc sig) :
  Forall
    (λ handler : HTTPServer sig → ReqContext → Handler (Proc sig) (Response sig),
       (∃ p, result (handler hs c σ) = Panicked p)
       ↔ ∃ e recipe,
           (requested_step c).2 = Some e
           ∧ requested_recipe hs c = Some recipe
           ∧ ¬ (0 ≤ (requested_step c).1 < Z.of_nat (length (Steps recipe))))
    [ApplyRecipeStep; RevertRecipeStep].
Proof.
  repeat apply List.Forall_cons; [| |apply List.Forall_nil];
    unfold requested_step, requested_recipe, ApplyRecipeStep, RevertRecipeStep;
    (destruct (strconv.Atoi _) as [n [e|]]; simpl;
     [ destruct (GetById _ _) as [recipe|];
       [ unfold bind; rewrite slice_index_spec;
         destruct (decide (0 ≤ n < Z.of_nat (length (Steps recipe)))) as [Hin|Hout];
         [ destruct (slice_index_in_range (Steps recipe) n Hin) as [step ->];
           unfold invoke; case_action; simpl; split;
           [ intros [p [=]] | intros (? & ? & _ & [= <-] & Hn); done ]
         | rewrite (slice_index_out_of_range (Steps recipe) n Hout);
           split; [ intros _; eauto 6 | intros _; eexists; reflexivity ] ]
       | split; [ intros [p [=]] | intros (? & ? & _ & [=] & _) ] ]
     | split; [ intros [p [=]] | intros (? & ? & [=] & _) ] ]).
Qed.

End RecipeHandlers.

(** ** [renderDashboard] *)
Section RenderDashboard.
Import gort gostrings rendering.

Lemma append_String (a : ascii) (s t : string) :
  String a s +:+ t = String a (s +:+ t).
Proof. reflexivity. Qed.

Lemma append_Empty (t : string) : "" +:+ t = t.
Proof. reflexivity. Qed.

Lemma string_length_append (s t : string) :
  String.length (s +:+ t) = (String.length s + String.length t)%nat.
Proof.
  induction s as [|a s IH]; [done|].
  rewrite append_String. simpl. by rewrite IH.
Qed.

Lemma drop_bytes_append (s t : string) :
  drop_bytes (String.length s) (s +:+ t) = t.
Proof.
  induction s as [|a s IH]; [by destruct t|].
  rewrite append_String. simpl. exact IH.
Qed.

Lemma HasPrefix_spec (s p : string) :
  HasPrefix s p = true ↔ ∃ rest : string, s = p +:+ rest.
Proof.
  unfold HasPrefix. revert s. induction p as [|a p IH]; intros s.
  - simpl. destruct s; split; eauto.
  - destruct s as [|b s]; simpl.
    + split; [done|]. intros [rest Hrest]. by rewrite append_String in Hrest.
    + destruct (ascii_dec a b) as [->|Hne].
      * rewrite IH. split; intros [rest Hrest]; exists rest;
          rewrite append_String in *; congruence.
      * split; [done|]. intros [rest Hrest].
        rewrite append_String in Hrest. congruence.
Qed.

Lemma HasPrefix_occurrence (s substr after : string) :
  s = "" +:+ substr +:+ after → HasPrefix s substr = true.
Proof. rewrite append_Empty. intros ->. apply HasPrefix_spec. eauto. Qed.

Lemma not_Contains_cons (a : ascii) (s substr : string) :
  HasPrefix (String a s) substr = false →
  ¬ Contains s substr → ¬ Contains (String a s) substr.
Proof.
  intros Hpre Hs (before & after & Heq). destruct before as [|b before].
  - apply HasPrefix_occurrence in Heq. congruence.
  - rewrite append_String in Heq. injection Heq as -> ->.
    apply Hs. by exists before, after.
Qed.

(** [Index_from] finds the leftmost occurrence, or reports none. *)
Lemma Index_from_spec (substr : string) (s : string) : ∀ i : Z,
  (Index_from i s substr = -1 ∧ ¬ Contains s substr)
  ∨ ∃ before after : string,
      s = before +:+ substr +:+ after
      ∧ Index_from i s substr = i + Z.of_nat (String.length before)
      ∧ ∀ before' after' : string,
          s = before' +:+ substr +:+ after' →
          (String.length before ≤ String.length before')%nat.
Proof.
  induction s as [|a s IH]; intros i.
  - cbn [Index_from]. destruct (HasPrefix "" substr) eqn:Hpre.
    + right. apply HasPrefix_spec in Hpre as [rest Hrest].
      exists ""%string, rest. rewrite append_Empty. simpl.
      repeat split; [done|lia|lia].
    + left. split; [done|]. intros (before & after & Heq).
      destruct before; [|by rewrite append_String in Heq].
      apply HasPrefix_occurrence in Heq. congruence.
  - cbn [Index_from]. destruct (HasPrefix (String a s) substr) eqn:Hpre.
    + right. apply HasPrefix_spec in Hpre as [rest Hrest].
      exists ""%string, rest. rewrite append_Empty. simpl.
      repeat split; [done|lia|lia].
    + destruct (IH (i + 1)) as [[Hidx Hnone]|(before & after & Heq & Hidx & Hmin)].
      * left. split; [done|]. by apply not_Contains_cons.
      * right. exists (String a before), after. repeat split.
        -- rewrite append_String. by rewrite <- Heq.
        -- rewrite Hidx. simpl String.length. lia.
        -- intros before' after' Heq'. destruct before' as [|b before'].
           ++ apply HasPrefix_occurrence in Heq'. congruence.
           ++ rewrite append_String in Heq'. injection Heq' as -> Heq'.
              specialize (Hmin _ _ Heq'). simpl. lia.
Qed.

Lemma append_assoc (s t u : string) : (s +:+ t) +:+ u = s +:+ t +:+ u.
Proof.
  induction s as [|a s IH]; [done|]. rewrite !append_String. by rewrite IH.
Qed.

Context {RenderError : Type}.

Lemma renderDashboard_not_found (hs : HTTPServer RenderError)
    (dashboardURL : string) (σ : Proc) :
  Index dashboardURL "/d/" = -1 →
  renderDashboard hs dashboardURL σ
  = (Returned (""%string, Some (Errorf "Invalid dashboard url")), σ, []).
Proof. unfold renderDashboard. by intros ->. Qed.

Lemma renderDashboard_found (hs : HTTPServer RenderError)
    (dashboardURL before after : string) (σ : Proc) :
  dashboardURL = before +:+ "/d/" +:+ after →
  Index dashboardURL "/d/" = Z.of_nat (String.length before) →
  drop_bytes (Z.to_nat (Index dashboardURL "/d/" + 1)) dashboardURL = "d/" +:+ after
  ∧ renderDashboard hs dashboardURL σ
    = (Returned
         (let out := RenderService_Render hs (dashboard_opts hs ("d/" +:+ after)) in
          match out.2 with
          | Some err => (""%string, Some (FromRender err))
          | None => (FilePath out.1, None)
          end),
       {| stdout := stdout σ ++ ["d/" +:+ after];
          rendered := rendered σ ++ [dashboard_opts hs ("d/" +:+ after)] |},
       []).
Proof.
  intros Heq Hidx.
  assert (drop_bytes (Z.to_nat (Index dashboardURL "/d/" + 1)) dashboardURL
          = "d/" +:+ after) as Hdrop.
  { rewrite Hidx.
    replace (Z.to_nat (Z.of_nat (String.length before) + 1))
      with (String.length (before +:+ "/"))
      by (rewrite string_length_append; simpl; lia).
    rewrite <- (drop_bytes_append (before +:+ "/") ("d/" +:+ after)).
    f_equal. rewrite Heq. by rewrite append_assoc. }
  split; [done|].
  unfold renderDashboard. fold (dashboard_opts hs).
  unfold bind at 1. unfold slice_from. rewrite Hdrop. rewrite Hidx.
  destruct (Z.eqb_spec (Z.of_nat (String.length before)) (-1)) as [?|_]; [lia|].
  assert ((0 <=? Z.of_nat (String.length before) + 1)
          && (Z.of_nat (String.length before) + 1
              <=? Z.of_nat (String.length dashboardURL)) = true) as ->.
  { apply andb_true_iff. split; [apply Z.leb_le; lia|].
    apply Z.leb_le. rewrite Heq, !string_length_append. simpl. lia. }
  unfold dashboard_opts, bind, Println, Render, modify, ret. simpl.
  by destruct (RenderService_Render hs _) as [res [err|]].
Qed.

(** C10: [renderDashboard] returns the error "Invalid dashboard url"
    exactly when the URL has no occurrence of "/d/", and then it asks
    nothing of the render service.  When the URL has one, let [before]
    be what precedes the leftmost occurrence: the function does not
    panic and makes one render request, whose path is the URL from one
    byte past the index of "/d/" on, that is, "d/" and all that follows
    it. *)
Theorem renderDashboard_path (hs : HTTPServer RenderError)
    (dashboardURL : string) (σ : Proc) :
  (result (renderDashboard hs dashboardURL σ)
     = Returned (""%string, Some (Errorf "Invalid dashboard url"))
   ↔ ¬ Contains dashboardURL "/d/")
  ∧ (¬ Contains dashboardURL "/d/" →
     rendered (final (renderDashboard hs dashboardURL σ)) = rendered σ)
  ∧ (Contains dashboardURL "/d/" →
     ∃ before after : string,
       dashboardURL = before +:+ "/d/" +:+ after
       ∧ (∀ before' after' : string,
            dashboardURL = before' +:+ "/d/" +:+ after' →
            (String.length before ≤ String.length before')%nat)
       ∧ Index dashboardURL "/d/" = Z.of_nat (String.length before)
       ∧ drop_bytes (Z.to_nat (Index dashboardURL "/d/" + 1)) dashboardURL
         = "d/" +:+ after
       ∧ rendered (final (renderDashboard hs dashboardURL σ))
         = rendered σ ++ [dashboard_opts hs ("d/" +:+ after)]
       ∧ ∃ out, result (renderDashboard hs dashboardURL σ) = Returned out).
Proof.
  destruct (Index_from_spec "/d/" dashboardURL 0)
    as [[Hidx Hnone]|(before & after & Heq & Hidx & Hmin)].
  - rewrite (renderDashboard_not_found hs dashboardURL σ Hidx).
    repeat split; done.
  - rewrite Z.add_0_l in Hidx.
    assert (Contains dashboardURL "/d/") as Hin by (by exists before, after).
    destruct (renderDashboard_found hs dashboardURL before after σ Heq Hidx)
      as [Hdrop ->].
    split; [|split; [done|]].
    + split; [|done]. unfold result. simpl.
      by destruct (RenderService_Render hs _) as [res [err|]].
    + intros _. exists before, after. repeat split; eauto.
Qed.

End RenderDashboard.

(** ** [SceneItemBase.setState] *)
Section SceneItems.
Import scene.

Lemma same_view_refl (h : gmap loc Obj) : same_view h h.
Proof. by intros l. Qed.

Lemma same_view_trans (h1 h2 h3 : gmap loc Obj) :
  same_view h1 h2 → same_view h2 h3 → same_view h1 h3.
Proof. intros H12 H23 l. by rewrite H12. Qed.

Lemma same_view_insert (h : gmap loc Obj) (l : loc) (o o' : Obj) :
  h !! l = Some o → view o' = view o → same_view h (<[l := o']> h).
Proof.
  intros Hl Hview l'. destruct (decide (l = l')) as [<-|Hne].
  - rewrite lookup_insert_eq, Hl. simpl. by rewrite Hview.
  - by rewrite lookup_insert_ne.
Qed.

Lemma same_view_item (h h' : gmap loc Obj) (l : loc) (it : SceneItem) :
  same_view h h' → item_at h l = Some it →
  ∃ it', item_at h' l = Some it' ∧ state it' = state it ∧ subject it' = subject it.
Proof.
  unfold item_at. intros Hsame Hit. specialize (Hsame l).
  destruct (h !! l) as [[it0|]|]; simplify_eq.
  destruct (h' !! l) as [[it'|]|]; simplify_eq/=.
  exists it'. by repeat split.
Qed.

Lemma same_view_array (h h' : gmap loc Obj) (l : loc) (elems : list Value)
    (props : gmap string Value) :
  same_view h h' → h !! l = Some (OOther (Some elems) props) →
  ∃ props', h' !! l = Some (OOther (Some elems) props').
Proof.
  intros Hsame Hl. specialize (Hsame l). rewrite Hl in Hsame.
  destruct (h' !! l) as [[it'|elems' props']|]; simplify_eq/=. eauto.
Qed.

(** [target.parent = this] completes on every reference and touches
    neither a state, nor a subject, nor the elements of an array. *)
Lemma assign_parent_ref (l this : loc) (h : gmap loc Obj) :
  ∃ h', assign_parent (VRef l) this h = (Normal tt, h') ∧ same_view h h'.
Proof.
  unfold assign_parent. destruct (h !! l) as [[it|elems props]|] eqn:Hl.
  - eexists. split; [done|]. by eapply same_view_insert.
  - eexists. split; [done|]. by eapply same_view_insert.
  - eexists. split; [done|]. apply same_view_refl.
Qed.

Lemma instanceof_is_ref (h : gmap loc Obj) (v : Value) :
  instanceof_SceneItemBase h v = true → ∃ l, v = VRef l.
Proof. destruct v; simpl; try done. eauto. Qed.

Lemma setParent_values (this : loc) (vs : list Value) (h : gmap loc Obj) :
  ∃ h',
    for_of vs
      (λ propValue,
         let* is_item := instanceof propValue in
         if is_item then assign_parent propValue this else ret tt)%js h
    = (Normal tt, h')
    ∧ same_view h h'.
Proof.
  revert h. induction vs as [|v vs IH]; intros h.
  - exists h. split; [done|apply same_view_refl].
  - simpl. unfold bind at 1. unfold bind at 1. unfold instanceof at 1.
    destruct (instanceof_SceneItemBase h v) eqn:Hinst.
    + apply instanceof_is_ref in Hinst as [l ->].
      destruct (assign_parent_ref l this h) as (h1 & -> & H1).
      destruct (IH h1) as (h' & -> & H'). exists h'.
      split; [done|by eapply same_view_trans].
    + unfold ret at 1. apply IH.
Qed.

Lemma setParent_children (this : loc) (elems : list Value) (h : gmap loc Obj) :
  forallb (λ child, match child with VRef _ => true | _ => false end) elems = true →
  ∃ h', for_of elems (λ child, assign_parent child this) h = (Normal tt, h')
      ∧ same_view h h'.
Proof.
  revert h. induction elems as [|child elems IH]; intros h Hall.
  - exists h. split; [done|apply same_view_refl].
  - simpl in Hall. apply andb_true_iff in Hall as [Hchild Hall].
    destruct child as [| | | | |l]; try done.
    simpl. unfold bind at 1.
    destruct (assign_parent_ref l this h) as (h1 & -> & H1).
    destruct (IH h1 Hall) as (h' & -> & H'). exists h'.
    split; [done|by eapply same_view_trans].
Qed.

(** On well-formed children [setParent] completes, and it leaves every
    state and every subject as they were. *)
Lemma setParent_completes (this : loc) (it : SceneItem) (h : gmap loc Obj) :
  item_at h this = Some it →
  children_well_formed h (state it) = true →
  ∃ h', setParent this h = (Normal tt, h') ∧ same_view h h'.
Proof.
  intros Hit Hwf. unfold setParent.
  unfold bind at 1. unfold get_item at 1.
  pose proof Hit as Hthis. unfold item_at in Hthis.
  destruct (h !! this) as [[it0|]|] eqn:Hl; simplify_eq.
  unfold bind at 1.
  destruct (setParent_values this (Object_values (state it)) h) as (h1 & -> & H1).
  destruct (same_view_item h h1 this it H1 Hit) as (it1 & Hit1 & Hst1 & _).
  unfold bind at 1. unfold get_item at 1.
  unfold item_at in Hit1.
  destruct (h1 !! this) as [[it1'|]|] eqn:Hl1; simplify_eq.
  rewrite Hst1. unfold children_well_formed in Hwf.
  destruct (truthy (default VUndefined (state it !! "children"))) eqn:Htruthy.
  - destruct (default VUndefined (state it !! "children")) as [| | | | |l]; try done.
    destruct (h !! l) as [[?|[elems|] props]|] eqn:Harr; try done.
    destruct (same_view_array h h1 l elems props H1 Harr) as [props' Harr1].
    unfold bind at 1. unfold iterate. rewrite Harr1.
    destruct (setParent_children this elems h1 Hwf) as (h' & -> & H').
    exists h'. split; [done|by eapply same_view_trans].
  - exists h1. split; [done|exact H1].
Qed.

(** C9 (amended): when the children of the merged state are well formed
    (falsy, or an array of objects), [setState] completes; the item's
    state becomes the merge, in which a property that [new_state] has
    takes its value there and any other property keeps its value; and
    the merge is the value the subject emits next: it is appended to the
    buffer and to what every subscriber has received. *)
Theorem setState_merges_and_emits (h : gmap loc Obj) (this : loc)
    (it : SceneItem) (new_state : gmap string Value) :
  item_at h this = Some it →
  children_well_formed h (new_state ∪ state it) = true →
  ∃ h' it',
    setState this new_state h = (Normal tt, h')
    ∧ item_at h' this = Some it'
    ∧ state it' = new_state ∪ state it
    ∧ (∀ k v, new_state !! k = Some v → state it' !! k = Some v)
    ∧ (∀ k, new_state !! k = None → state it' !! k = state it !! k)
    ∧ buffer (subject it') = buffer (subject it) ++ [new_state ∪ state it]
    ∧ inboxes (subject it')
      = map (λ inbox, inbox ++ [new_state ∪ state it]) (inboxes (subject it)).
Proof.
  intros Hit Hwf. unfold setState.
  unfold bind at 1. unfold get_item at 1.
  pose proof Hit as Hthis. unfold item_at in Hthis.
  destruct (h !! this) as [[it0|]|] eqn:Hl; simplify_eq.
  unfold bind at 1. unfold put_item at 1.
  set (merged := new_state ∪ state it) in *.
  set (it1 := {| subject := subject it; state := merged; parent := parent it |}).
  set (h1 := <[this := OItem it1]> h).
  assert (item_at h1 this = Some it1) as Hit1.
  { unfold item_at, h1. by rewrite lookup_insert_eq. }
  assert (children_well_formed h1 (state it1) = true) as Hwf1.
  { unfold children_well_formed in *. simpl.
    destruct (truthy (default VUndefined (merged !! "children"))); [|done].
    destruct (default VUndefined (merged !! "children")) as [| | | | |l]; try done.
    destruct (decide (this = l)) as [<-|Hne].
    - by rewrite Hl in Hwf.
    - unfold h1. by rewrite lookup_insert_ne. }
  destruct (setParent_completes this it1 h1 Hit1 Hwf1) as (h2 & Hrun & H2).
  unfold bind at 1. rewrite Hrun.
  destruct (same_view_item h1 h2 this it1 H2 Hit1) as (it2 & Hit2 & Hst2 & Hsub2).
  unfold bind at 1. unfold get_item at 1.
  unfold item_at in Hit2.
  destruct (h2 !! this) as [[it2'|]|] eqn:Hl2; simplify_eq.
  unfold put_item. eexists _, _. split; [reflexivity|].
  unfold item_at. rewrite lookup_insert_eq. split; [reflexivity|].
  simpl. rewrite Hst2, Hsub2. simpl.
  repeat split.
  - intros k v Hk. unfold merged. by apply lookup_union_Some_l.
  - intros k Hk. unfold merged. by apply lookup_union_r.
Qed.

End SceneItems.

(** ** The handlers on the concrete registry *)

Import gort recipes demo.

(** On the recipe ["enable-foo"], from the process as it boots: the two
    steps are applied in order, both succeed, and both are in the world
    at the end. *)
Lemma InstallRecipe_applies_in_order_witness :
  requested_recipe hs (req "enable-foo") = Some enable_foo
  ∧ ∃ g, started (InstallRecipe hs (req "enable-foo") boot) = [g]
       ∧ calls_added g boot
         = [ MkCall KApply "install-foo" (req "enable-foo") StepDone;
             MkCall KApply "enable-foo-ui" (req "enable-foo") StepDone ]
       ∧ world (run_goroutine g boot) = ["install-foo"; "enable-foo-ui"].
Proof.
  split; [vm_compute; reflexivity|].
  destruct (InstallRecipe_applies_in_order hs (req "enable-foo") boot enable_foo)
    as (_ & g & Hg & Hrun); [vm_compute; reflexivity|].
  exists g. split; [exact Hg|].
  destruct (Hrun boot) as (_ & Htargets & Hworld & _ & Heach).
  split; [|rewrite Hworld; vm_compute; reflexivity].
  pose proof (Heach 0%nat "install-foo" eq_refl) as H0.
  pose proof (Heach 1%nat "enable-foo-ui" eq_refl) as H1.
  apply (f_equal length) in Htargets. rewrite !length_map in Htargets.
  destruct (calls_added g boot) as [|c0 [|c1 [|c2 rest]]]; try discriminate Htargets.
  simpl in H0, H1. injection H0 as ->. injection H1 as ->.
  vm_compute. reflexivity.
Defined.

(** C3, refuted as worded: on the recipe ["enable-foo"] the goroutine of
    [UninstallRecipe] reverts ["install-foo"] before ["enable-foo-ui"],
    which is not the descending order. *)
Lemma UninstallRecipe_descending_counterexample :
  requested_recipe hs (req "enable-foo") = Some enable_foo
  ∧ ¬ reverts_in_descending_order hs (req "enable-foo") boot enable_foo.
Proof.
  split; [vm_compute; reflexivity|].
  intros (g & Hg & Hmap). injection Hg as <-.
  vm_compute in Hmap. discriminate Hmap.
Qed.

(** On the recipe ["enable-foo"], from a process in which both steps are
    applied: they are reverted first step first, both reverts succeed,
    and the world at the end has neither. *)
Lemma UninstallRecipe_reverts_in_ascending_order_witness :
  let installed := {| world := ["install-foo"; "enable-foo-ui"]; calls := [] |} in
  requested_recipe hs (req "enable-foo") = Some enable_foo
  ∧ ∃ g, started (UninstallRecipe hs (req "enable-foo") installed) = [g]
       ∧ calls_added g installed
         = [ MkCall KRevert "install-foo" (req "enable-foo") StepDone;
             MkCall KRevert "enable-foo-ui" (req "enable-foo") StepDone ]
       ∧ world (run_goroutine g installed) = [].
Proof.
  intros installed. split; [vm_compute; reflexivity|].
  destruct (UninstallRecipe_reverts_in_ascending_order hs (req "enable-foo") installed
              enable_foo) as (_ & g & Hg & Hrun); [vm_compute; reflexivity|].
  exists g. split; [exact Hg|].
  destruct (Hrun installed) as (_ & Htargets & Hworld & _ & Heach).
  split; [|rewrite Hworld; vm_compute; reflexivity].
  pose proof (Heach 0%nat "install-foo" eq_refl) as H0.
  pose proof (Heach 1%nat "enable-foo-ui" eq_refl) as H1.
  apply (f_equal length) in Htargets. rewrite !length_map in Htargets.
  destruct (calls_added g installed) as [|c0 [|c1 [|c2 rest]]];
    try discriminate Htargets.
  simpl in H0, H1. injection H0 as ->. injection H1 as ->.
  vm_compute. reflexivity.
Defined.

(** On the recipe ["fragile"] the first step fails and the second is
    applied all the same, and is in the world at the end. *)
Lemma whole_recipe_calls_every_step_witness :
  requested_recipe hs (req "fragile") = Some fragile
  ∧ ∃ g, started (InstallRecipe hs (req "fragile") boot) = [g]
       ∧ calls_added g boot !! 0%nat
         = Some (MkCall KApply "broken" (req "fragile") (StepFailed "cannot be applied"))
       ∧ calls_added g boot !! 1%nat
         = Some (MkCall KApply "after-broken" (req "fragile") StepDone)
       ∧ world (run_goroutine g boot) = ["after-broken"].
Proof.
  split; [vm_compute; reflexivity|].
  destruct (whole_recipe_calls_every_step hs (req "fragile") boot fragile)
    as [(g & Hg & Hrun) _]; [vm_compute; reflexivity|].
  exists g. split; [exact Hg|].
  destruct (Hrun boot) as (_ & Heach & Hworld).
  rewrite (Heach 0%nat "broken" eq_refl), (Heach 1%nat "after-broken" eq_refl), Hworld.
  repeat split; vm_compute; reflexivity.
Defined.



(** C1: the index is not checked.  With a step number too large for an
    [int], [Atoi] fails and leaves the largest [int]; the guard lets a
    failed conversion through, and indexing the two steps of
    ["enable-foo"] panics, in [ApplyRecipeStep] and in [RevertRecipeStep].
    So does indexing the steps of the recipe ["empty"] with the 0 that a
    non-numeric step number leaves. *)
Theorem step_index_out_of_range_panics :
  result (ApplyRecipeStep hs (step_req "enable-foo" "9223372036854775808") boot)
  = Panicked (IndexOutOfRange 9223372036854775807 2)
  ∧ result (RevertRecipeStep hs (step_req "enable-foo" "9223372036854775808") boot)
    = Panicked (IndexOutOfRange 9223372036854775807 2)
  ∧ result (ApplyRecipeStep hs (step_req "empty" "first") boot)
    = Panicked (IndexOutOfRange 0 0).
Proof. repeat split; vm_compute; reflexivity. Qed.

(** C2: the guard is inverted.  The numeric step number ["0"] is answered
    with 400 by [ApplyRecipeStep] and by [RevertRecipeStep], and the
    non-numeric ["first"] is not: the handler goes on with step 0. *)
Theorem numeric_step_number_is_rejected :
  result (ApplyRecipeStep hs (step_req "enable-foo" "0") boot)
  = Returned (Error StatusBadRequest "The step number needs to be an number" None)
  ∧ result (RevertRecipeStep hs (step_req "enable-foo" "0") boot)
    = Returned (Error StatusBadRequest "The step number needs to be an number" None)
  ∧ result (ApplyRecipeStep hs (step_req "enable-foo" "first") boot)
    = Returned (JSON StatusOK (BodyStep ("install-foo", true))).
Proof. repeat split; vm_compute; reflexivity. Qed.

(** ** [setState] on the concrete scene *)

Example panel_on_heap : scene.item_at scene_demo.heap 1%positive = Some scene_demo.panel.
Proof. vm_compute. reflexivity. Qed.

(** C9, refuted as worded: with [{ children: [undefined] }] the state is
    replaced, [setParent] throws on the undefined child, and the subject
    emits nothing. *)
Lemma setState_undefined_child_counterexample :
  ¬ scene.setState_emits_merge scene_demo.heap 1%positive scene_demo.undefined_child.
Proof.
  intros Hclaim.
  destruct (Hclaim scene_demo.panel panel_on_heap) as (h' & it' & Hrun & _).
  vm_compute in Hrun. discriminate Hrun.
Qed.

Example setState_undefined_child_throws :
  (scene.setState 1%positive scene_demo.undefined_child scene_demo.heap).1
  = scene.Throw (scene.TypeError "Cannot set properties of undefined or null")
  ∧ scene.buffer <$> (scene.subject <$>
      scene.item_at (scene.setState 1%positive scene_demo.undefined_child scene_demo.heap).2 1%positive)
    = Some [scene_demo.panel_state].
Proof. split; vm_compute; reflexivity. Qed.

Lemma setState_merges_and_emits_witness :
  scene.item_at scene_demo.heap 1%positive = Some scene_demo.panel
  ∧ scene.children_well_formed scene_demo.heap
      (scene_demo.resize_with_row ∪ scene_demo.panel_state) = true
  ∧ ∃ h' it',
      scene.setState 1%positive scene_demo.resize_with_row scene_demo.heap = (scene.Normal tt, h')
      ∧ scene.item_at h' 1%positive = Some it'
      ∧ scene.state it' !! "title" = Some (scene.VString "cpu")
      ∧ scene.state it' !! "size" = Some (scene.VNumber 5)
      ∧ scene.inboxes (scene.subject it')
        = [[scene_demo.panel_state;
            scene_demo.resize_with_row ∪ scene_demo.panel_state]].
Proof.
  split; [vm_compute; reflexivity|]. split; [vm_compute; reflexivity|].
  destruct (setState_merges_and_emits scene_demo.heap 1%positive scene_demo.panel
              scene_demo.resize_with_row)
    as (h' & it' & Hrun & Hit' & _ & Hnew & Hold & _ & Hin);
    [vm_compute; reflexivity|vm_compute; reflexivity|].
  exists h', it'. split; [exact Hrun|]. split; [exact Hit'|].
  split; [|split].
  - rewrite (Hold "title"); [|vm_compute; reflexivity]. vm_compute. reflexivity.
  - apply Hnew. vm_compute. reflexivity.
  - exact Hin.
Defined.

(** ** [renderDashboard] on concrete URLs *)

Example renderDashboard_rawURL :
  rendering.renderDashboard render_demo.hs render_demo.rawURL render_demo.boot
  = (Returned
       ("/img/d/RvNCUVm4z/dashboard-with-expressions?orgId=1&from=1704891104021&to=1704912704021&width=1000&height=500&tz=America%2FBuenos_Aires",
        None),
     {| rendering.stdout :=
          ["d/RvNCUVm4z/dashboard-with-expressions?orgId=1&from=1704891104021&to=1704912704021&width=1000&height=500&tz=America%2FBuenos_Aires"];
        rendering.rendered :=
          [rendering.dashboard_opts render_demo.hs
             "d/RvNCUVm4z/dashboard-with-expressions?orgId=1&from=1704891104021&to=1704912704021&width=1000&height=500&tz=America%2FBuenos_Aires"] |},
     []).
Proof. vm_compute. reflexivity. Qed.

Example renderDashboard_no_dashboard :
  rendering.renderDashboard render_demo.hs "http://localhost:3000/render/dashboards" render_demo.boot
  = (Returned (""%string, Some (rendering.Errorf "Invalid dashboard url")),
     render_demo.boot, []).
Proof. vm_compute. reflexivity. Qed.

(** The path starts inside the leftmost "/d/", also when the URL has "d/"
    earlier on. *)
Example renderDashboard_earlier_d :
  rendering.Path <$> rendering.rendered
    (final (rendering.renderDashboard render_demo.hs "http://prod/d/abc" render_demo.boot))
  = ["d/abc"%string].
Proof. vm_compute. reflexivity. Qed.

(** ** [Atoi] on concrete strings *)

Example Atoi_7 : strconv.Atoi "7" = (7, None).
Proof. reflexivity. Qed.
Example Atoi_neg : strconv.Atoi "-12" = (-12, None).
Proof. reflexivity. Qed.
Example Atoi_abc : strconv.Atoi "abc" = (0, Some strconv.ErrSyntax).
Proof. reflexivity. Qed.
Example Atoi_empty : strconv.Atoi "" = (0, Some strconv.ErrSyntax).
Proof. reflexivity. Qed.
Example Atoi_big :
  strconv.Atoi "9223372036854775808" = (9223372036854775807, Some strconv.ErrRange).
Proof. vm_compute. reflexivity. Qed.
Example Atoi_max :
  strconv.Atoi "9223372036854775807" = (9223372036854775807, None).
Proof. vm_compute. reflexivity. Qed.
Example Atoi_min :
  strconv.Atoi "-9223372036854775808" = (-9223372036854775808, None).
Proof. vm_compute. reflexivity. Qed.
Example Atoi_huge :
  strconv.Atoi "-99999999999999999999999" = (-9223372036854775808, Some strconv.ErrRange).
Proof. vm_compute. reflexivity. Qed.

(** * Further properties *)

(** ** The scene graph *)
Section SceneGraph.
Import scene scene_graph.

Lemma preserves_ret {A} (a : A) : preserves (scene.ret a).
Proof. intros h. apply same_view_refl. Qed.

Lemma preserves_bind {A B} (m : JS A) (k : A → JS B) :
  preserves m → (∀ a, preserves (k a)) → preserves (scene.bind m k).
Proof.
  intros Hm Hk h. unfold scene.bind. specialize (Hm h).
  destruct (m h) as [[a|e] h1]; simpl in *; [|done].
  eapply same_view_trans; [exact Hm|apply Hk].
Qed.

Lemma preserves_for_of {A} (xs : list A) (body : A → JS unit) :
  (∀ x, preserves (body x)) → preserves (for_of xs body).
Proof.
  intros Hbody. induction xs as [|x xs IH]; simpl.
  - apply preserves_ret.
  - apply preserves_bind; [apply Hbody|done].
Qed.

Lemma preserves_assign_parent (v : Value) (this : loc) :
  preserves (assign_parent v this).
Proof.
  intros h. destruct v as [| | | | |l]; simpl; try apply same_view_refl.
  destruct (h !! l) as [[it|elems props]|] eqn:Hl; simpl.
  - by eapply same_view_insert.
  - by eapply same_view_insert.
  - apply same_view_refl.
Qed.

Lemma preserves_get_item (this : loc) : preserves (get_item this).
Proof.
  intros h. unfold get_item.
  destruct (h !! this) as [[it|]|]; apply same_view_refl.
Qed.

Lemma preserves_iterate (v : Value) : preserves (iterate v).
Proof.
  intros h. unfold iterate. destruct v as [| | | | |l]; simpl; try apply same_view_refl.
  destruct (h !! l) as [[it|[elems|] props]|]; apply same_view_refl.
Qed.

(** [setParent] changes no state and no subject, however it ends. *)
Lemma preserves_setParent (this : loc) : preserves (setParent this).
Proof.
  unfold setParent. apply preserves_bind; [apply preserves_get_item|]. intros it.
  apply preserves_bind.
  - apply preserves_for_of. intros v. apply preserves_bind.
    + intros h. apply same_view_refl.
    + intros [|]; [apply preserves_assign_parent|apply preserves_ret].
  - intros _. apply preserves_bind; [apply preserves_get_item|]. intros it'.
    destruct (truthy _); [|apply preserves_ret].
    apply preserves_bind; [apply preserves_iterate|]. intros elems.
    apply preserves_for_of. intros child. apply preserves_assign_parent.
Qed.

(** What [setState] does in every case: the state of the item becomes the
    merge; the subject emits the merge when the call completes and is left
    alone when it throws. *)
Lemma setState_outcome (h : gmap loc Obj) (this : loc) (it : SceneItem)
    (new_state : gmap string Value) :
  item_at h this = Some it →
  ∃ it',
    item_at (setState this new_state h).2 this = Some it'
    ∧ state it' = new_state ∪ state it
    ∧ subject it'
      = match (setState this new_state h).1 with
        | Normal _ => next (subject it) (new_state ∪ state it)
        | Throw _ => subject it
        end.
Proof.
  intros Hit.
  destruct (setState this new_state h) as [c h'] eqn:Hstate. simpl.
  unfold setState in Hstate.
  unfold scene.bind at 1 in Hstate. unfold get_item at 1 in Hstate.
  pose proof Hit as Hthis. unfold item_at in Hthis.
  destruct (h !! this) as [[it0|]|] eqn:Hl; simplify_eq.
  unfold scene.bind at 1 in Hstate. unfold put_item at 1 in Hstate.
  set (it1 := {| subject := subject it; state := new_state ∪ state it;
                 parent := parent it |}) in *.
  set (h1 := <[this := OItem it1]> h) in *.
  assert (item_at h1 this = Some it1) as Hit1.
  { unfold item_at, h1. by rewrite lookup_insert_eq. }
  pose proof (preserves_setParent this h1) as Hsame.
  unfold scene.bind at 1 in Hstate.
  destruct (setParent this h1) as [[[]|e] h2] eqn:Hrun; simpl in Hsame;
    destruct (same_view_item h1 h2 this it1 Hsame Hit1) as (it2 & Hit2 & Hst2 & Hsub2).
  - unfold scene.bind at 1 in Hstate. unfold get_item at 1 in Hstate.
    pose proof Hit2 as Hl2. unfold item_at in Hl2.
    destruct (h2 !! this) as [[it2'|]|]; simplify_eq.
    unfold put_item in Hstate. injection Hstate as <- <-.
    eexists. unfold item_at. rewrite lookup_insert_eq.
    split; [reflexivity|]. simpl. by rewrite Hst2, Hsub2.
  - injection Hstate as <- <-. exists it2. by repeat split.
Qed.

Lemma setState_unfold (h : gmap loc Obj) (this : loc) (it : SceneItem)
    (new_state : gmap string Value) :
  item_at h this = Some it →
  setState this new_state h
  = match setParent this (with_state h this it (new_state ∪ state it)) with
    | (Normal _, h2) =>
        match item_at h2 this with
        | Some it2 => (Normal tt, emitted h2 this it2)
        | None => (Throw (TypeError "this is not a scene item"), h2)
        end
    | (Throw e, h2) => (Throw e, h2)
    end.
Proof.
  intros Hit. unfold setState, with_state, emitted.
  unfold scene.bind at 1. unfold get_item at 1.
  unfold item_at in Hit. destruct (h !! this) as [[it0|]|] eqn:Hl; simplify_eq.
  unfold scene.bind at 1. unfold put_item at 1. unfold scene.bind at 1.
  destruct (setParent this _) as [[[]|e] h2]; [|done].
  unfold scene.bind, get_item, item_at, put_item.
  by destruct (h2 !! this) as [[it2|]|].
Qed.

Lemma same_view_is_item (h h' : gmap loc Obj) (l : loc) :
  same_view h h' → is_item h l → is_item h' l.
Proof.
  intros Hsame [it Hit].
  destruct (same_view_item h h' l it Hsame Hit) as (it' & Hit' & _). by exists it'.
Qed.

Lemma maintains_ret {A} P (a : A) : maintains P (scene.ret a).
Proof. by intros h. Qed.

Lemma maintains_bind {A B} P (m : JS A) (k : A → JS B) :
  maintains P m → (∀ a, maintains P (k a)) → maintains P (scene.bind m k).
Proof.
  intros Hm Hk h HP. unfold scene.bind. specialize (Hm h HP).
  destruct (m h) as [[a|e] h1]; simpl in *; [by apply Hk|done].
Qed.

Lemma maintains_for_of {A} P (xs : list A) (body : A → JS unit) :
  (∀ x, maintains P (body x)) → maintains P (for_of xs body).
Proof.
  intros Hbody. induction xs as [|x xs IH]; simpl.
  - apply maintains_ret.
  - apply maintains_bind; [apply Hbody|done].
Qed.

(** Once [this] is the parent of [l], no assignment [child.parent = this]
    undoes it. *)
Lemma assign_parent_keeps_adopted (v : Value) (this l : loc) :
  maintains (λ h, adopted h this l) (assign_parent v this).
Proof.
  intros h (it & Hit & Hparent). unfold adopted, item_at in *.
  destruct v as [| | | | |l']; simpl; try (by exists it).
  destruct (h !! l') as [[it'|elems props]|] eqn:Hl'; simpl; try (by exists it).
  - destruct (decide (l' = l)) as [->|Hne].
    + rewrite lookup_insert_eq. by eexists.
    + rewrite lookup_insert_ne by done. by exists it.
  - destruct (decide (l' = l)) as [->|Hne].
    + by rewrite Hl' in Hit.
    + rewrite lookup_insert_ne by done. by exists it.
Qed.

Lemma assign_parent_adopts (this l : loc) (h : gmap loc Obj) :
  is_item h l → adopted (assign_parent (VRef l) this h).2 this l.
Proof.
  intros [it Hit]. unfold adopted, item_at in *. simpl.
  destruct (h !! l) as [[it'|]|] eqn:Hl; simplify_eq. simpl.
  rewrite lookup_insert_eq. by eexists.
Qed.

(** The first loop of [setParent] adopts every scene item among the
    values it goes through. *)
Lemma values_loop_adopts (this l : loc) (vs : list Value) : ∀ h,
  VRef l ∈ vs → is_item h l →
  adopted
    (for_of vs
       (λ propValue,
          let* is_item := instanceof propValue in
          if is_item then assign_parent propValue this else scene.ret tt)%js h).2
    this l.
Proof.
  induction vs as [|v vs IH]; intros h Hin Hitem; [by apply elem_of_nil in Hin|].
  assert (preserves
            (let* is_item := instanceof v in
             if is_item then assign_parent v this else scene.ret tt)%js) as Hpres.
  { apply preserves_bind; [intros h0; apply same_view_refl|].
    intros [|]; [apply preserves_assign_parent|apply preserves_ret]. }
  simpl. unfold scene.bind at 1.
  destruct ((let* is_item := instanceof v in
             if is_item then assign_parent v this else scene.ret tt)%js h)
    as [[[]|e] h1] eqn:Hbody.
  - apply elem_of_cons in Hin as [<-|Hin].
    + apply (maintains_for_of (λ h, adopted h this l)).
      * intros x. apply maintains_bind; [by intros h0|].
        intros [|]; [apply assign_parent_keeps_adopted|apply maintains_ret].
      * unfold scene.bind, instanceof in Hbody. simpl in Hbody.
        destruct Hitem as [it Hit]. unfold item_at in Hit.
        destruct (h !! l) as [[it'|]|] eqn:Hl; simplify_eq.
        assert (is_item h l) as Hitem.
        { unfold is_item, item_at. rewrite Hl. by eexists. }
        pose proof (assign_parent_adopts this l h Hitem) as Had.
        by rewrite Hbody in Had.
    + apply IH; [done|]. eapply same_view_is_item; [|done].
      specialize (Hpres h). by rewrite Hbody in Hpres.
  - exfalso. unfold scene.bind, instanceof in Hbody.
    destruct (instanceof_SceneItemBase h v) eqn:Hinst.
    + apply instanceof_is_ref in Hinst as [l' ->].
      destruct (assign_parent_ref l' this h) as (h'' & Heq & _). congruence.
    + done.
Qed.

(** The second loop adopts every scene item among the children. *)
Lemma children_loop_adopts (this l : loc) (elems : list Value) : ∀ h,
  VRef l ∈ elems → is_item h l →
  forallb (λ child, match child with VRef _ => true | _ => false end) elems = true →
  adopted (for_of elems (λ child, assign_parent child this) h).2 this l.
Proof.
  induction elems as [|child elems IH]; intros h Hin Hitem Hall;
    [by apply elem_of_nil in Hin|].
  simpl in Hall. apply andb_true_iff in Hall as [Hchild Hall].
  destruct child as [| | | | |l']; try done.
  simpl. unfold scene.bind at 1.
  destruct (assign_parent_ref l' this h) as (h1 & Hrun & Hsame). rewrite Hrun.
  apply elem_of_cons in Hin as [[= <-]|Hin].
  - apply (maintains_for_of (λ h, adopted h this l)).
    + intros x. apply assign_parent_keeps_adopted.
    + pose proof (assign_parent_adopts this l h Hitem) as Had. by rewrite Hrun in Had.
  - apply IH; [done| |done]. by eapply same_view_is_item.
Qed.

Lemma Object_values_lookup (st : gmap string Value) (v : Value) :
  v ∈ Object_values st ↔ ∃ k, st !! k = Some v.
Proof.
  unfold Object_values. rewrite list_elem_of_fmap. split.
  - intros ([k v'] & -> & Hin). exists k. by apply elem_of_map_to_list.
  - intros [k Hk]. exists (k, v). split; [done|]. by apply elem_of_map_to_list.
Qed.

Lemma setParent_adopts (this l : loc) (it : SceneItem) (h h' : gmap loc Obj) :
  item_at h this = Some it →
  children_well_formed h (state it) = true →
  setParent this h = (Normal tt, h') →
  VRef l ∈ Object_values (state it) ∨ VRef l ∈ children_of h (state it) →
  is_item h l →
  adopted h' this l.
Proof.
  intros Hit Hwf Hrun Hin Hitem. unfold setParent in Hrun.
  unfold scene.bind at 1 in Hrun. unfold get_item at 1 in Hrun.
  pose proof Hit as Hthis. unfold item_at in Hthis.
  destruct (h !! this) as [[it0|]|] eqn:Hl; simplify_eq.
  unfold scene.bind at 1 in Hrun.
  destruct (setParent_values this (Object_values (state it)) h) as (h1 & Hloop & H1).
  rewrite Hloop in Hrun.
  destruct (same_view_item h h1 this it H1 Hit) as (it1 & Hit1 & Hst1 & _).
  unfold scene.bind at 1 in Hrun. unfold get_item at 1 in Hrun.
  pose proof Hit1 as Hl1. unfold item_at in Hl1.
  destruct (h1 !! this) as [[it1'|]|]; simplify_eq.
  rewrite Hst1 in Hrun. unfold children_well_formed in Hwf. unfold children_of in Hin.
  assert (VRef l ∈ Object_values (state it) → adopted h1 this l) as Hfirst.
  { intros Hval. pose proof (values_loop_adopts this l _ h Hval Hitem) as Had.
    by rewrite Hloop in Had. }
  destruct (truthy (default VUndefined (state it !! "children"))) eqn:Htruthy.
  - destruct (default VUndefined (state it !! "children")) as [| | | | |lc]; try done.
    destruct (h !! lc) as [[?|[elems|] props]|] eqn:Harr; try done.
    destruct (same_view_array h h1 lc elems props H1 Harr) as [props' Harr1].
    unfold scene.bind at 1 in Hrun. unfold iterate in Hrun. rewrite Harr1 in Hrun.
    destruct Hin as [Hval|Hchild].
    + pose proof (maintains_for_of (λ h, adopted h this l) elems
                    (λ child, assign_parent child this)
                    (λ x, assign_parent_keeps_adopted x this l) h1 (Hfirst Hval)) as Had.
      by rewrite Hrun in Had.
    + pose proof (children_loop_adopts this l elems h1 Hchild
                    (same_view_is_item h h1 l H1 Hitem) Hwf) as Had.
      by rewrite Hrun in Had.
  - injection Hrun as <-. destruct Hin as [Hval|Hchild]; [by apply Hfirst|].
    destruct (default VUndefined (state it !! "children")) as [| | | | |lc];
      try done; by apply elem_of_nil in Hchild.
Qed.

Lemma with_state_item (h : gmap loc Obj) (this : loc) (it : SceneItem)
    (st : gmap string Value) :
  item_at (with_state h this it st) this
  = Some {| subject := subject it; state := st; parent := parent it |}.
Proof. unfold item_at, with_state. by rewrite lookup_insert_eq. Qed.

Lemma with_state_well_formed (h : gmap loc Obj) (this : loc) (it : SceneItem)
    (st : gmap string Value) :
  item_at h this = Some it →
  children_well_formed (with_state h this it st) st = children_well_formed h st
  ∧ children_of (with_state h this it st) st = children_of h st.
Proof.
  intros Hit. unfold children_well_formed, children_of, with_state, item_at in *.
  destruct (default VUndefined (st !! "children")) as [| | | | |l]; try done.
  destruct (decide (this = l)) as [<-|Hne].
  - rewrite lookup_insert_eq. by destruct (h !! this) as [[?|]|].
  - by rewrite lookup_insert_ne.
Qed.

Lemma adoption_after_setState (h : gmap loc Obj) (this : loc) (it : SceneItem)
    (new_state : gmap string Value) :
  item_at h this = Some it →
  children_well_formed h (new_state ∪ state it) = true →
  ∃ h',
    setState this new_state h = (Normal tt, h')
    ∧ ∀ l, ((∃ k, (new_state ∪ state it) !! k = Some (VRef l))
            ∨ VRef l ∈ children_of h (new_state ∪ state it)) →
           is_item h l →
           adopted h' this l.
Proof.
  intros Hit Hwf. rewrite (setState_unfold h this it new_state Hit).
  set (merged := new_state ∪ state it) in *.
  set (h1 := with_state h this it merged).
  pose proof (with_state_item h this it merged) as Hit1. fold h1 in Hit1.
  destruct (with_state_well_formed h this it merged Hit) as [Hwf1 Hch1]. fold h1 in Hwf1, Hch1.
  set (it1 := {| subject := subject it; state := merged; parent := parent it |}) in *.
  assert (children_well_formed h1 (state it1) = true) as Hwf1'.
  { change (children_well_formed h1 merged = true). by rewrite Hwf1. }
  destruct (setParent_completes this it1 h1 Hit1 Hwf1') as (h2 & Hrun & H2).
  rewrite Hrun.
  destruct (same_view_item h1 h2 this it1 H2 Hit1) as (it2 & Hit2 & _ & _).
  rewrite Hit2. eexists. split; [reflexivity|].
  intros l Hin Hitem.
  assert (is_item h1 l) as Hitem1.
  { unfold is_item, item_at, h1, with_state. destruct (decide (this = l)) as [<-|Hne].
    - rewrite lookup_insert_eq. by eexists.
    - by rewrite lookup_insert_ne. }
  assert (adopted h2 this l) as (itl & Hitl & Hparent).
  { apply (setParent_adopts this l it1 h1 h2 Hit1 Hwf1' Hrun); [|done].
    simpl. rewrite Hch1. destruct Hin as [Hk|Hc]; [left|by right].
    by apply Object_values_lookup. }
  unfold adopted, emitted, item_at in *. destruct (decide (this = l)) as [<-|Hne].
  - rewrite lookup_insert_eq. eexists. split; [reflexivity|]. simpl. congruence.
  - rewrite lookup_insert_ne by done. by exists itl.
Qed.

(** After a [setState] that completes on well-formed children, [this] is
    the parent of every scene item that a property of the merged state
    holds and of every scene item among its children. *)
Theorem setState_adopts (h : gmap loc Obj) (this : loc) (it : SceneItem)
    (new_state : gmap string Value) :
  item_at h this = Some it →
  children_well_formed h (new_state ∪ state it) = true →
  ∃ h',
    setState this new_state h = (Normal tt, h')
    ∧ ∀ l, ((∃ k, (new_state ∪ state it) !! k = Some (VRef l))
            ∨ VRef l ∈ children_of h (new_state ∪ state it)) →
           is_item h l →
           adopted h' this l.
Proof. apply adoption_after_setState. Qed.

(** When [setState] throws, the state has been replaced by the merge all
    the same, and the subject is as it was: nothing was emitted and no
    subscriber has seen the new state. *)
Theorem setState_throw_is_silent (h : gmap loc Obj) (this : loc) (it : SceneItem)
    (new_state : gmap string Value) (e : Exn) :
  item_at h this = Some it →
  (setState this new_state h).1 = Throw e →
  ∃ it',
    item_at (setState this new_state h).2 this = Some it'
    ∧ state it' = new_state ∪ state it
    ∧ subject it' = subject it.
Proof.
  intros Hit Hthrow.
  destruct (setState_outcome h this it new_state Hit) as (it' & Hit' & Hst & Hsub).
  rewrite Hthrow in Hsub. by exists it'.
Qed.

Lemma suffix_snoc_both {A} (l k : list A) (x : A) :
  l `suffix_of` k → (l ++ [x]) `suffix_of` (k ++ [x]).
Proof. intros [pre ->]. exists pre. by rewrite app_assoc. Qed.

(** The subject stays in step with the item: [construct] brings it in
    step, and [subscribe] and every [setState] that completes keep it so.
    A subscriber has thus always received the states from some emission on,
    ending with the current state. *)
Theorem subject_in_step (h : gmap loc Obj) (this : loc) :
  (∀ initial it',
     item_at (construct this initial h).2 this = Some it' → in_step it')
  ∧ (∀ it it',
       item_at h this = Some it → in_step it →
       item_at (subscribe this h).2 this = Some it' →
       in_step it' ∧ last (inboxes (subject it')) = Some (buffer (subject it)))
  ∧ (∀ it it' new_state,
       item_at h this = Some it → in_step it →
       (setState this new_state h).1 = Normal tt →
       item_at (setState this new_state h).2 this = Some it' →
       in_step it').
Proof.
  split; [|split].
  - intros initial it' Hit'. unfold construct, scene.bind, put_item in Hit'.
    set (it0 := {| subject := next (MkSubject [] []) initial; state := initial;
                   parent := None |}) in *.
    set (h0 := <[this := OItem it0]> h) in *.
    assert (item_at h0 this = Some it0) as Hit0.
    { unfold item_at, h0. by rewrite lookup_insert_eq. }
    pose proof (preserves_setParent this h0) as Hsame.
    destruct (same_view_item h0 _ this it0 Hsame Hit0) as (it1 & Hit1 & Hst & Hsub).
    rewrite Hit' in Hit1. injection Hit1 as <-.
    unfold in_step. rewrite Hst, Hsub. simpl. split; [done|]. constructor.
  - intros it it' Hit [Hlast Hin] Hit'. unfold subscribe, scene.bind, get_item, put_item in Hit'.
    pose proof Hit as Hl. unfold item_at in Hl.
    destruct (h !! this) as [[it0|]|]; simplify_eq. simpl in Hit'.
    unfold item_at in Hit'. rewrite lookup_insert_eq in Hit'. injection Hit' as <-.
    unfold in_step. simpl. rewrite last_snoc. repeat split; [done|].
    apply Forall_app. split; [done|]. by apply Forall_singleton.
  - intros it it' new_state Hit [Hlast Hin] Hok Hit'.
    destruct (setState_outcome h this it new_state Hit) as (it1 & Hit1 & Hst & Hsub).
    rewrite Hit' in Hit1. injection Hit1 as <-. rewrite Hok in Hsub.
    unfold in_step. rewrite Hst, Hsub. simpl. rewrite last_snoc. split; [done|].
    apply Forall_fmap. eapply Forall_impl; [exact Hin|].
    intros inbox Hsuf. simpl. by apply suffix_snoc_both.
Qed.

Lemma setState_completes_item (h h' : gmap loc Obj) (this : loc) (it : SceneItem)
    (new_state : gmap string Value) :
  item_at h this = Some it →
  setState this new_state h = (Normal tt, h') →
  ∃ it', item_at h' this = Some it'
       ∧ state it' = new_state ∪ state it
       ∧ subject it' = next (subject it) (new_state ∪ state it).
Proof.
  intros Hit Hrun.
  destruct (setState_outcome h this it new_state Hit) as (it' & Hit' & Hst & Hsub).
  rewrite Hrun in Hit', Hsub. by exists it'.
Qed.

(** Two calls of [setState] that complete compose: the later argument wins
    over the earlier one, which wins over the state, and the subject emits
    the two merges in the order of the calls. *)
Theorem setState_twice (h h1 h2 : gmap loc Obj) (this : loc) (it : SceneItem)
    (first second : gmap string Value) :
  item_at h this = Some it →
  setState this first h = (Normal tt, h1) →
  setState this second h1 = (Normal tt, h2) →
  ∃ it2,
    item_at h2 this = Some it2
    ∧ state it2 = (second ∪ first) ∪ state it
    ∧ buffer (subject it2)
      = buffer (subject it) ++ [first ∪ state it; (second ∪ first) ∪ state it].
Proof.
  intros Hit Hfirst Hsecond.
  destruct (setState_completes_item h h1 this it first Hit Hfirst)
    as (it1 & Hit1 & Hst1 & Hsub1).
  destruct (setState_completes_item h1 h2 this it1 second Hit1 Hsecond)
    as (it2 & Hit2 & Hst2 & Hsub2).
  exists it2. split; [done|]. rewrite Hst2, Hsub2, Hsub1, Hst1. simpl.
  rewrite (assoc_L (∪)). split; [done|]. by rewrite <- app_assoc.
Qed.

(** [setState] emits on every call that completes, also when the argument
    changes nothing: if every property of the argument has its value in
    the state already, the state is as before and is emitted once more. *)
Theorem setState_emits_unchanged_state (h h' : gmap loc Obj) (this : loc)
    (it : SceneItem) (new_state : gmap string Value) :
  item_at h this = Some it →
  new_state ⊆ state it →
  setState this new_state h = (Normal tt, h') →
  ∃ it',
    item_at h' this = Some it'
    ∧ state it' = state it
    ∧ buffer (subject it') = buffer (subject it) ++ [state it].
Proof.
  intros Hit Hsub Hrun.
  destruct (setState_completes_item h h' this it new_state Hit Hrun)
    as (it' & Hit' & Hst & Hsubj).
  exists it'. rewrite Hst, Hsubj. simpl.
  by rewrite (map_subseteq_union _ _ Hsub).
Qed.

Lemma getTimeRange_closest (fuel : nat) (h : gmap loc Obj) (this : loc) :
  getTimeRange fuel h this
  = closest "$timeRange" "No time range found in scene tree" fuel h this.
Proof.
  revert this. induction fuel as [|fuel IH]; intros this; simpl; [done|].
  destruct (item_at h this) as [it|]; [|done].
  destruct (truthy _); [done|]. by destruct (parent it).
Qed.

Lemma getData_closest (fuel : nat) (h : gmap loc Obj) (this : loc) :
  getData fuel h this = closest "$data" "No data found in scene tree" fuel h this.
Proof.
  revert this. induction fuel as [|fuel IH]; intros this; simpl; [done|].
  destruct (item_at h this) as [it|]; [|done].
  destruct (truthy _); [done|]. by destruct (parent it).
Qed.

Lemma closest_found (key message : string) (h : gmap loc Obj) (v : Value) :
  ∀ (fuel : nat) (this : loc),
    closest key message fuel h this = Some (Found v)
    ↔ ∃ (n : nat) (top : loc),
        (n < fuel)%nat ∧ climbs h key n this top
        ∧ prop_at h key top = Some v ∧ truthy v = true.
Proof.
  induction fuel as [|fuel IH]; intros this.
  - simpl. split; [done|]. intros (n & top & Hn & _). lia.
  - simpl. split.
    + destruct (item_at h this) as [it|] eqn:Hit; [|done].
      destruct (truthy (default VUndefined (state it !! key))) eqn:Htruthy.
      * intros [= <-]. exists 0%nat, this. split; [lia|]. split; [constructor|].
        unfold prop_at. rewrite Hit. by split.
      * destruct (parent it) as [p|] eqn:Hp; [|done].
        intros Hrec. apply IH in Hrec as (n & top & Hn & Hclimb & Hprop & Hv).
        exists (S n), top. split; [lia|]. split; [by econstructor|done].
    + intros (n & top & Hn & Hclimb & Hprop & Hv).
      destruct Hclimb as [l|n l p top it Hit Hfalsy Hp Hclimb].
      * unfold prop_at in Hprop. destruct (item_at h l) as [it|]; [|done].
        simpl in Hprop. injection Hprop as ->. by rewrite Hv.
      * rewrite Hit, Hfalsy, Hp. apply IH. exists n, top. split; [lia|done].
Qed.

Lemma closest_raised (key message : string) (h : gmap loc Obj) (m : string) :
  ∀ (fuel : nat) (this : loc),
    closest key message fuel h this = Some (Raised m)
    ↔ m = message
      ∧ ∃ (n : nat) (top : loc) (it : SceneItem),
          (n < fuel)%nat ∧ climbs h key n this top
          ∧ item_at h top = Some it
          ∧ truthy (default VUndefined (state it !! key)) = false
          ∧ parent it = None.
Proof.
  induction fuel as [|fuel IH]; intros this.
  - simpl. split; [done|]. intros (_ & n & top & it & Hn & _). lia.
  - simpl. split.
    + destruct (item_at h this) as [it|] eqn:Hit; [|done].
      destruct (truthy (default VUndefined (state it !! key))) eqn:Htruthy; [done|].
      destruct (parent it) as [p|] eqn:Hp.
      * intros Hrec. apply IH in Hrec as (-> & n & top & it' & Hn & Hclimb & Hrest).
        split; [done|]. exists (S n), top, it'. split; [lia|].
        split; [by econstructor|done].
      * intros [= <-]. split; [done|]. exists 0%nat, this, it.
        split; [lia|]. split; [constructor|done].
    + intros (-> & n & top & it' & Hn & Hclimb & Hit' & Hfalsy' & Hroot).
      destruct Hclimb as [l|n l p top it Hit Hfalsy Hp Hclimb].
      * by rewrite Hit', Hfalsy', Hroot.
      * rewrite Hit, Hfalsy, Hp. apply IH. split; [done|].
        exists n, top, it'. split; [lia|done].
Qed.

Lemma closest_overflow (key message : string) (h : gmap loc Obj) :
  ∀ (fuel : nat) (this : loc),
    closest key message fuel h this = Some Overflow
    ↔ ∃ top : loc, climbs h key fuel this top.
Proof.
  induction fuel as [|fuel IH]; intros this; simpl.
  - split; [|done]. intros _. exists this. constructor.
  - split.
    + destruct (item_at h this) as [it|] eqn:Hit; [|done].
      destruct (truthy (default VUndefined (state it !! key))) eqn:Htruthy; [done|].
      destruct (parent it) as [p|] eqn:Hp; [|done].
      intros [top Hclimb]%IH. exists top. by econstructor.
    + intros [top Hclimb]. inversion Hclimb as [|n l p top' it Hit Hfalsy Hp Hrest]; subst.
      rewrite Hit, Hfalsy, Hp. apply IH. by exists top.
Qed.

Lemma climbs_trans (h : gmap loc Obj) (key : string) (n m : nat) (a b c : loc) :
  climbs h key n a b → climbs h key m b c → climbs h key (n + m) a c.
Proof.
  induction 1 as [l|n l p top it Hit Hfalsy Hp Hclimb IH]; intros Hrest; [done|].
  simpl. econstructor; [done..|]. by apply IH.
Qed.

Lemma climbs_prefix (h : gmap loc Obj) (key : string) (m : nat) (a c : loc) :
  climbs h key m a c → ∀ k : nat, (k ≤ m)%nat → ∃ top, climbs h key k a top.
Proof.
  induction 1 as [l|n l p top it Hit Hfalsy Hp Hclimb IH]; intros k Hk.
  - assert (k = 0%nat) as -> by lia. exists l. constructor.
  - destruct k as [|k]; [exists l; constructor|].
    destruct (IH k) as [top' Hclimb']; [lia|]. exists top'. by econstructor.
Qed.

(** Round a cycle of parents the walk climbs as far as one likes. *)
Lemma climbs_cycle (h : gmap loc Obj) (key : string) (n : nat) (this : loc) :
  (0 < n)%nat → climbs h key n this this →
  ∀ fuel : nat, ∃ top, climbs h key fuel this top.
Proof.
  intros Hn Hcycle fuel.
  assert (∀ j : nat, climbs h key (j * n) this this) as Hround.
  { induction j as [|j IH]; simpl; [constructor|]. by eapply climbs_trans. }
  apply (climbs_prefix h key (fuel * n) this this (Hround fuel)). nia.
Qed.

Lemma walk_finds_time_range (fuel : nat) (h : gmap loc Obj) (this : loc) (v : Value) :
  (∃ (n : nat) (top : loc),
     (n < fuel)%nat ∧ climbs h "$timeRange" n this top
     ∧ prop_at h "$timeRange" top = Some v ∧ truthy v = true)
  → getTimeRange fuel h this = Some (Found v).
Proof. rewrite getTimeRange_closest. apply closest_found. Qed.

(** [getTimeRange] returns [v] exactly when, going up at most [fuel - 1]
    parent links through items without a time range, the walk reaches an
    item whose [$timeRange] is the truthy [v]: the closest one.  [getData]
    does the same for [$data]. *)
Theorem scope_walk_finds_closest (fuel : nat) (h : gmap loc Obj) (this : loc) (v : Value) :
  (getTimeRange fuel h this = Some (Found v)
   ↔ ∃ (n : nat) (top : loc),
       (n < fuel)%nat ∧ climbs h "$timeRange" n this top
       ∧ prop_at h "$timeRange" top = Some v ∧ truthy v = true)
  ∧ (getData fuel h this = Some (Found v)
     ↔ ∃ (n : nat) (top : loc),
         (n < fuel)%nat ∧ climbs h "$data" n this top
         ∧ prop_at h "$data" top = Some v ∧ truthy v = true).
Proof.
  rewrite getTimeRange_closest, getData_closest. split; apply closest_found.
Qed.

(** With room for [fuel] nested calls, [getTimeRange] throws in two
    cases.  It throws the Error "No time range found in scene tree"
    exactly when the walk reaches, within that room, an item without
    parent, no item on the way having a time range.  It ends in the
    [RangeError] of the engine exactly when [fuel] parent links lead
    through items without a time range, the chain of parents being longer
    than the stack; round a cycle of parents it is so for every stack, and
    the walk never returns.  [getData] likewise, with "No data found in
    scene tree". *)
Theorem scope_walk_throws (fuel : nat) (h : gmap loc Obj) (this : loc) :
  ((∀ m, getTimeRange fuel h this = Some (Raised m)
         ↔ m = "No time range found in scene tree"
           ∧ ∃ (n : nat) (top : loc) (it : SceneItem),
               (n < fuel)%nat ∧ climbs h "$timeRange" n this top
               ∧ item_at h top = Some it
               ∧ truthy (default VUndefined (state it !! "$timeRange")) = false
               ∧ parent it = None)
   ∧ (getTimeRange fuel h this = Some Overflow
      ↔ ∃ top, climbs h "$timeRange" fuel this top)
   ∧ ((∃ n, (0 < n)%nat ∧ climbs h "$timeRange" n this this)
      → getTimeRange fuel h this = Some Overflow))
  ∧ ((∀ m, getData fuel h this = Some (Raised m)
           ↔ m = "No data found in scene tree"
             ∧ ∃ (n : nat) (top : loc) (it : SceneItem),
                 (n < fuel)%nat ∧ climbs h "$data" n this top
                 ∧ item_at h top = Some it
                 ∧ truthy (default VUndefined (state it !! "$data")) = false
                 ∧ parent it = None)
     ∧ (getData fuel h this = Some Overflow
        ↔ ∃ top, climbs h "$data" fuel this top)
     ∧ ((∃ n, (0 < n)%nat ∧ climbs h "$data" n this this)
        → getData fuel h this = Some Overflow)).
Proof.
  rewrite getTimeRange_closest, getData_closest.
  split; (split; [intros m; apply closest_raised|]; split; [apply closest_overflow|]);
    intros (n & Hn & Hcycle); apply closest_overflow; by eapply climbs_cycle.
Qed.

Lemma setState_elsewhere (h : gmap loc Obj) (this l : loc) (it : SceneItem)
    (new_state : gmap string Value) :
  item_at h this = Some it → l ≠ this →
  view <$> (h !! l) = view <$> ((setState this new_state h).2 !! l).
Proof.
  intros Hit Hne. rewrite (setState_unfold h this it new_state Hit).
  pose proof (preserves_setParent this (with_state h this it (new_state ∪ state it)) l)
    as Hsame.
  unfold with_state in Hsame at 1. rewrite lookup_insert_ne in Hsame by done.
  rewrite Hsame.
  destruct (setParent this _) as [[[]|e] h2]; simpl; [|done].
  destruct (item_at h2 this) as [it2|]; simpl; [|done].
  unfold emitted. by rewrite lookup_insert_ne.
Qed.

(** An item that [setState] adopts finds the time range of its new
    parent: when a property of the merged state holds another scene item
    that has no time range of its own, and the merged state has the truthy
    [$timeRange] [v], then after the call [getTimeRange] from that item
    returns [v]. *)
Theorem adopted_item_finds_time_range (h : gmap loc Obj) (this l : loc)
    (it itl : SceneItem) (new_state : gmap string Value) (k : string) (v : Value) :
  item_at h this = Some it →
  children_well_formed h (new_state ∪ state it) = true →
  (new_state ∪ state it) !! k = Some (VRef l) →
  l ≠ this →
  item_at h l = Some itl →
  truthy (default VUndefined (state itl !! "$timeRange")) = false →
  (new_state ∪ state it) !! "$timeRange" = Some v →
  truthy v = true →
  ∃ h', setState this new_state h = (Normal tt, h')
      ∧ ∀ fuel, (2 ≤ fuel)%nat → getTimeRange fuel h' l = Some (Found v).
Proof.
  intros Hit Hwf Hk Hne Hitl Hfalsy Htr Hv.
  destruct (adoption_after_setState h this it new_state Hit Hwf) as (h' & Hrun & Hadopt).
  exists h'. split; [done|]. intros fuel Hfuel.
  destruct (Hadopt l) as (itl' & Hitl' & Hparent); [left; eauto|by exists itl|].
  destruct (setState_completes_item h h' this it new_state Hit Hrun)
    as (it' & Hit' & Hst' & _).
  pose proof (setState_elsewhere h this l it new_state Hit Hne) as Hview.
  rewrite Hrun in Hview. simpl in Hview.
  assert (state itl' = state itl) as Hstl.
  { unfold item_at in Hitl, Hitl'.
    destruct (h !! l) as [[?|]|]; simplify_eq.
    destruct (h' !! l) as [[?|]|]; simplify_eq/=. done. }
  apply walk_finds_time_range.
  exists 1%nat, this. split; [lia|]. split.
  - econstructor; [exact Hitl'|by rewrite Hstl|exact Hparent|constructor].
  - unfold prop_at. rewrite Hit'. simpl. rewrite Hst', Htr. by split.
Qed.

End SceneGraph.

(** ** The single-step recipe handlers *)
Section SingleStep.
Import gort recipes.
Context `{sig : Signature} `{acts : !StepActions}.

(** The action a single-step handler performs. *)
Lemma single_step_run (kind : CallKind) (step : RecipeStep) (c : ReqContext)
    (σ : Proc sig) :
  ∃ w o,
    (match kind with
     | KApply => Apply step c (world σ)
     | KRevert => Revert step c (world σ)
     end) = (w, o)
    ∧ (invoke (G := Goroutine (Proc sig)) kind step c ;;
       let* dto := read (Step_ToDto step c) in
       ret (JSON StatusOK (BodyStep dto)))%go σ
      = (Returned (JSON StatusOK (BodyStep (Step_ToDto step c w))),
         {| world := w; calls := calls σ ++ [MkCall kind step c o] |}, []).
Proof.
  unfold bind, invoke, read, ret.
  destruct (match kind with
            | KApply => Apply step c (world σ)
            | KRevert => Revert step c (world σ)
            end) as [w o].
  by exists w, o.
Qed.

(** When the conversion of the step number fails and leaves [n], the
    recipe is registered and [step] is its step at index [n], a single-step
    handler calls the action once, on [step], and answers 200 with the DTO
    of the step as it is after the call; it starts no goroutine. *)
Theorem single_step_answers_after_the_call (hs : HTTPServer sig) (c : ReqContext)
    (σ : Proc sig) (recipe : Recipe) (n : Z) (e : strconv.NumError) (step : RecipeStep) :
  requested_step c = (n, Some e) →
  requested_recipe hs c = Some recipe →
  0 ≤ n →
  Steps recipe !! Z.to_nat n = Some step →
  (∃ w o, Apply step c (world σ) = (w, o)
        ∧ ApplyRecipeStep hs c σ
          = (Returned (JSON StatusOK (BodyStep (Step_ToDto step c w))),
             {| world := w; calls := calls σ ++ [MkCall KApply step c o] |}, []))
  ∧ (∃ w o, Revert step c (world σ) = (w, o)
          ∧ RevertRecipeStep hs c σ
            = (Returned (JSON StatusOK (BodyStep (Step_ToDto step c w))),
               {| world := w; calls := calls σ ++ [MkCall KRevert step c o] |}, [])).
Proof.
  unfold requested_step, requested_recipe, ApplyRecipeStep, RevertRecipeStep.
  intros -> -> Hn Hstep.
  assert (0 ≤ n < Z.of_nat (length (Steps recipe))) as Hin.
  { split; [done|]. apply lookup_lt_Some in Hstep. lia. }
  split.
  - destruct (single_step_run KApply step c σ) as (w & o & Hact & Hrun).
    exists w, o. split; [done|]. unfold bind at 1. rewrite slice_index_spec.
    rewrite in_range_true by done. rewrite Hstep. cbv beta iota.
    by rewrite Hrun.
  - destruct (single_step_run KRevert step c σ) as (w & o & Hact & Hrun).
    exists w, o. split; [done|]. unfold bind at 1. rewrite slice_index_spec.
    rewrite in_range_true by done. rewrite Hstep. cbv beta iota.
    by rewrite Hrun.
Qed.

(** A single-step handler never starts a goroutine, and it leaves the
    process as it found it unless it answers 200, in which case it has made
    exactly one call. *)
Theorem single_step_calls_at_most_once (hs : HTTPServer sig) (c : ReqContext)
    (σ : Proc sig) :
  Forall
    (λ handler : HTTPServer sig → ReqContext → Handler (Proc sig) (Response sig),
       started (handler hs c σ) = []
       ∧ (final (handler hs c σ) = σ
          ∧ (∀ body, result (handler hs c σ) ≠ Returned (JSON StatusOK body))
          ∨ (∃ dto, result (handler hs c σ) = Returned (JSON StatusOK (BodyStep dto)))
            ∧ ∃ call, calls (final (handler hs c σ)) = calls σ ++ [call]))
    [ApplyRecipeStep; RevertRecipeStep].
Proof.
  repeat apply List.Forall_cons; [| |apply List.Forall_nil];
    match goal with
    | |- context [?handler hs c σ] => remember (handler hs c σ) as out eqn:Hout
    end;
    unfold ApplyRecipeStep, RevertRecipeStep in Hout;
    (destruct (strconv.Atoi _) as [n [e|]];
     [ destruct (GetById _ _) as [recipe|];
       [ unfold bind at 1 in Hout; rewrite slice_index_spec in Hout;
         destruct (if _ : bool then _ else _) as [step|];
         [ match type of Hout with
           | context [invoke ?kind step c] =>
               destruct (single_step_run kind step c σ) as (w & o & _ & Hrun)
           end;
           cbv beta iota in Hout; rewrite Hrun in Hout; subst out;
           split; [done|]; right; split; eauto
         | subst out; split; [done|]; left; split; [done|]; by intros body ]
       | subst out; split; [done|]; left; split; [done|]; by intros body ]
     | subst out; split; [done|]; left; split; [done|]; by intros body ]).
Qed.

End SingleStep.

(** ** [RenderAndPostToSlack] *)
Section Slack.
Import gort gostrings rendering slack.
Context {RenderError SlackError : Type}.

Lemma rawURL_path (hs : rendering.HTTPServer RenderError) (σ : rendering.Proc) :
  renderDashboard hs rawURL σ
  = (Returned
       (let out := RenderService_Render hs (dashboard_opts hs rawPath) in
        match out.2 with
        | Some err => (""%string, Some (FromRender err))
        | None => (FilePath out.1, None)
        end),
     {| stdout := stdout σ ++ [rawPath];
        rendered := rendered σ ++ [dashboard_opts hs rawPath] |},
     []).
Proof.
  apply (renderDashboard_found hs rawURL "http://localhost:3000/render"
           "RvNCUVm4z/dashboard-with-expressions?orgId=1&from=1704891104021&to=1704912704021&width=1000&height=500&tz=America%2FBuenos_Aires" σ).
  - reflexivity.
  - vm_compute. reflexivity.
Qed.

Lemma RenderAndPostToSlack_run (hs : slack.HTTPServer RenderError SlackError)
    (σ : slack.Proc) :
  RenderAndPostToSlack hs σ
  = let rendering_out :=
      RenderService_Render (server hs) (dashboard_opts (server hs) rawPath) in
    let ρ := {| stdout := stdout (rendering_proc σ) ++ [rawPath];
                rendered := rendered (rendering_proc σ)
                            ++ [dashboard_opts (server hs) rawPath] |} in
    match rendering_out.2 with
    | Some err =>
        (Returned (slack.Error StatusInternalServerError "Rendering failed"
                     (RenderingError (FromRender err))),
         {| rendering_proc := ρ; posted := posted σ |}, [])
    | None =>
        (Returned
           match sendUnfurl hs EventPayload_zero (FilePath rendering_out.1) with
           | Some err =>
               slack.Error StatusInternalServerError
                 "Fail to send unfurl event to Slack" (SlackFailure err)
           | None => slack.Empty StatusOK
           end,
         {| rendering_proc := ρ;
            posted := posted σ ++ [(EventPayload_zero, FilePath rendering_out.1)] |},
         [])
    end.
Proof.
  unfold RenderAndPostToSlack. unfold bind at 1. unfold on_rendering.
  rewrite rawURL_path. simpl.
  destruct (RenderService_Render (server hs) _) as [res [err|]]; simpl; [done|].
  unfold bind, sendUnfurlEvent, modify, ret. simpl.
  by destruct (sendUnfurl hs EventPayload_zero (FilePath res)).
Qed.

(** [RenderAndPostToSlack] makes one render request, for the path of the
    fixed dashboard at 1600 by 800, and never fails on the URL.  If the
    render service fails it answers 500 "Rendering failed" and posts
    nothing; otherwise it posts the rendered file once, and answers 200, or
    500 "Fail to send unfurl event to Slack" if posting fails. *)
Theorem RenderAndPostToSlack_outcomes (hs : slack.HTTPServer RenderError SlackError)
    (σ : slack.Proc) :
  rendered (rendering_proc (final (RenderAndPostToSlack hs σ)))
  = rendered (rendering_proc σ) ++ [dashboard_opts (server hs) rawPath]
  ∧ match (RenderService_Render (server hs) (dashboard_opts (server hs) rawPath)).2 with
    | Some err =>
        result (RenderAndPostToSlack hs σ)
        = Returned (slack.Error StatusInternalServerError "Rendering failed"
                      (RenderingError (FromRender err)))
        ∧ posted (final (RenderAndPostToSlack hs σ)) = posted σ
    | None =>
        let image :=
          FilePath (RenderService_Render (server hs)
                      (dashboard_opts (server hs) rawPath)).1 in
        posted (final (RenderAndPostToSlack hs σ))
        = posted σ ++ [(EventPayload_zero, image)]
        ∧ result (RenderAndPostToSlack hs σ)
          = Returned
              match sendUnfurl hs EventPayload_zero image with
              | Some err =>
                  slack.Error StatusInternalServerError
                    "Fail to send unfurl event to Slack" (SlackFailure err)
              | None => slack.Empty StatusOK
              end
    end.
Proof.
  rewrite RenderAndPostToSlack_run. cbv zeta.
  by destruct (RenderService_Render (server hs) _) as [res [err|]].
Qed.

End Slack.

(** ** [RenderToPng] *)
Section RenderToPng.
Import gort png.
Context `{platform : Platform}.

Lemma RenderToPng_rejected (hs : HTTPServer platform) (c : ReqContext platform)
    (σ : Proc platform) :
  parameters c = None →
  ∃ err, RenderToPng hs c σ
         = (Returned (Handle 400 "Render parameters error" err), σ, []).
Proof.
  unfold parameters, RenderToPng.
  destruct (NewURLQueryReader (Req_URL c)) as [queryReader [err|]]; [by eexists|].
  destruct (strconv.Atoi (Get queryReader "width" "800")) as [width [err|]];
    [by eexists|].
  destruct (strconv.Atoi (Get queryReader "height" "400")) as [height [err|]];
    [by eexists|].
  destruct (strconv.Atoi (Get queryReader "timeout" "60")) as [timeout [err|]];
    [by eexists|].
  destruct (ParseFloat (Get queryReader "scale" "1")) as [scale [err|]];
    [by eexists|done].
Qed.

Lemma RenderToPng_requested (hs : HTTPServer platform) (c : ReqContext platform)
    (σ : Proc platform) (queryReader : QueryReader) (width height timeout : Z)
    (scale : Float) :
  parameters c = Some (queryReader, width, height, timeout, scale) →
  let id := UserIdentifier (SignedInUser_NamespacedID c) in
  let opts := png_opts hs c queryReader width height timeout scale id.1 in
  RenderToPng hs c σ
  = (Returned (answer (RenderService_Render hs opts)),
     {| logged := logged σ
                  ++ match id.2 with
                     | Some errID => [("Failed to parse user id"%string, errID)]
                     | None => []
                     end;
        rendered := rendered σ ++ [opts] |},
     []).
Proof.
  unfold parameters, RenderToPng, png_opts, answer.
  destruct (NewURLQueryReader (Req_URL c)) as [qr [err|]]; [done|].
  destruct (strconv.Atoi (Get qr "width" "800")) as [w [err|]]; [done|].
  destruct (strconv.Atoi (Get qr "height" "400")) as [h [err|]]; [done|].
  destruct (strconv.Atoi (Get qr "timeout" "60")) as [t [err|]]; [done|].
  destruct (ParseFloat (Get qr "scale" "1")) as [s [err|]]; [done|].
  intros [= <- <- <- <- <-]. cbv zeta.
  destruct (UserIdentifier (SignedInUser_NamespacedID c)) as [userID [errID|]];
    unfold bind, log_Error, Render, modify, ret; simpl;
    destruct (RenderService_Render hs _) as [res [err|]]; simpl;
    rewrite ?app_nil_r; try done; by destruct (is_ErrTimeout err).
Qed.

(** [RenderToPng] answers 400 "Render parameters error" exactly when the
    query cannot be read or one of width, height, timeout and scale does
    not convert; it then asks nothing of the render service and logs
    nothing. *)
Theorem RenderToPng_rejects_bad_parameters (hs : HTTPServer platform)
    (c : ReqContext platform) (σ : Proc platform) :
  ((∃ title err, result (RenderToPng hs c σ) = Returned (Handle 400 title err))
   ↔ parameters c = None)
  ∧ (parameters c = None →
     ∃ err, RenderToPng hs c σ
            = (Returned (Handle 400 "Render parameters error" err), σ, [])).
Proof.
  split; [|apply RenderToPng_rejected]. split.
  - intros (title & err & Hres).
    destruct (parameters c) as [[[[[qr w] h] t] s]|] eqn:Hpar; [|done].
    rewrite (RenderToPng_requested hs c σ qr w h t s Hpar) in Hres.
    unfold result, answer in Hres. simpl in Hres.
    destruct (RenderService_Render hs _) as [res [e|]]; simpl in Hres;
      [destruct (is_ErrTimeout e)|]; by injection Hres.
  - intros Hpar. destruct (RenderToPng_rejected hs c σ Hpar) as [err ->]. eauto.
Qed.

(** When the parameters convert, [RenderToPng] makes one render request
    with them (a user identifier that fails is logged and the request made
    all the same) and answers by the outcome of the request: 500 with the
    text of the error when it is a timeout, 500 "Rendering failed." for
    another error, and otherwise the rendered file, served as a private
    image/png. *)
Theorem RenderToPng_renders_once (hs : HTTPServer platform) (c : ReqContext platform)
    (σ : Proc platform) (queryReader : QueryReader) (width height timeout : Z)
    (scale : Float) :
  parameters c = Some (queryReader, width, height, timeout, scale) →
  let opts :=
    png_opts hs c queryReader width height timeout scale
      (UserIdentifier (SignedInUser_NamespacedID c)).1 in
  rendered (final (RenderToPng hs c σ)) = rendered σ ++ [opts]
  ∧ result (RenderToPng hs c σ)
    = Returned
        match RenderService_Render hs opts with
        | (_, Some err) =>
            Handle 500 (if is_ErrTimeout err then Error_text err else "Rendering failed.")
              (FromRender err)
        | (file, None) =>
            ServeFile [("Content-Type", "image/png"); ("Cache-Control", "private")]
              (rendering.FilePath file)
        end.
Proof.
  intros Hpar opts. rewrite (RenderToPng_requested hs c σ _ _ _ _ _ Hpar).
  split; [done|]. unfold result, answer. simpl. fold opts.
  destruct (RenderService_Render hs opts) as [res [err|]]; simpl; [|done].
  by destruct (is_ErrTimeout err).
Qed.

Lemma int64_exact (z : Z) : strconv.int64 z = z ↔ - 2 ^ 63 ≤ z < 2 ^ 63.
Proof.
  unfold strconv.int64.
  change (2 ^ 63) with 9223372036854775808.
  change (2 ^ 64) with 18446744073709551616.
  split.
  - intros Heq.
    pose proof (Z.mod_pos_bound (z + 9223372036854775808) 18446744073709551616).
    lia.
  - intros Hz. rewrite Z.mod_small by lia. lia.
Qed.

Lemma seconds_exact (timeout : Z) :
  seconds timeout = timeout * rendering.Second
  ↔ -9223372036 ≤ timeout ≤ 9223372036.
Proof.
  unfold seconds, rendering.Second. split.
  - intros Heq.
    assert (-9223372036854775808 ≤ timeout * 1000000000 < 9223372036854775808)
      as Hrange; [|lia].
    rewrite <- Heq. generalize (strconv.int64 timeout * 1000000000). intros z.
    unfold strconv.int64.
    change (2 ^ 63) with 9223372036854775808.
    change (2 ^ 64) with 18446744073709551616.
    pose proof (Z.mod_pos_bound (z + 9223372036854775808) 18446744073709551616).
    lia.
  - intros Ht.
    assert (strconv.int64 timeout = timeout) as ->.
    { apply int64_exact. change (2 ^ 63) with 9223372036854775808. lia. }
    apply int64_exact. change (2 ^ 63) with 9223372036854775808. lia.
Qed.

(** The timeout of the render request is the product of the timeout
    parameter and a second, computed in [int64]: it is the requested
    number of seconds exactly when the parameter lies between -9223372036
    and 9223372036, and wraps around otherwise. *)
Theorem RenderToPng_timeout_wraps (hs : HTTPServer platform) (c : ReqContext platform)
    (σ : Proc platform) (queryReader : QueryReader) (width height timeout : Z)
    (scale : Float) :
  parameters c = Some (queryReader, width, height, timeout, scale) →
  ∃ opts,
    rendered (final (RenderToPng hs c σ)) = rendered σ ++ [opts]
    ∧ Timeout opts = strconv.int64 (strconv.int64 timeout * rendering.Second)
    ∧ (Timeout opts = timeout * rendering.Second
       ↔ -9223372036 ≤ timeout ≤ 9223372036).
Proof.
  intros Hpar. rewrite (RenderToPng_requested hs c σ _ _ _ _ _ Hpar).
  eexists. split; [reflexivity|]. split; [reflexivity|].
  apply seconds_exact.
Qed.

End RenderToPng.

(** ** [buildBreadcrumbs] *)
Section Breadcrumbs.
Import breadcrumbs.
Variable get : string → string → option string.

#[local] Abbreviation addCrumbs := (breadcrumbs.addCrumbs get).
#[local] Abbreviation walk := (breadcrumbs.walk get).
#[local] Abbreviation visit := (breadcrumbs.visit get).
#[local] Abbreviation urlToMatch := (breadcrumbs.urlToMatch get).
#[local] Abbreviation matches_home := (breadcrumbs.matches_home get).
#[local] Abbreviation buildBreadcrumbs := (breadcrumbs.buildBreadcrumbs get).
#[local] Abbreviation repeats_page := (breadcrumbs.repeats_page get).
#[local] Abbreviation section_crumb := (breadcrumbs.section_crumb get).

(** The recursion along the parents is the walk along the chain. *)
Lemma addCrumbs_walk (homeNav : option NavModelItem) :
  ∀ (node : NavModelItem) (shouldDedupe : bool) (w : Walk),
    addCrumbs homeNav node shouldDedupe w = walk homeNav shouldDedupe (chain node) w.
Proof.
  fix IH 1. intros [t u hide a ch [parent|]] shouldDedupe w.
  - unfold chain. cbn [addCrumbs ancestors breadcrumbs.walk].
    destruct (foundHome w); [done|]. unfold breadcrumbs.visit.
    destruct (is_home homeNav _) as [home|].
    + by destruct (ancestors parent).
    + rewrite IH. reflexivity.
  - unfold chain. cbn [addCrumbs ancestors breadcrumbs.walk].
    destruct (foundHome w); [done|]. unfold breadcrumbs.visit.
    by destruct (is_home homeNav _).
Qed.

Lemma walk_found (homeNav : option NavModelItem) (d : bool)
    (nodes : list NavModelItem) (w : Walk) :
  foundHome w = true → walk homeNav d nodes w = w.
Proof. intros Hw. destruct nodes; simpl; [done|by rewrite Hw]. Qed.

Lemma matches_home_false (homeNav : option NavModelItem) (node : NavModelItem) :
  matches_home homeNav node = false → is_home homeNav (urlToMatch node) = None.
Proof.
  unfold breadcrumbs.matches_home. intros Hm%bool_decide_eq_false.
  destruct (is_home _ _); [|done]. exfalso. apply Hm. by eexists.
Qed.

Lemma crumbs_of_cons (node : NavModelItem) (nodes : list NavModelItem) :
  crumbs_of (node :: nodes)
  = crumbs_of nodes ++ (if visible node then [crumb_of node] else []).
Proof.
  unfold crumbs_of. rewrite filter_cons.
  destruct (visible node) eqn:Hv.
  - rewrite decide_True by done. simpl. done.
  - rewrite decide_False by done. by rewrite app_nil_r.
Qed.

(** A walk without [shouldDedupe] that does not meet home adds the crumbs
    of the visible nodes and remembers the path of the last node. *)
Lemma walk_no_home (homeNav : option NavModelItem) (nodes : list NavModelItem) :
  ∀ w : Walk,
    foundHome w = false →
    Forall (λ node, matches_home homeNav node = false) nodes →
    walk homeNav false nodes w
    = {| crumbs := crumbs_of nodes ++ crumbs w;
         foundHome := false;
         lastPath := from_option (λ node, Some (urlToMatch node)) (lastPath w)
                       (last nodes) |}.
Proof.
  induction nodes as [|node nodes IH]; intros w Hw Hall.
  - simpl. destruct w. simpl in *. by subst.
  - apply Forall_cons in Hall as [Hnode Hall]. simpl. rewrite Hw.
    unfold breadcrumbs.visit. rewrite (matches_home_false _ _ Hnode).
    rewrite IH by done. simpl. rewrite crumbs_of_cons.
    rewrite andb_true_r. fold (visible node). f_equal.
    + rewrite <- app_assoc. by destruct (visible node).
    + destruct nodes as [|node' nodes]; [done|]. rewrite last_cons_cons.
      destruct (last (node' :: nodes)) eqn:Hlast; [done|].
      by apply last_None in Hlast.
Qed.

(** A walk without [shouldDedupe] that meets home at [node] puts the home
    crumb first, after the crumbs of the visible nodes before [node], and
    goes no further. *)
Lemma walk_to_home (homeNav : option NavModelItem) (before after : list NavModelItem)
    (node home : NavModelItem) :
  ∀ w : Walk,
    foundHome w = false →
    Forall (λ node, matches_home homeNav node = false) before →
    is_home homeNav (urlToMatch node) = Some home →
    crumbs (walk homeNav false (before ++ node :: after) w)
    = home_crumb home node :: crumbs_of before ++ crumbs w.
Proof.
  induction before as [|first before IH]; intros w Hw Hall Hhome.
  - simpl. rewrite Hw. unfold breadcrumbs.visit. rewrite Hhome.
    by rewrite walk_found.
  - apply Forall_cons in Hall as [Hfirst Hall]. simpl. rewrite Hw.
    rewrite IH; [|by unfold breadcrumbs.visit; rewrite (matches_home_false _ _ Hfirst)
                 |done|done].
    unfold breadcrumbs.visit. rewrite (matches_home_false _ _ Hfirst). simpl.
    rewrite crumbs_of_cons, andb_true_r. fold (visible first).
    rewrite <- app_assoc. by destruct (visible first).
Qed.

Lemma walk_page (homeNav pageNav : option NavModelItem) :
  match pageNav with
  | Some pageNav =>
      addCrumbs homeNav pageNav false {| crumbs := []; foundHome := false; lastPath := None |}
  | None => {| crumbs := []; foundHome := false; lastPath := None |}
  end
  = walk homeNav false (page_chain pageNav)
      {| crumbs := []; foundHome := false; lastPath := None |}.
Proof. destruct pageNav as [pageNav|]; [apply addCrumbs_walk|done]. Qed.

Lemma buildBreadcrumbs_walk (sectionNav : NavModelItem) (pageNav homeNav : option NavModelItem) :
  buildBreadcrumbs sectionNav pageNav homeNav
  = crumbs (walk homeNav true (chain sectionNav)
              (walk homeNav false (page_chain pageNav)
                 {| crumbs := []; foundHome := false; lastPath := None |})).
Proof. unfold breadcrumbs.buildBreadcrumbs. by rewrite walk_page, addCrumbs_walk. Qed.

Lemma section_visit (homeNav pageNav : option NavModelItem) (sectionNav : NavModelItem) :
  Forall (λ node, matches_home homeNav node = false) (page_chain pageNav) →
  matches_home homeNav sectionNav = false →
  visit homeNav sectionNav true
    (walk homeNav false (page_chain pageNav)
       {| crumbs := []; foundHome := false; lastPath := None |})
  = {| crumbs := section_crumb pageNav sectionNav ++ crumbs_of (page_chain pageNav);
       foundHome := false;
       lastPath := Some (urlToMatch sectionNav) |}.
Proof.
  intros Hpage Hsection. rewrite walk_no_home by done.
  unfold breadcrumbs.visit. rewrite (matches_home_false _ _ Hsection). simpl.
  rewrite app_nil_r. f_equal.
  unfold breadcrumbs.section_crumb, breadcrumbs.repeats_page, visible.
  assert (bool_decide
            (from_option (λ node, Some (urlToMatch node)) None (last (page_chain pageNav))
             = Some (urlToMatch sectionNav))
          = bool_decide (breadcrumbs.urlToMatch get <$> last (page_chain pageNav)
                         = Some (urlToMatch sectionNav))) as ->.
  { by destruct (last (page_chain pageNav)). }
  by destruct (negb (hideFromBreadcrumbs sectionNav) && _).
Qed.

(** When no node on the way is home (as when there is no home), the
    crumbs are those of the visible ancestors of the section, topmost
    first, then the section itself unless hidden or repeating the path at
    which the walk from the page ended, then the visible nodes of the page
    chain, the page last. *)
Theorem buildBreadcrumbs_without_home (sectionNav : NavModelItem)
    (pageNav homeNav : option NavModelItem) :
  Forall (λ node, matches_home homeNav node = false)
    (page_chain pageNav ++ chain sectionNav) →
  buildBreadcrumbs sectionNav pageNav homeNav
  = crumbs_of (ancestors sectionNav)
    ++ section_crumb pageNav sectionNav
    ++ crumbs_of (page_chain pageNav).
Proof.
  intros [Hpage Hsection]%Forall_app.
  unfold chain in Hsection. apply Forall_cons in Hsection as [Hsection Hup].
  rewrite buildBreadcrumbs_walk. unfold chain. cbn [breadcrumbs.walk].
  rewrite (walk_no_home homeNav (page_chain pageNav)) at 1 by done. cbn [foundHome].
  rewrite section_visit by done. by rewrite walk_no_home.
Qed.

(** When home is met on the way up from the page, at [node], the crumbs
    are the home crumb, with the text of home and the URL of [node], and
    then the visible nodes of the page chain below [node]: the section and
    everything above [node] are left out. *)
Theorem buildBreadcrumbs_home_above_page (sectionNav : NavModelItem)
    (pageNav homeNav : option NavModelItem) (before after : list NavModelItem)
    (node home : NavModelItem) :
  page_chain pageNav = before ++ node :: after →
  Forall (λ node, matches_home homeNav node = false) before →
  is_home homeNav (urlToMatch node) = Some home →
  buildBreadcrumbs sectionNav pageNav homeNav
  = home_crumb home node :: crumbs_of before.
Proof.
  intros Hchain Hbefore Hhome. rewrite buildBreadcrumbs_walk, Hchain.
  assert (foundHome (walk homeNav false (before ++ node :: after)
                       {| crumbs := []; foundHome := false; lastPath := None |})
          = true) as Hfound.
  { clear Hchain. generalize {| crumbs := []; foundHome := false; lastPath := None |}.
    induction before as [|first before IH]; intros w; simpl.
    - destruct (foundHome w) eqn:Hw; [done|].
      rewrite walk_found; unfold breadcrumbs.visit; by rewrite Hhome.
    - apply Forall_cons in Hbefore as [Hfirst Hbefore].
      destruct (foundHome w) eqn:Hw; [done|]. by apply IH. }
  rewrite walk_found by done.
  rewrite (walk_to_home homeNav before after node home) by done.
  by rewrite app_nil_r.
Qed.

(** When home is met on the way up from the section, at [node], the
    crumbs are the home crumb, then the visible ancestors of the section
    below [node], the section itself unless hidden or repeating the page,
    and the visible nodes of the page chain; if the section itself is home,
    the home crumb comes right before the page chain. *)
Theorem buildBreadcrumbs_home_above_section (sectionNav : NavModelItem)
    (pageNav homeNav : option NavModelItem) (before after : list NavModelItem)
    (node home : NavModelItem) :
  Forall (λ node, matches_home homeNav node = false) (page_chain pageNav) →
  chain sectionNav = before ++ node :: after →
  Forall (λ node, matches_home homeNav node = false) before →
  is_home homeNav (urlToMatch node) = Some home →
  buildBreadcrumbs sectionNav pageNav homeNav
  = home_crumb home node
    :: match before with
       | [] => []
       | _ :: above => crumbs_of above ++ section_crumb pageNav sectionNav
       end
    ++ crumbs_of (page_chain pageNav).
Proof.
  intros Hpage Hchain Hbefore Hhome. rewrite buildBreadcrumbs_walk.
  destruct before as [|first above].
  - simpl in Hchain. rewrite Hchain. cbn [breadcrumbs.walk].
    rewrite (walk_no_home homeNav (page_chain pageNav)) at 1 by done. cbn [foundHome].
    rewrite walk_found; unfold breadcrumbs.visit; rewrite walk_no_home by done;
      rewrite Hhome; [|done]. simpl. by rewrite app_nil_r.
  - rewrite Hchain. unfold chain in Hchain. injection Hchain as <- Hup.
    apply Forall_cons in Hbefore as [Hsection Habove].
    cbn [app breadcrumbs.walk].
    rewrite (walk_no_home homeNav (page_chain pageNav)) at 1 by done. cbn [foundHome].
    rewrite section_visit by done.
    rewrite (walk_to_home homeNav above after node home) by done. simpl.
    by rewrite <- app_assoc.
Qed.

(** Whatever the navigation tree, every crumb comes from a node on the way
    up from the page or from the section: it is the crumb of a node that
    is not hidden, or the home crumb; and there are no more crumbs than
    nodes on the way. *)
Theorem buildBreadcrumbs_only_visited (sectionNav : NavModelItem)
    (pageNav homeNav : option NavModelItem) :
  let visited := page_chain pageNav ++ chain sectionNav in
  (length (buildBreadcrumbs sectionNav pageNav homeNav) ≤ length visited)%nat
  ∧ ∀ crumb, crumb ∈ buildBreadcrumbs sectionNav pageNav homeNav →
      ∃ node, node ∈ visited
            ∧ ((hideFromBreadcrumbs node = false ∧ crumb = crumb_of node)
               ∨ ∃ home, homeNav = Some home ∧ crumb = home_crumb home node).
Proof.
  intros visited. rewrite buildBreadcrumbs_walk.
  set (origin node crumb :=
         (hideFromBreadcrumbs node = false ∧ crumb = crumb_of node)
         ∨ ∃ home, homeNav = Some home ∧ crumb = home_crumb home node).
  assert (∀ nodes d w,
            (length (crumbs (walk homeNav d nodes w)) ≤ length nodes + length (crumbs w))%nat
            ∧ ∀ crumb, crumb ∈ crumbs (walk homeNav d nodes w) →
                crumb ∈ crumbs w ∨ ∃ node, node ∈ nodes ∧ origin node crumb) as Hwalk.
  { induction nodes as [|node nodes IH]; intros d w; simpl.
    - split; [lia|]. by left.
    - destruct (foundHome w); [split; [lia|by left]|].
      destruct (IH false (visit homeNav node d w)) as [Hlen Hsrc].
      assert ((length (crumbs (visit homeNav node d w)) ≤ S (length (crumbs w)))%nat
              ∧ ∀ crumb, crumb ∈ crumbs (visit homeNav node d w) →
                  crumb ∈ crumbs w ∨ origin node crumb) as [Hvlen Hvsrc].
      { unfold breadcrumbs.visit, origin, is_home.
        destruct homeNav as [home|]; [destruct (nav_url home) as [home_url|];
          [destruct (String.eqb _ _)|]|]; simpl.
        1: { split; [lia|]. intros crumb [->|Hin]%elem_of_cons; [right|by left].
             right. by exists home. }
        all: destruct (hideFromBreadcrumbs node) eqn:Hhide; simpl;
          [split; [lia|by left]|];
          destruct (negb _); simpl;
          [ split; [lia|]; intros crumb [->|Hin]%elem_of_cons; [right; by left|by left]
          | split; [lia|by left] ]. }
      split; [lia|]. intros crumb Hin.
      destruct (Hsrc crumb Hin) as [Hv|(node' & Hnode' & Horigin)].
      + destruct (Hvsrc crumb Hv) as [Hw|Horigin]; [by left|].
        right. exists node. split; [apply elem_of_cons; by left|done].
      + right. exists node'. split; [apply elem_of_cons; by right|done]. }
  destruct (Hwalk (page_chain pageNav) false
              {| crumbs := []; foundHome := false; lastPath := None |}) as [Hplen Hpsrc].
  destruct (Hwalk (chain sectionNav) true
              (walk homeNav false (page_chain pageNav)
                 {| crumbs := []; foundHome := false; lastPath := None |})) as [Hslen Hssrc].
  split.
  - unfold visited. rewrite length_app. simpl in Hplen. lia.
  - intros crumb Hin. destruct (Hssrc crumb Hin) as [Hp|(node & Hnode & Horigin)].
    + destruct (Hpsrc crumb Hp) as [Hnil|(node & Hnode & Horigin)];
        [by apply elem_of_nil in Hnil|].
      exists node. split; [|done]. apply elem_of_app. by left.
    + exists node. split; [|done]. apply elem_of_app. by right.
Qed.

End Breadcrumbs.

(** ** [getPanelDataForRule] *)
Section History.
Import history.
Context {Number Labels State : Type}.
Variable zero : Number.

#[local] Abbreviation Record' := (LogRecord Number Labels State).

Lemma insert_sorted_elem_of (a x : Record') (l : list Record') :
  x ∈ insert_sorted a l ↔ x = a ∨ x ∈ l.
Proof.
  induction l as [|b l IH]; simpl.
  - rewrite list_elem_of_singleton. split; [by left|]. intros [?|?%elem_of_nil]; done.
  - destruct (timestamp a - timestamp b <=? 0).
    + by rewrite elem_of_cons.
    + rewrite !elem_of_cons, IH. tauto.
Qed.

Lemma sort_elem_of (x : Record') (l : list Record') : x ∈ sort l ↔ x ∈ l.
Proof.
  induction l as [|a l IH]; simpl; [done|].
  by rewrite insert_sorted_elem_of, elem_of_cons, IH.
Qed.

Lemma insert_sorted_sorted (a : Record') (l : list Record') :
  StronglySorted (λ x y : Record', timestamp x ≤ timestamp y) l →
  StronglySorted (λ x y : Record', timestamp x ≤ timestamp y) (insert_sorted a l).
Proof.
  induction 1 as [|b l Hl IH Hb]; simpl.
  - repeat constructor.
  - destruct (Z.leb_spec (timestamp a - timestamp b) 0) as [Hle|Hgt].
    + constructor; [by constructor|]. constructor; [lia|].
      eapply Forall_impl; [exact Hb|]. simpl. intros. lia.
    + constructor; [done|]. apply Forall_forall. intros x Hx.
      apply insert_sorted_elem_of in Hx as [->|Hx]; [lia|].
      by eapply Forall_forall in Hb.
Qed.

Lemma sort_sorted (l : list Record') :
  StronglySorted (λ x y : Record', timestamp x ≤ timestamp y) (sort l).
Proof.
  induction l as [|a l IH]; simpl; [constructor|by apply insert_sorted_sorted].
Qed.

(** The sort is stable: the records at one timestamp keep their order. *)
Lemma insert_sorted_stable (t : Z) (a : Record') (l : list Record') :
  filter (λ x : Record', timestamp x = t) (insert_sorted a l)
  = filter (λ x : Record', timestamp x = t) (a :: l).
Proof.
  induction l as [|b l IH]; simpl; [done|].
  destruct (Z.leb_spec (timestamp a - timestamp b) 0) as [Hle|Hgt]; [done|].
  rewrite filter_cons, IH, !filter_cons.
  destruct (decide (timestamp b = t)), (decide (timestamp a = t)); try done. lia.
Qed.

Lemma sort_stable (t : Z) (l : list Record') :
  filter (λ x : Record', timestamp x = t) (sort l)
  = filter (λ x : Record', timestamp x = t) l.
Proof.
  induction l as [|a l IH]; simpl; [done|].
  by rewrite insert_sorted_stable, !filter_cons, IH.
Qed.

Lemma uniqBy_seen_sublist (seen : list Z) (l : list Record') :
  uniqBy_seen seen l `sublist_of` l.
Proof.
  revert seen. induction l as [|a l IH]; intros seen; simpl; [done|].
  destruct (bool_decide _); [by apply sublist_cons|by apply sublist_skip].
Qed.

Lemma uniqBy_seen_timestamps (seen : list Z) (l : list Record') (t : Z) :
  t ∈ map timestamp (uniqBy_seen seen l) ↔ t ∈ map timestamp l ∧ t ∉ seen.
Proof.
  revert seen. induction l as [|a l IH]; intros seen; simpl.
  - split; [by intros ?%elem_of_nil|by intros [?%elem_of_nil _]].
  - destruct (bool_decide_reflect (timestamp a ∈ seen)) as [Hin|Hout]; simpl.
    + rewrite IH, elem_of_cons. split; [tauto|]. intros [[->|?] ?]; done.
    + rewrite !elem_of_cons, IH, elem_of_cons. split.
      * intros [->|[? ?]]; [by split; [left|]|split; [by right|tauto]].
      * intros [[->|?] ?]; [by left|]. destruct (decide (t = timestamp a)); [by left|].
        right. tauto.
Qed.

Lemma uniqBy_seen_NoDup (seen : list Z) (l : list Record') :
  NoDup (map timestamp (uniqBy_seen seen l)).
Proof.
  revert seen. induction l as [|a l IH]; intros seen; simpl; [constructor|].
  destruct (bool_decide _); simpl; [done|]. constructor; [|done].
  rewrite uniqBy_seen_timestamps, elem_of_cons. tauto.
Qed.

(** [uniqBy] keeps, for each timestamp, the first record that has it. *)
Lemma uniqBy_seen_first (seen : list Z) (l : list Record') (x : Record') :
  x ∈ uniqBy_seen seen l →
  head (filter (λ y : Record', timestamp y = timestamp x) l) = Some x.
Proof.
  revert seen. induction l as [|a l IH]; intros seen; simpl;
    [by intros ?%elem_of_nil|].
  destruct (bool_decide_reflect (timestamp a ∈ seen)) as [Hin|Hout].
  - intros Hx. rewrite filter_cons. destruct (decide (timestamp a = timestamp x)) as [Heq|];
      [|by eapply IH].
    exfalso. assert (timestamp x ∈ map timestamp (uniqBy_seen seen l)) as Hts.
    { apply list_elem_of_fmap. by exists x. }
    apply uniqBy_seen_timestamps in Hts as [_ Hts]. congruence.
  - intros [->|Hx]%elem_of_cons.
    + rewrite filter_cons. by rewrite decide_True.
    + rewrite filter_cons. destruct (decide (timestamp a = timestamp x)) as [Heq|];
        [|by eapply IH].
      exfalso. assert (timestamp x ∈ map timestamp (uniqBy_seen (timestamp a :: seen) l))
        as Hts.
      { apply list_elem_of_fmap. by exists x. }
      apply uniqBy_seen_timestamps in Hts as [_ Hts]. apply Hts. rewrite Heq.
      apply elem_of_cons. by left.
Qed.

Lemma StronglySorted_sublist {A} (R : relation A) (l1 l2 : list A) :
  l1 `sublist_of` l2 → StronglySorted R l2 → StronglySorted R l1.
Proof.
  induction 1 as [|x l1 l2 Hsub IH|x l1 l2 Hsub IH]; intros Hsorted; [done| |].
  - apply StronglySorted_inv in Hsorted as [Hl2 Hx]. constructor; [by apply IH|].
    apply Forall_forall. intros y Hy. eapply Forall_forall in Hx; [done|].
    by eapply sublist_subseteq.
  - apply StronglySorted_inv in Hsorted as [Hl2 _]. by apply IH.
Qed.

Lemma strictly_sorted (ts : list Z) :
  StronglySorted Z.le ts → NoDup ts → StronglySorted Z.lt ts.
Proof.
  induction 1 as [|t ts Hts IH Ht]; intros Hnodup; [constructor|].
  apply NoDup_cons in Hnodup as [Hnotin Hnodup]. constructor; [by apply IH|].
  apply Forall_forall. intros y Hy. eapply Forall_forall in Ht; [|done].
  assert (y ≠ t) by (by intros ->). lia.
Qed.

Lemma sorted_timestamps (l : list Record') :
  StronglySorted (λ x y : Record', timestamp x ≤ timestamp y) l →
  StronglySorted Z.le (map timestamp l).
Proof.
  induction 1 as [|a l Hl IH Ha]; simpl; constructor; [done|].
  by apply Forall_fmap.
Qed.

Lemma unique_timestamps_increase (l : list Record') :
  StronglySorted Z.lt (map timestamp (uniqBy (sort l))).
Proof.
  apply strictly_sorted; [|apply uniqBy_seen_NoDup].
  apply sorted_timestamps.
  eapply StronglySorted_sublist; [apply uniqBy_seen_sublist|apply sort_sorted].
Qed.

Lemma min_of_increasing (t : Z) (ts : list Z) :
  StronglySorted Z.lt (t :: ts) → history.min (t :: ts) = Some t.
Proof.
  intros [_ Ht]%StronglySorted_inv. simpl. f_equal.
  induction ts as [|u ts IH]; simpl; [done|].
  apply Forall_cons in Ht as [Hu Ht].
  destruct (Z.ltb_spec u t); [lia|]. by apply IH.
Qed.

Lemma max_of_increasing (t : Z) (ts : list Z) :
  StronglySorted Z.lt (t :: ts) → history.max (t :: ts) = last (t :: ts).
Proof.
  unfold history.max. revert t. induction ts as [|u ts IH]; intros t Hsorted; [done|].
  apply StronglySorted_inv in Hsorted as [Hts Ht].
  apply Forall_cons in Ht as [Hu Ht].
  rewrite last_cons_cons, <- (IH u Hts). cbn [foldl].
  by destruct (Z.ltb_spec t u); [|lia].
Qed.

(** The series [getPanelDataForRule] returns is a time series: the
    timestamps increase strictly, there is one value per timestamp, and
    the length recorded is their number. *)
Theorem getPanelDataForRule_time_series (rule : string) (logRecords : list Record')
    (condition : string) :
  let data := getPanelDataForRule zero rule logRecords condition in
  StronglySorted Z.lt (Time data)
  ∧ length (values_field data) = length (Time data)
  ∧ series_length data = length (Time data).
Proof.
  simpl. split; [apply unique_timestamps_increase|]. by rewrite !length_map.
Qed.

Lemma series_timestamps_spec (rule : string) (logRecords : list Record')
    (condition : string) (t : Z) :
  t ∈ Time (getPanelDataForRule zero rule logRecords condition)
  ↔ ∃ record, record ∈ logRecords
            ∧ ruleUID (line record) = Some rule
            ∧ timestamp record = t.
Proof.
  simpl. unfold uniqBy. rewrite uniqBy_seen_timestamps, list_elem_of_fmap. split.
  - intros [(record & -> & Hin) _]. apply sort_elem_of, list_elem_of_filter in Hin.
    exists record. tauto.
  - intros (record & Hin & Hrule & <-). split; [|by intros ?%elem_of_nil].
    exists record. split; [done|]. apply sort_elem_of, list_elem_of_filter. done.
Qed.

(** The timestamps of the series are exactly the timestamps of the records
    of the rule: no other rule contributes, and none of the rule's
    timestamps is lost. *)
Theorem getPanelDataForRule_timestamps (rule : string) (logRecords : list Record')
    (condition : string) (t : Z) :
  t ∈ Time (getPanelDataForRule zero rule logRecords condition)
  ↔ ∃ record, record ∈ logRecords
            ∧ ruleUID (line record) = Some rule
            ∧ timestamp record = t.
Proof. apply series_timestamps_spec. Qed.

(** When several records of the rule have the same timestamp, the value
    at that timestamp is taken from the first of them in the order of the
    input. *)
Theorem getPanelDataForRule_first_record_wins (rule : string)
    (logRecords : list Record') (condition : string) (i : nat) (t : Z) :
  Time (getPanelDataForRule zero rule logRecords condition) !! i = Some t →
  ∃ record,
    head (at_timestamp rule t logRecords) = Some record
    ∧ values_field (getPanelDataForRule zero rule logRecords condition) !! i
      = Some (condition_value zero condition record).
Proof.
  simpl. rewrite !list_lookup_fmap. intros Ht.
  destruct (uniqBy _ !! i) as [record|] eqn:Hi; [|done].
  simpl in Ht. injection Ht as <-. exists record. split; [|done].
  unfold at_timestamp. rewrite <- sort_stable.
  eapply uniqBy_seen_first, list_elem_of_lookup_2, Hi.
Qed.

(** The time range goes from the first timestamp of the series to the
    last; both ends are undefined exactly when the rule has no record. *)
Theorem getPanelDataForRule_time_range (rule : string) (logRecords : list Record')
    (condition : string) :
  let data := getPanelDataForRule zero rule logRecords condition in
  timeRange data = (head (Time data), last (Time data))
  ∧ (timeRange data = (None, None)
     ↔ ∀ record, record ∈ logRecords → ruleUID (line record) ≠ Some rule).
Proof.
  intros data.
  assert (timeRange data = (head (Time data), last (Time data))) as Hrange.
  { pose proof (unique_timestamps_increase
                  (filter (λ record : Record', ruleUID (line record) = Some rule) logRecords))
      as Hsorted.
    subst data. simpl.
    destruct (map timestamp _) as [|t ts]; [done|].
    by rewrite min_of_increasing, max_of_increasing. }
  split; [done|]. rewrite Hrange. split.
  - intros Heq record Hin Hrule.
    assert (head (Time data) = None) as Hhead by (by injection Heq).
    assert (timestamp record ∈ Time data) as Hts.
    { apply series_timestamps_spec. by exists record. }
    revert Hhead Hts. destruct (Time data); [by intros _ ?%elem_of_nil|done].
  - intros Hnone. destruct (Time data) as [|t ts] eqn:Htime; [done|].
    exfalso. assert (t ∈ Time data) as Hts by (rewrite Htime; apply elem_of_cons; by left).
    apply series_timestamps_spec in Hts as (record & Hin & Hrule & _).
    by eapply Hnone.
Qed.

(** The number of transitions shown for a record of the list counts the
    record itself: it is 0 exactly when the record has no rule UID or an
    empty one, and otherwise it is the number of records of the list with
    that rule UID, at least one. *)
Theorem transitions_counts_the_record (logRecords : list Record') (record : Record') :
  record ∈ logRecords →
  (transitions logRecords record = 0%nat
   ↔ ruleUID (line record) = None ∨ ruleUID (line record) = Some "")
  ∧ ∀ rule, ruleUID (line record) = Some rule → rule ≠ "" →
      transitions logRecords record
      = length (filter (λ other : Record', ruleUID (line other) = ruleUID (line record))
                  logRecords)
      ∧ (1 ≤ transitions logRecords record)%nat.
Proof.
  intros Hin. unfold transitions, getTransitionsCountByRuleUID.
  assert (∀ rule, ruleUID (line record) = Some rule →
            (1 ≤ length (filter (λ other : Record', ruleUID (line other) = Some rule)
                           logRecords))%nat) as Hone.
  { intros rule Hrule.
    assert (record ∈ filter (λ other : Record', ruleUID (line other) = Some rule) logRecords)
      as Hfiltered by (by apply list_elem_of_filter).
    destruct (filter _ logRecords); [by apply elem_of_nil in Hfiltered|simpl; lia]. }
  split.
  - destruct (ruleUID (line record)) as [rule|] eqn:Hrule; simpl; [|by split; [left|]].
    destruct (String.eqb_spec rule "") as [->|Hne]; [by split; [right|]|].
    specialize (Hone rule eq_refl). split; [lia|]. intros [?|?]; congruence.
  - intros rule Hrule Hne. rewrite Hrule. simpl.
    destruct (String.eqb_spec rule ""); [done|]. split; [done|]. by apply Hone.
Qed.

End History.

(** ** The further properties on concrete inputs *)

Example row_on_heap :
  scene.item_at scene_demo.heap 4%positive
  = Some {| scene.subject := {| scene.buffer := [∅]; scene.inboxes := [] |};
            scene.state := ∅; scene.parent := None |}.
Proof. vm_compute. reflexivity. Qed.

(** [setState({ $timeRange: 'now-6h', body: row })] on the panel makes the
    panel the parent of [row]. *)
Lemma setState_adopts_witness :
  scene.item_at scene_demo.heap 1%positive = Some scene_demo.panel
  ∧ scene.children_well_formed scene_demo.heap
      (scene_demo_more.scoped_body ∪ scene_demo.panel_state) = true
  ∧ ∃ h',
      scene.setState 1%positive scene_demo_more.scoped_body scene_demo.heap
      = (scene.Normal tt, h')
      ∧ scene_graph.adopted h' 1%positive 4%positive.
Proof.
  split; [vm_compute; reflexivity|]. split; [vm_compute; reflexivity|].
  destruct (setState_adopts scene_demo.heap 1%positive scene_demo.panel
              scene_demo_more.scoped_body) as (h' & Hrun & Hadopt);
    [vm_compute; reflexivity|vm_compute; reflexivity|].
  exists h'. split; [exact Hrun|]. apply Hadopt.
  - left. exists "body". vm_compute. reflexivity.
  - eexists. apply row_on_heap.
Defined.

(** [setState({ children: [undefined] })] throws: the state is replaced
    and the subject has emitted nothing. *)
Lemma setState_throw_is_silent_witness :
  scene.item_at scene_demo.heap 1%positive = Some scene_demo.panel
  ∧ (scene.setState 1%positive scene_demo.undefined_child scene_demo.heap).1
    = scene.Throw (scene.TypeError "Cannot set properties of undefined or null")
  ∧ ∃ it',
      scene.item_at
        (scene.setState 1%positive scene_demo.undefined_child scene_demo.heap).2 1%positive
      = Some it'
      ∧ scene.state it' = scene_demo.undefined_child ∪ scene_demo.panel_state
      ∧ scene.subject it' = scene.subject scene_demo.panel.
Proof.
  split; [vm_compute; reflexivity|]. split; [vm_compute; reflexivity|].
  apply (setState_throw_is_silent scene_demo.heap 1%positive scene_demo.panel
           scene_demo.undefined_child
           (scene.TypeError "Cannot set properties of undefined or null"));
    vm_compute; reflexivity.
Defined.

(** [setState({ size: 7 })] and then [setState({ size: 3 })]. *)
Lemma setState_twice_witness :
  let h1 := (scene.setState 1%positive scene_demo_more.bigger scene_demo.heap).2 in
  let h2 := (scene.setState 1%positive scene_demo_more.same_size h1).2 in
  scene.item_at scene_demo.heap 1%positive = Some scene_demo.panel
  ∧ scene.setState 1%positive scene_demo_more.bigger scene_demo.heap = (scene.Normal tt, h1)
  ∧ scene.setState 1%positive scene_demo_more.same_size h1 = (scene.Normal tt, h2)
  ∧ ∃ it2,
      scene.item_at h2 1%positive = Some it2
      ∧ scene.state it2
        = (scene_demo_more.same_size ∪ scene_demo_more.bigger) ∪ scene_demo.panel_state
      ∧ scene.buffer (scene.subject it2)
        = [scene_demo.panel_state;
           scene_demo_more.bigger ∪ scene_demo.panel_state;
           (scene_demo_more.same_size ∪ scene_demo_more.bigger) ∪ scene_demo.panel_state].
Proof.
  intros h1 h2.
  split; [vm_compute; reflexivity|]. split; [vm_compute; reflexivity|].
  split; [vm_compute; reflexivity|].
  apply (setState_twice scene_demo.heap h1 h2 1%positive scene_demo.panel
           scene_demo_more.bigger scene_demo_more.same_size);
    vm_compute; reflexivity.
Defined.

(** [setState({ size: 3 })] on the panel, whose size is 3 already. *)
Lemma setState_emits_unchanged_state_witness :
  let h' := (scene.setState 1%positive scene_demo_more.same_size scene_demo.heap).2 in
  scene.item_at scene_demo.heap 1%positive = Some scene_demo.panel
  ∧ scene_demo_more.same_size ⊆ scene.state scene_demo.panel
  ∧ scene.setState 1%positive scene_demo_more.same_size scene_demo.heap = (scene.Normal tt, h')
  ∧ ∃ it',
      scene.item_at h' 1%positive = Some it'
      ∧ scene.state it' = scene_demo.panel_state
      ∧ scene.buffer (scene.subject it') = [scene_demo.panel_state; scene_demo.panel_state].
Proof.
  intros h'.
  assert (scene_demo_more.same_size ⊆ scene.state scene_demo.panel) as Hsub.
  { unfold scene_demo_more.same_size. apply map_subseteq_spec.
    intros k v [<- <-]%lookup_singleton_Some.
    vm_compute. reflexivity. }
  split; [vm_compute; reflexivity|]. split; [exact Hsub|].
  split; [vm_compute; reflexivity|].
  apply (setState_emits_unchanged_state scene_demo.heap h' 1%positive scene_demo.panel
           scene_demo_more.same_size);
    [vm_compute; reflexivity|exact Hsub|vm_compute; reflexivity].
Defined.

(** After [setState({ $timeRange: 'now-6h', body: row })] on the panel,
    [row] finds the time range of the panel. *)
Lemma adopted_item_finds_time_range_witness :
  ∃ h',
    scene.setState 1%positive scene_demo_more.scoped_body scene_demo.heap
    = (scene.Normal tt, h')
    ∧ scene_graph.getTimeRange 2 h' 4%positive
      = Some (scene_graph.Found (scene.VString "now-6h")).
Proof.
  destruct (adopted_item_finds_time_range scene_demo.heap 1%positive 4%positive
              scene_demo.panel
              {| scene.subject := {| scene.buffer := [∅]; scene.inboxes := [] |};
                 scene.state := ∅; scene.parent := None |}
              scene_demo_more.scoped_body "body" (scene.VString "now-6h"))
    as (h' & Hrun & Hfound);
    [vm_compute; reflexivity|vm_compute; reflexivity|vm_compute; reflexivity
    |discriminate|vm_compute; reflexivity|vm_compute; reflexivity
    |vm_compute; reflexivity|vm_compute; reflexivity|].
  exists h'. split; [exact Hrun|]. apply Hfound. lia.
Defined.

(** [panel.setState({ self: panel })] completes and makes the panel its
    own parent.  The panel has no time range: from then on [getTimeRange]
    on it ends in the [RangeError], whatever the room on the stack. *)
Lemma scope_walk_throws_witness :
  let h' :=
    (scene.setState 1%positive scene_demo_more.self_reference scene_demo.heap).2 in
  scene.setState 1%positive scene_demo_more.self_reference scene_demo.heap
  = (scene.Normal tt, h')
  ∧ scene_graph.climbs h' "$timeRange" 1 1%positive 1%positive
  ∧ ∀ fuel, scene_graph.getTimeRange fuel h' 1%positive = Some scene_graph.Overflow.
Proof.
  intros h'.
  assert (scene_graph.climbs h' "$timeRange" 1 1%positive 1%positive) as Hcycle.
  { eapply scene_graph.climbs_up; [vm_compute; reflexivity| | |constructor];
      vm_compute; reflexivity. }
  split; [vm_compute; reflexivity|]. split; [exact Hcycle|].
  intros fuel. destruct (scope_walk_throws fuel h' 1%positive) as [(_ & _ & Hround) _].
  apply Hround. exists 1%nat. split; [lia|exact Hcycle].
Defined.

(** The step number ["first"] does not convert and leaves 0: step 0 of
    the recipe is applied, and reverted. *)
Lemma single_step_answers_after_the_call_witness :
  requested_step (step_req "enable-foo" "first") = (0, Some strconv.ErrSyntax)
  ∧ requested_recipe hs (step_req "enable-foo" "first") = Some enable_foo
  ∧ result (ApplyRecipeStep hs (step_req "enable-foo" "first") boot)
    = Returned (JSON StatusOK (BodyStep ("install-foo", true)))
  ∧ result (RevertRecipeStep hs (step_req "enable-foo" "first") boot)
    = Returned (JSON StatusOK (BodyStep ("install-foo", false))).
Proof.
  split; [vm_compute; reflexivity|]. split; [vm_compute; reflexivity|].
  destruct (single_step_answers_after_the_call hs (step_req "enable-foo" "first") boot
              enable_foo 0 strconv.ErrSyntax "install-foo")
    as [(w & o & Hact & Happly) (w' & o' & Hact' & Hrevert)];
    [vm_compute; reflexivity|vm_compute; reflexivity|lia|vm_compute; reflexivity|].
  rewrite Happly, Hrevert.
  vm_compute in Hact. injection Hact as <- <-.
  vm_compute in Hact'. injection Hact' as <- <-.
  split; vm_compute; reflexivity.
Defined.

(** [/render/d/abc?timeout=60]: one request, and the file is served. *)
Lemma RenderToPng_renders_once_witness :
  png.parameters (png_demo.request "60") = Some ([("timeout", "60")], 800, 400, 60, 1)
  ∧ length (png.rendered (final (png.RenderToPng png_demo.hs (png_demo.request "60")
                                   png_demo.boot))) = 1%nat
  ∧ result (png.RenderToPng png_demo.hs (png_demo.request "60") png_demo.boot)
    = Returned (png.ServeFile [("Content-Type", "image/png"); ("Cache-Control", "private")]
                  "/img/d/abc?timeout=60").
Proof.
  split; [vm_compute; reflexivity|].
  destruct (RenderToPng_renders_once png_demo.hs (png_demo.request "60") png_demo.boot
              [("timeout", "60")] 800 400 60 1) as [Hrendered Hresult];
    [vm_compute; reflexivity|].
  rewrite Hrendered, Hresult. split; reflexivity.
Defined.

(** [/render/d/abc?timeout=9223372037]: the timeout of the request has
    wrapped around to a negative number of nanoseconds. *)
Lemma RenderToPng_timeout_wraps_witness :
  png.parameters (png_demo.request "9223372037")
  = Some ([("timeout", "9223372037")], 800, 400, 9223372037, 1)
  ∧ ∃ opts,
      png.rendered (final (png.RenderToPng png_demo.hs (png_demo.request "9223372037")
                             png_demo.boot)) = [opts]
      ∧ png.Timeout opts = -9223372036709551616.
Proof.
  split; [vm_compute; reflexivity|].
  destruct (RenderToPng_timeout_wraps png_demo.hs (png_demo.request "9223372037")
              png_demo.boot [("timeout", "9223372037")] 800 400 9223372037 1)
    as (opts & Hrendered & Htimeout & _); [vm_compute; reflexivity|].
  exists opts. split; [exact Hrendered|]. rewrite Htimeout. vm_compute. reflexivity.
Defined.

(** Without a home the walks go to the top of both chains. *)
Lemma buildBreadcrumbs_without_home_witness :
  Forall (λ node, breadcrumbs.matches_home breadcrumbs_demo.get None node = false)
    (breadcrumbs.page_chain (Some breadcrumbs_demo.settings)
     ++ breadcrumbs.chain breadcrumbs_demo.dashboards)
  ∧ breadcrumbs.buildBreadcrumbs breadcrumbs_demo.get breadcrumbs_demo.dashboards
      (Some breadcrumbs_demo.settings) None
    = [ {| breadcrumbs.text := "Home"; breadcrumbs.href := "/" |};
        {| breadcrumbs.text := "Dashboards"; breadcrumbs.href := "/dashboards" |};
        {| breadcrumbs.text := "Home"; breadcrumbs.href := "/" |};
        {| breadcrumbs.text := "Dashboards"; breadcrumbs.href := "/dashboards" |};
        {| breadcrumbs.text := "CPU"; breadcrumbs.href := "/d/abc" |};
        {| breadcrumbs.text := "Settings";
           breadcrumbs.href := "/d/abc?editview=settings" |} ].
Proof.
  assert (Forall (λ node, breadcrumbs.matches_home breadcrumbs_demo.get None node = false)
            (breadcrumbs.page_chain (Some breadcrumbs_demo.settings)
             ++ breadcrumbs.chain breadcrumbs_demo.dashboards)) as Hnone.
  { repeat (constructor; [vm_compute; reflexivity|]). constructor. }
  split; [exact Hnone|].
  rewrite (buildBreadcrumbs_without_home breadcrumbs_demo.get breadcrumbs_demo.dashboards
             (Some breadcrumbs_demo.settings) None Hnone).
  vm_compute. reflexivity.
Defined.

(** The chain of the settings page reaches home: the crumbs start at home
    and the section adds nothing. *)
Lemma buildBreadcrumbs_home_above_page_witness :
  breadcrumbs.page_chain (Some breadcrumbs_demo.settings)
  = [breadcrumbs_demo.settings; breadcrumbs_demo.dashboard; breadcrumbs_demo.folder;
     breadcrumbs_demo.dashboards] ++ breadcrumbs_demo.home :: []
  ∧ breadcrumbs.is_home (Some breadcrumbs_demo.home)
      (breadcrumbs.urlToMatch breadcrumbs_demo.get breadcrumbs_demo.home)
    = Some breadcrumbs_demo.home
  ∧ breadcrumbs.buildBreadcrumbs breadcrumbs_demo.get breadcrumbs_demo.dashboards
      (Some breadcrumbs_demo.settings) (Some breadcrumbs_demo.home)
    = [ {| breadcrumbs.text := "Home"; breadcrumbs.href := "/" |};
        {| breadcrumbs.text := "Dashboards"; breadcrumbs.href := "/dashboards" |};
        {| breadcrumbs.text := "CPU"; breadcrumbs.href := "/d/abc" |};
        {| breadcrumbs.text := "Settings";
           breadcrumbs.href := "/d/abc?editview=settings" |} ].
Proof.
  split; [vm_compute; reflexivity|]. split; [vm_compute; reflexivity|].
  rewrite (buildBreadcrumbs_home_above_page breadcrumbs_demo.get breadcrumbs_demo.dashboards
             (Some breadcrumbs_demo.settings) (Some breadcrumbs_demo.home)
             [breadcrumbs_demo.settings; breadcrumbs_demo.dashboard; breadcrumbs_demo.folder;
              breadcrumbs_demo.dashboards] [] breadcrumbs_demo.home breadcrumbs_demo.home);
    [vm_compute; reflexivity|vm_compute; reflexivity
    |repeat (constructor; [vm_compute; reflexivity|]); constructor
    |vm_compute; reflexivity].
Defined.

(** A page without parent in the section Dashboards, whose parent is
    home. *)
Lemma buildBreadcrumbs_home_above_section_witness :
  let page := breadcrumbs.MkNav "Alerts" (Some "/alerts") false false None None in
  Forall (λ node,
            breadcrumbs.matches_home breadcrumbs_demo.get (Some breadcrumbs_demo.home) node
            = false)
    (breadcrumbs.page_chain (Some page))
  ∧ breadcrumbs.chain breadcrumbs_demo.dashboards
    = [breadcrumbs_demo.dashboards] ++ breadcrumbs_demo.home :: []
  ∧ breadcrumbs.buildBreadcrumbs breadcrumbs_demo.get breadcrumbs_demo.dashboards
      (Some page) (Some breadcrumbs_demo.home)
    = [ {| breadcrumbs.text := "Home"; breadcrumbs.href := "/" |};
        {| breadcrumbs.text := "Dashboards"; breadcrumbs.href := "/dashboards" |};
        {| breadcrumbs.text := "Alerts"; breadcrumbs.href := "/alerts" |} ].
Proof.
  intros page.
  assert (Forall (λ node,
                    breadcrumbs.matches_home breadcrumbs_demo.get
                      (Some breadcrumbs_demo.home) node = false)
            (breadcrumbs.page_chain (Some page))) as Hpage.
  { repeat (constructor; [vm_compute; reflexivity|]). constructor. }
  split; [exact Hpage|]. split; [vm_compute; reflexivity|].
  rewrite (buildBreadcrumbs_home_above_section breadcrumbs_demo.get
             breadcrumbs_demo.dashboards (Some page) (Some breadcrumbs_demo.home)
             [breadcrumbs_demo.dashboards] [] breadcrumbs_demo.home breadcrumbs_demo.home
             Hpage);
    [vm_compute; reflexivity|vm_compute; reflexivity
    |repeat (constructor; [vm_compute; reflexivity|]); constructor
    |vm_compute; reflexivity].
Defined.

(** Rule ["r1"] has two records at timestamp 20, with the values 2 and 7:
    the series has the 2, of the record that comes first in the list. *)
Lemma getPanelDataForRule_first_record_wins_witness :
  history.Time (history.getPanelDataForRule 0 "r1" history_demo.records "A") !! 1%nat
  = Some 20
  ∧ history.values_field (history.getPanelDataForRule 0 "r1" history_demo.records "A")
    !! 1%nat
    = Some (Some 2).
Proof.
  split; [vm_compute; reflexivity|].
  destruct (getPanelDataForRule_first_record_wins 0 "r1" history_demo.records "A" 1%nat 20)
    as (record & Hhead & Hvalue); [vm_compute; reflexivity|].
  rewrite Hvalue. vm_compute in Hhead. injection Hhead as <-.
  vm_compute. reflexivity.
Defined.

(** The record of rule ["r2"] is the only one of its rule. *)
Lemma transitions_counts_the_record_witness :
  {| history.timestamp := 25; history.line := history_demo.line_of "r2" 9 |}
    ∈ history_demo.records
  ∧ history.transitions history_demo.records
      {| history.timestamp := 25; history.line := history_demo.line_of "r2" 9 |}
    = 1%nat.
Proof.
  assert ({| history.timestamp := 25; history.line := history_demo.line_of "r2" 9 |}
            ∈ history_demo.records) as Hin.
  { unfold history_demo.records. set_solver. }
  split; [exact Hin|].
  destruct (transitions_counts_the_record history_demo.records _ Hin) as [_ Hcount].
  destruct (Hcount "r2") as [-> _]; [reflexivity|discriminate|].
  vm_compute. reflexivity.
Defined.
